(** * update_contributions.py: a shallow embedding and its properties

    The script fetches the merged pull requests of one author from the
    GitHub search API, groups them by category and repository, renders an
    HTML fragment and splices it into index.html between two markers.

    Python [str] values are modelled as lists of code points,
    insertion-ordered dictionaries as association lists with unique keys,
    and the effects of the script (HTTP requests, sleeping, printing,
    reading index.html in text mode and writing it back, [sys.exit],
    uncaught exceptions) by a state-and-exit monad over a [world] record. *)

From Stdlib Require Import List Ascii ZArith Lia Bool Arith.
From Stdlib Require Import Permutation Sorted.
From Stdlib Require String.
From Stdlib Require Import Numbers.DecimalString.
Import ListNotations.
Import String.StringSyntax.

Local Open Scope Z_scope.
Local Open Scope list_scope.

(* ================================================================== *)
(** ** Text: Python [str] as a list of code points *)
(* ================================================================== *)

(** A character is its Unicode code point.  A [str] can hold any code point
    below 0x110000, the surrogates 0xD800 to 0xDFFF included: [json.loads]
    yields them for an escape that stands alone. *)
Definition char := N.
Definition text := list char.

(** A character of the source, read as its code point. *)
Definition chr (a : ascii) : char := N_of_ascii a.
Arguments chr a%_char.

(** String literals of the source, read as [text]. *)
Definition str (s : String.string) : text :=
  map N_of_ascii (String.list_ascii_of_string s).
Delimit Scope string_scope with string.
Arguments str s%_string.

(** The double-quote character, as a one-character text. *)
Definition dquote : text := [34%N].

(** The line feed and the carriage return. *)
Definition nl : char := 10%N.
Definition cr : char := 13%N.

Definition text_eqb (a b : text) : bool :=
  if list_eq_dec N.eq_dec a b then true else false.

Definition len (s : text) : Z := Z.of_nat (length s).

(** [str(n)] for an integer. *)
Definition str_of_Z (n : Z) : text :=
  str (NilEmpty.string_of_int (Z.to_int n)).

(** [sub] occurs in [s] at offset 0. *)
Fixpoint starts_with (sub s : text) : bool :=
  match sub, s with
  | [], _ => true
  | _ :: _, [] => false
  | a :: sub', b :: s' => N.eqb a b && starts_with sub' s'
  end.

(** [s.find(sub)]: the lowest index at which [sub] occurs, or -1. *)
Fixpoint find_from (sub s : text) (i : Z) : Z :=
  if starts_with sub s then i
  else match s with
       | [] => -1
       | _ :: s' => find_from sub s' (i + 1)
       end.

Definition find (sub s : text) : Z := find_from sub s 0.

(** [sub in s]. *)
Definition contains (sub s : text) : bool := negb (find sub s =? -1).

(** Normalisation of a slice bound: a negative bound counts from the end,
    and the result is clamped to [0, n]. *)
Definition norm_index (n i : Z) : Z :=
  if i <? 0 then Z.max 0 (i + n) else Z.min i n.

(** [s[lo:hi]]. *)
Definition slice (s : text) (lo hi : Z) : text :=
  let lo' := norm_index (len s) lo in
  let hi' := norm_index (len s) hi in
  firstn (Z.to_nat (hi' - lo')) (skipn (Z.to_nat lo') s).

(** [s[:hi]] and [s[lo:]]. *)
Definition slice_to (s : text) (hi : Z) : text := slice s 0 hi.
Definition slice_from (s : text) (lo : Z) : text := slice s lo (len s).

(** The highest offset of [s] at which [sub] occurs, scanning left to right
    and remembering the last hit; [last] when there is none. *)
Fixpoint rfind_acc (sub s : text) (i last : Z) : Z :=
  let last' := if starts_with sub s then i else last in
  match s with
  | [] => last'
  | _ :: s' => rfind_acc sub s' (i + 1) last'
  end.

(** [s.rfind(sub, lo, hi)]: the highest index of an occurrence of [sub]
    lying inside [s[lo:hi]], or -1. *)
Definition rfind (sub s : text) (lo hi : Z) : Z :=
  let r := rfind_acc sub (slice s lo hi) 0 (-1) in
  if r =? -1 then -1 else norm_index (len s) lo + r.

(** [s.replace(old, new)]: every non-overlapping occurrence of [old], from
    the left, is replaced by [new].  [skip] counts the characters of an
    occurrence still to be dropped. *)
Fixpoint replace_aux (old new : text) (skip : nat) (s : text) : text :=
  match s with
  | [] => []
  | c :: s' =>
      match skip with
      | S k => replace_aux old new k s'
      | O =>
          if starts_with old s
          then new ++ replace_aux old new (Nat.pred (length old)) s'
          else c :: replace_aux old new O s'
      end
  end.

Definition replace (old new s : text) : text :=
  match old with
  | [] => new ++ flat_map (fun c => c :: new) s
  | _ :: _ => replace_aux old new O s
  end.

(** [sep.join(lines)]. *)
Fixpoint join (sep : text) (lines : list text) : text :=
  match lines with
  | [] => []
  | [l] => l
  | l :: rest => l ++ sep ++ join sep rest
  end.

(** [s.split(sep)] for a one-character separator. *)
Fixpoint split_on (sep : char) (s : text) : list text :=
  match s with
  | [] => [[]]
  | c :: s' =>
      if N.eqb c sep then [] :: split_on sep s'
      else match split_on sep s' with
           | [] => [[c]]
           | w :: ws => (c :: w) :: ws
           end
  end.

(** What a text file opened for reading with the default [newline=None]
    hands out: a carriage return, together with the line feed that follows
    it if there is one, is read as one line feed.  [after_cr] tells that
    the character just read was a carriage return. *)
Fixpoint universal_newlines_from (after_cr : bool) (t : text) : text :=
  match t with
  | [] => []
  | c :: t' =>
      if N.eqb c cr then nl :: universal_newlines_from true t'
      else if N.eqb c nl && after_cr then universal_newlines_from false t'
      else c :: universal_newlines_from false t'
  end.

Definition universal_newlines (t : text) : text :=
  universal_newlines_from false t.

(** The code points UTF-8 does not encode: the surrogates. *)
Definition is_surrogate (c : char) : bool :=
  (55296 <=? c)%N && (c <=? 57343)%N.

(** [t.encode("utf-8")] succeeds. *)
Definition utf8_encodable (t : text) : bool :=
  forallb (fun c => negb (is_surrogate c)) t.

(* ================================================================== *)
(** ** Configuration constants *)
(* ================================================================== *)

Definition GITHUB_USERNAME : text := str "akshaypatidar1999".

Definition EXCLUDED_REPOS : list text :=
  [ str "dream11/odin"; str "dream11/homebrew-tools" ].

Definition START_MARKER : text := str "<!-- BEGIN CONTRIBUTIONS -->".
Definition END_MARKER : text := str "<!-- END CONTRIBUTIONS -->".

Definition CHEVRON_SVG : text :=
  str "<svg class=" ++ dquote ++ str "repo-chevron" ++ dquote
  ++ str " viewBox=" ++ dquote ++ str "0 0 24 24" ++ dquote
  ++ str " fill=" ++ dquote ++ str "none" ++ dquote ++ str " "
  ++ str "stroke=" ++ dquote ++ str "currentColor" ++ dquote
  ++ str " stroke-width=" ++ dquote ++ str "2" ++ dquote ++ str ">"
  ++ str "<polyline points=" ++ dquote ++ str "9 18 15 12 9 6" ++ dquote
  ++ str "/></svg>".

(** A category: its name, its optional link and, for the rules of
    [CATEGORIES], the predicate on the repository's full name. *)
Record category := {
  name : text;
  link_text : option text;
  link_url : option text;
  matches : text -> bool
}.

Definition CATEGORIES : list category :=
  [ {| name := str "Odin";
       link_text := Some (str "dream-horizon-org.github.io/odin");
       link_url := Some (str "https://dream-horizon-org.github.io/odin/");
       matches := fun repo => contains (str "odin") repo |};
    {| name := str "Vert.x";
       link_text := Some (str "vertx.io");
       link_url := Some (str "https://vertx.io/");
       matches := fun repo => contains (str "vertx") repo |} ].

(** [OTHER_CATEGORY] has no "match" key; it is never asked to match. *)
Definition OTHER_CATEGORY : category :=
  {| name := str "Other"; link_text := None; link_url := None;
     matches := fun _ => true |}.

(* ================================================================== *)
(** ** Data model *)
(* ================================================================== *)

(** The dictionary built for each merged pull request. *)
Record pr := {
  repo : text;
  pr_number : Z;
  title : text;
  url : text
}.

(** One element of the "items" array of a search response, of which the
    script reads the keys "html_url" and "title"; both are taken to be
    present and to hold strings. *)
Record item := {
  item_html_url : text;
  item_title : text
}.

(** The decoded JSON body of a search response; both keys are read with
    [dict.get] and a default, so either may be missing. *)
Record search_data := {
  items : option (list item);
  total_count : option Z
}.

(** A parameter value: a string or an integer. *)
Inductive pval := PStr (s : text) | PInt (n : Z).

(** A request URL: the endpoint and the parameters handed to [urlencode],
    in order. *)
Record request := {
  endpoint : text;
  params : list (text * pval)
}.

(** What [urlopen] does: an answer whose body [json.loads] decodes, or an
    [HTTPError] with its status code, its Retry-After header when present,
    and its body.  Network failures other than [HTTPError] and bodies that
    are not JSON are outside the model. *)
Inductive http_response :=
| Http200 (data : search_data)
| HttpError (code : Z) (retry_after : option text) (body : text).

(* ================================================================== *)
(** ** Effects *)
(* ================================================================== *)

(** The exceptions that can escape: of [int] and [time.sleep], of list
    indexing, of [time.sleep] again, and of the encoder of a text file. *)
Inductive exception :=
| ValueError
| IndexError
| OverflowError
| UnicodeEncodeError.

(** How a call ends: it returns, the process exits through [sys.exit], an
    exception escapes, or the model's loop budget is spent (which
    [fetch_never_out_of_fuel] rules out). *)
Inductive result (A : Type) :=
| Ok (a : A)
| Exit (code : Z)
| Raise (e : exception)
| OutOfFuel.
Arguments Ok {A} a.
Arguments Exit {A} code.
Arguments Raise {A} e.
Arguments OutOfFuel {A}.

Inductive event :=
| Get (u : request) (headers : list (text * text))
| Sleep (secs : Z)
| Print (line : text)
| Write (content : text)
| Truncate.

(** The world the script runs in.  The API answers a request as a function
    of the number of requests it has served before and of the request. *)
Record world := {
  api : nat -> request -> http_response;
  served : nat;
  index_html : text;
  log : list event
}.

Definition M (A : Type) : Type := world -> result A * world.

Definition ret {A} (a : A) : M A := fun w => (Ok a, w).

Definition bind {A B} (m : M A) (k : A -> M B) : M B :=
  fun w =>
    match m w with
    | (Ok a, w') => k a w'
    | (Exit c, w') => (Exit c, w')
    | (Raise e, w') => (Raise e, w')
    | (OutOfFuel, w') => (OutOfFuel, w')
    end.

Notation "x <- m ;; k" := (bind m (fun x => k))
  (at level 61, m at next level, right associativity).
Notation "m ;;; k" := (bind m (fun _ => k))
  (at level 61, right associativity).

Definition emit (e : event) : M unit :=
  fun w => (Ok tt, {| api := api w; served := served w;
                      index_html := index_html w; log := log w ++ [e] |}).

Definition print (line : text) : M unit := emit (Print line).

Definition sys_exit {A} (code : Z) : M A := fun w => (Exit code, w).

Definition raise {A} (e : exception) : M A := fun w => (Raise e, w).

(** The longest sleep in seconds: [time.sleep] first turns its argument
    into a count of nanoseconds held in 64 bits. *)
Definition SLEEP_MAX : Z := 9223372036.

(** [time.sleep(secs)] for an integer: a duration that does not fit is an
    [OverflowError], whatever its sign; a negative one that fits is a
    [ValueError]. *)
Definition sleep (secs : Z) : M unit :=
  if (secs <? - SLEEP_MAX) || (SLEEP_MAX <? secs) then raise OverflowError
  else if secs <? 0 then raise ValueError
  else emit (Sleep secs).

(** [urlopen(Request(url, headers=headers))]. *)
Definition urlopen (u : request) (headers : list (text * text))
  : M http_response :=
  fun w =>
    (Ok (api w (served w) u),
     {| api := api w; served := S (served w);
        index_html := index_html w; log := log w ++ [Get u headers] |}).

(** [open(INDEX_PATH, "r", encoding="utf-8")] and [f.read()]: the file is
    taken to exist and to hold UTF-8 text, whose characters [index_html]
    records; text mode hands them out with universal newlines. *)
Definition read_index : M text :=
  fun w => (Ok (universal_newlines (index_html w)), w).

(** [open(INDEX_PATH, "w", encoding="utf-8")] and [f.write(content)]:
    opening empties the file, and the text is encoded as a whole before any
    of it is written, so a text UTF-8 cannot encode leaves the file empty
    and raises [UnicodeEncodeError].  A line feed is written as it is
    ([os.linesep] is a line feed).  The event [Write] records a completed
    write, [Truncate] a file left empty. *)
Definition write_index (content : text) : M unit :=
  fun w =>
    if utf8_encodable content then
      (Ok tt, {| api := api w; served := served w;
                 index_html := content;
                 log := log w ++ [Write content] |})
    else
      (Raise UnicodeEncodeError,
       {| api := api w; served := served w;
          index_html := [];
          log := log w ++ [Truncate] |}).

(* ================================================================== *)
(** ** The API client *)
(* ================================================================== *)

Definition text_dec : forall a b : text, {a = b} + {a <> b} :=
  list_eq_dec N.eq_dec.

Definition len_list {A} (l : list A) : Z := Z.of_nat (length l).

Definition mem (x : text) (l : list text) : bool :=
  if in_dec text_dec x l then true else false.

Section ApiClient.

(** Python's built-in [int] on a [str]; [None] stands for the
    [ValueError] it raises on a malformed numeral. *)
Variable py_int : text -> option Z.

Definition int_of (s : text) : M Z :=
  match py_int s with
  | Some n => ret n
  | None => raise ValueError
  end.

(** [l[i]]: an [IndexError] when out of range. *)
Definition index {A} (l : list A) (i : nat) : M A :=
  match nth_error l i with
  | Some x => ret x
  | None => raise IndexError
  end.

(** The body of [for attempt in range(3)], with the number of attempts
    left; what follows the loop is the case of none left. *)
Fixpoint github_request_attempts (attempts : nat) (u : request)
    (headers : list (text * text)) : M search_data :=
  match attempts with
  | O =>
      print (str "Error: Exceeded retry attempts") ;;;
      sys_exit 1
  | S k =>
      resp <- urlopen u headers ;;
      match resp with
      | Http200 data => ret data
      | HttpError code header body =>
          if (code =? 403) || (code =? 429) then
            retry_after <- int_of (match header with
                                   | Some v => v
                                   | None => str "60"
                                   end) ;;
            print (str "Rate limited. Waiting " ++ str_of_Z retry_after
                   ++ str "s...") ;;;
            sleep retry_after ;;;
            github_request_attempts k u headers
          else
            print (str "Error: GitHub API returned " ++ str_of_Z code) ;;;
            print body ;;;
            sys_exit 1
      end
  end.

Definition github_request (u : request) (headers : list (text * text))
  : M search_data :=
  github_request_attempts 3 u headers.

Definition search_url (page per_page : Z) : request :=
  {| endpoint := str "https://api.github.com/search/issues";
     params :=
       [ (str "q", PStr (str "type:pr author:" ++ GITHUB_USERNAME
                         ++ str " is:merged"));
         (str "per_page", PInt per_page);
         (str "page", PInt page);
         (str "sort", PStr (str "created"));
         (str "order", PStr (str "desc")) ] |}.

Definition accept_headers : list (text * text) :=
  [ (str "Accept", str "application/vnd.github+json") ].

(** [for item in items: ...], appending to [all_prs]. *)
Fixpoint collect (its : list item) (all_prs : list pr) : M (list pr) :=
  match its with
  | [] => ret all_prs
  | it :: rest =>
      let html_url := item_html_url it in
      let parts := split_on (chr "/") html_url in
      owner <- index parts 3 ;;
      repo_name <- index parts 4 ;;
      number <- index parts 6 ;;
      pr_number <- int_of number ;;
      let full_repo := owner ++ str "/" ++ repo_name in
      if mem full_repo EXCLUDED_REPOS then collect rest all_prs
      else collect rest
             (all_prs ++ [ {| repo := full_repo;
                              pr_number := pr_number;
                              title := item_title it;
                              url := html_url |} ])
  end.

Definition per_page : Z := 100.

(** [while True: ...] from the given page on. *)
Fixpoint fetch_loop (fuel : nat) (page : Z) (all_prs : list pr)
  : M (list pr) :=
  match fuel with
  | O => fun w => (OutOfFuel, w)
  | S fuel' =>
      data <- github_request (search_url page per_page) accept_headers ;;
      let its := match items data with Some l => l | None => [] end in
      match its with
      | [] => ret all_prs
      | _ :: _ =>
          all_prs' <- collect its all_prs ;;
          let total := match total_count data with
                       | Some n => n
                       | None => 0
                       end in
          if (page * per_page >=? total) || (page * per_page >=? 1000)
          then ret all_prs'
          else fetch_loop fuel' (page + 1) all_prs'
      end
  end.

Definition fetch_merged_prs : M (list pr) :=
  all_prs <- fetch_loop 10 1 [] ;;
  let repos := nodup text_dec (map repo all_prs) in
  print (str "Fetched " ++ str_of_Z (len_list all_prs)
         ++ str " merged PRs across " ++ str_of_Z (len_list repos)
         ++ str " repos") ;;;
  ret all_prs.

End ApiClient.

(* ================================================================== *)
(** ** Insertion-ordered dictionaries *)
(* ================================================================== *)

Section Dict.

Context {V : Type}.

Definition dict : Type := list (text * V).

Definition keys (d : dict) : list text := map fst d.

(** [d.get(k)], with [None] for a missing key. *)
Fixpoint dict_get (k : text) (d : dict) : option V :=
  match d with
  | [] => None
  | (k', v) :: d' => if text_eqb k k' then Some v else dict_get k d'
  end.

(** [k in d]. *)
Definition dict_has (k : text) (d : dict) : bool :=
  match dict_get k d with Some _ => true | None => false end.

(** [d[k] = v]: an existing key keeps its place, a new key goes last. *)
Fixpoint dict_set (k : text) (v : V) (d : dict) : dict :=
  match d with
  | [] => [(k, v)]
  | (k', v') :: d' =>
      if text_eqb k k' then (k, v) :: d' else (k', v') :: dict_set k v d'
  end.

(** The value a [defaultdict] yields for [k]: the stored one, or the
    default it would insert. *)
Definition dd_get (default : V) (k : text) (d : dict) : V :=
  match dict_get k d with Some v => v | None => default end.

(** [OrderedDict(pairs)]. *)
Definition dict_of_items (pairs : list (text * V)) : dict :=
  fold_left (fun d kv => dict_set (fst kv) (snd kv) d) pairs [].

End Dict.

Arguments dict V : clear implicits.

(* ================================================================== *)
(** ** The categorizer *)
(* ================================================================== *)

(** [sorted(l, key=key, reverse=True)]: descending by key and stable, so
    elements of equal key keep their order.  [insert_desc] puts an element
    that stood before all of [l] in front of the first one not above it. *)
Fixpoint insert_desc {A} (key : A -> Z) (x : A) (l : list A) : list A :=
  match l with
  | [] => [x]
  | y :: l' =>
      if key y <=? key x then x :: y :: l' else y :: insert_desc key x l'
  end.

Fixpoint sorted_desc {A} (key : A -> Z) (l : list A) : list A :=
  match l with
  | [] => []
  | x :: l' => insert_desc key x (sorted_desc key l')
  end.

(** One section of the result: the category and its repositories. *)
Record section := {
  config : category;
  repos : dict (list pr)
}.

(** [repos = defaultdict(list); for pr in prs: repos[pr["repo"]].append(pr)] *)
Definition group_by_repo (prs : list pr) : dict (list pr) :=
  fold_left
    (fun repos p => dict_set (repo p) (dd_get [] (repo p) repos ++ [p]) repos)
    prs [].

(** The inner [for cat in CATEGORIES: if cat["match"](repo_name): ... break],
    with [chosen] the category assigned before the loop. *)
Fixpoint first_match (cats : list category) (repo_name : text)
    (chosen : category) : category :=
  match cats with
  | [] => chosen
  | cat :: rest =>
      if matches cat repo_name then cat else first_match rest repo_name chosen
  end.

Definition pr_count (entry : text * list pr) : Z := len_list (snd entry).

Section Categorizer.

Variable cats : list category.
Variable other : category.

Definition pick_category (repo_name : text) : category :=
  first_match cats repo_name other.

(** The loop over [repos.items()]. *)
Definition categorize_repos (repos : dict (list pr))
  : dict (dict (list pr)) :=
  fold_left
    (fun categorized entry =>
       let repo_name := fst entry in
       let repo_prs := snd entry in
       let chosen := pick_category repo_name in
       dict_set (name chosen)
         (dict_set repo_name (sorted_desc pr_number repo_prs)
            (dd_get [] (name chosen) categorized))
         categorized)
    repos [].

(** One step of the loops that fill [result]. *)
Definition add_section (categorized : dict (dict (list pr)))
    (result : dict section) (cat : category) : dict section :=
  if dict_has (name cat) categorized then
    let sorted_repos :=
      dict_of_items
        (sorted_desc pr_count (dd_get [] (name cat) categorized)) in
    dict_set (name cat) {| config := cat; repos := sorted_repos |} result
  else result.

Definition categorize_in (prs : list pr) : dict section :=
  let repos := group_by_repo prs in
  let categorized := categorize_repos repos in
  let result := fold_left (add_section categorized) cats [] in
  add_section categorized result other.

End Categorizer.

Definition categorize_prs (prs : list pr) : dict section :=
  categorize_in CATEGORIES OTHER_CATEGORY prs.

(* ================================================================== *)
(** ** The HTML renderer *)
(* ================================================================== *)

Definition html_escape (t : text) : text :=
  replace dquote (str "&quot;")
    (replace (str ">") (str "&gt;")
       (replace (str "<") (str "&lt;")
          (replace (str "&") (str "&amp;") t))).

(** An f-string field holding an optional text. *)
Definition fmt_opt (o : option text) : text :=
  match o with Some t => t | None => str "None" end.

(** The anchor appended to [pr_links] for one pull request: what comes
    before the escaped title, then the title and the closing tag. *)
Definition pr_link_open (p : pr) : text :=
  str "<a class=" ++ dquote ++ str "pr-item" ++ dquote
  ++ str " href=" ++ dquote ++ url p ++ dquote ++ str " "
  ++ str "target=" ++ dquote ++ str "_blank" ++ dquote
  ++ str " rel=" ++ dquote ++ str "noopener" ++ dquote ++ str ">"
  ++ str "<span class=" ++ dquote ++ str "pr-badge" ++ dquote
  ++ str ">merged</span>".

Definition pr_link (p : pr) : text :=
  let escaped_title := html_escape (title p) in
  pr_link_open p ++ escaped_title ++ str "</a>".

Definition count_label (n : Z) : text :=
  if n =? 1 then str_of_Z n ++ str " PR" else str_of_Z n ++ str " PRs".

(** The lines appended for one repository. *)
Definition repo_lines (entry : text * list pr) : list text :=
  let repo_name := fst entry in
  let prs := snd entry in
  let pr_links := flat_map pr_link prs in
  [ str "            <details class=" ++ dquote ++ str "repo-item" ++ dquote
    ++ str ">"
    ++ str "<summary>" ++ CHEVRON_SVG
    ++ str "<span class=" ++ dquote ++ str "repo-name" ++ dquote ++ str ">"
    ++ repo_name ++ str "</span>"
    ++ str "<span class=" ++ dquote ++ str "repo-count" ++ dquote ++ str ">"
    ++ count_label (len_list prs) ++ str "</span>"
    ++ str "</summary>"
    ++ str "<div class=" ++ dquote ++ str "pr-list" ++ dquote ++ str ">"
    ++ pr_links ++ str "</div></details>";
    [] ].

Definition truthy (o : option text) : bool :=
  match o with Some (_ :: _) => true | _ => false end.

(** The lines appended for one category. *)
Definition category_lines (entry : text * section) : list text :=
  let cat_name := fst entry in
  let cfg := config (snd entry) in
  [ str "        <!-- " ++ cat_name ++ str " -->";
    str "        <div class=" ++ dquote ++ str "org-section" ++ dquote
    ++ str ">";
    if truthy (link_url cfg) then
      str "          <div class=" ++ dquote ++ str "org-label" ++ dquote
      ++ str ">" ++ name cfg ++ str " "
      ++ str "<a href=" ++ dquote ++ fmt_opt (link_url cfg) ++ dquote
      ++ str " target=" ++ dquote ++ str "_blank" ++ dquote ++ str " "
      ++ str "rel=" ++ dquote ++ str "noopener" ++ dquote ++ str ">"
      ++ fmt_opt (link_text cfg) ++ str "</a></div>"
    else
      str "          <div class=" ++ dquote ++ str "org-label" ++ dquote
      ++ str ">" ++ name cfg ++ str "</div>";
    str "          <div class=" ++ dquote ++ str "repo-list" ++ dquote
    ++ str ">";
    [] ]
  ++ flat_map repo_lines (repos (snd entry))
  ++ [ str "          </div>"; str "        </div>"; [] ].

Definition html_lines (categorized : dict section) : list text :=
  [ str "      <!-- BEGIN CONTRIBUTIONS -->";
    str "      <div class=" ++ dquote ++ str "contributions" ++ dquote
    ++ str ">";
    str "        <h2>Open Source Contributions</h2>";
    [] ]
  ++ flat_map category_lines categorized
  ++ [ str "      </div>"; str "      <!-- END CONTRIBUTIONS -->" ].

Definition generate_contributions_html (categorized : dict section) : text :=
  join [nl] (html_lines categorized).

(* ================================================================== *)
(** ** The file patcher and the entry point *)
(* ================================================================== *)

Section Patcher.

(** The absolute path of index.html, which only the last message shows. *)
Variable INDEX_PATH : text.

Definition update_index_html (new_html : text) : M unit :=
  content <- read_index ;;
  let start := find START_MARKER content in
  let end_ := find END_MARKER content in
  if (start =? -1) || (end_ =? -1) then
    print (str "Error: Could not find contribution markers in index.html") ;;;
    sys_exit 1
  else
    let line_start := rfind [nl] content 0 start in
    let start := if negb (line_start =? -1) then line_start + 1 else start in
    let end_ := end_ + len END_MARKER in
    let new_content :=
      slice_to content start ++ new_html ++ slice_from content end_ in
    write_index new_content ;;;
    print (str "Updated " ++ INDEX_PATH).

Variable py_int : text -> option Z.

Definition sum_Z (l : list Z) : Z := fold_left Z.add l 0.

Definition main : M unit :=
  prs <- fetch_merged_prs py_int ;;
  match prs with
  | [] =>
      print (str "Warning: No merged PRs found. Skipping update.") ;;;
      sys_exit 0
  | _ :: _ =>
      let categorized := categorize_prs prs in
      let total_prs :=
        sum_Z (flat_map (fun c => map (fun e => len_list (snd e))
                                      (repos (snd c))) categorized) in
      let total_repos :=
        sum_Z (map (fun c => len_list (repos (snd c))) categorized) in
      print (str "Categorized " ++ str_of_Z total_prs ++ str " PRs across "
             ++ str_of_Z total_repos ++ str " repos into "
             ++ str_of_Z (len_list categorized) ++ str " sections") ;;;
      update_index_html (generate_contributions_html categorized)
  end.

End Patcher.

(* ================================================================== *)
(** ** Vocabulary of the properties *)
(* ================================================================== *)

(** [sub] occurs in [s] at offset [n]. *)
Definition occurs_at (sub s : text) (n : nat) : Prop :=
  starts_with sub (skipn n s) = true.

(** The first occurrence of [sub] in [s] is at offset [n]. *)
Definition first_at (sub s : text) (n : nat) : Prop :=
  (n <= length s)%nat /\ occurs_at sub s n /\
  forall m, (m < n)%nat -> ~ occurs_at sub s m.

(** index.html as the script reads it. *)
Definition file_text (w : world) : text := universal_newlines (index_html w).

(** The last two lines of [update_index_html]: the write and the
    message. *)
Definition write_and_report (path content : text) : M unit :=
  write_index content ;;; print (str "Updated " ++ path).

(** Where the replaced region starts and ends, as [update_index_html]
    computes them. *)
Definition region_start (content : text) : Z :=
  let start := find START_MARKER content in
  let line_start := rfind [nl] content 0 start in
  if negb (line_start =? -1) then line_start + 1 else start.

Definition region_end (content : text) : Z :=
  find END_MARKER content + len END_MARKER.

(** A world without network, holding the given index.html. *)
Definition file_world (content : text) : world :=
  {| api := fun _ _ => HttpError 404 None [];
     served := 0; index_html := content; log := [] |}.

(** A document with the two marker lines, the first one indented by two
    spaces, between a prefix and a suffix. *)
Definition marked_doc (PREFIX OLD SUFFIX : text) : text :=
  PREFIX ++ [nl] ++ str "  " ++ START_MARKER ++ [nl] ++ OLD
  ++ [nl] ++ END_MARKER ++ [nl] ++ SUFFIX.

(** The document of the patch example. *)
Definition example_doc : text :=
  marked_doc (str "PREFIX") (str "OLD") (str "SUFFIX").

(** The document of the patch example with every line ended by a carriage
    return and a line feed. *)
Definition crlf_doc : text :=
  str "PREFIX" ++ [cr; nl] ++ str "  " ++ START_MARKER ++ [cr; nl]
  ++ str "OLD" ++ [cr; nl] ++ END_MARKER ++ [cr; nl] ++ str "SUFFIX"
  ++ [cr; nl].

(** An item whose title is one surrogate, as [json.loads] yields for a
    lone escape. *)
Definition surrogate_item : item :=
  {| item_html_url := str "https://github.com/eclipse-vertx/vertx-sql/pull/12";
     item_title := [55296%N] |}.

(** A document whose end marker comes before its start marker. *)
Definition swapped_doc : text := END_MARKER ++ [nl] ++ START_MARKER.

(** A document whose start marker stands, indented, on the first line. *)
Definition first_line_doc : text :=
  str "  " ++ START_MARKER ++ [nl] ++ str "OLD" ++ [nl] ++ END_MARKER.

(** The entity of a character, or the character itself: escaping as a single
    pass over the title. *)
Definition escape_char (c : char) : text :=
  if N.eqb c (chr "&") then str "&amp;"
  else if N.eqb c (chr "<") then str "&lt;"
  else if N.eqb c (chr ">") then str "&gt;"
  else if N.eqb c 34%N then str "&quot;"
  else [c].

(** The characters [html_escape] rewrites. *)
Definition is_special (c : char) : bool :=
  N.eqb c (chr "&") || N.eqb c (chr "<") || N.eqb c (chr ">")
  || N.eqb c 34%N.

(** The world after [n] more requests and the events [evs]. *)
Definition after (w : world) (n : nat) (evs : list event) : world :=
  {| api := api w; served := (served w + n)%nat;
     index_html := index_html w; log := log w ++ evs |}.

(** The response is a rate limit asking for [d] seconds: status 403 or 429,
    with a Retry-After header (or, without one, the text 60) that [py_int]
    reads as [d], a duration [time.sleep] accepts. *)
Definition rate_limited (py_int : text -> option Z) (r : http_response)
    (d : Z) : Prop :=
  exists code header body,
    r = HttpError code header body /\ (code = 403 \/ code = 429) /\
    py_int (match header with Some v => v | None => str "60" end) = Some d /\
    0 <= d <= SLEEP_MAX.

(** The response is an HTTP error that is not a rate limit. *)
Definition other_error (r : http_response) (code : Z) (body : text) : Prop :=
  exists header, r = HttpError code header body /\ code <> 403 /\ code <> 429.

(** What one rate-limited attempt logs. *)
Definition waited (u : request) (headers : list (text * text)) (d : Z)
  : list event :=
  [ Get u headers;
    Print (str "Rate limited. Waiting " ++ str_of_Z d ++ str "s...");
    Sleep d ].

(** What an attempt ending on another HTTP error logs. *)
Definition failed (u : request) (headers : list (text * text)) (code : Z)
    (body : text) : list event :=
  [ Get u headers;
    Print (str "Error: GitHub API returned " ++ str_of_Z code);
    Print body ].

(** A reader of plain decimal numerals, on which it agrees with [int]. *)
Fixpoint decimal_acc (s : text) (acc : Z) : option Z :=
  match s with
  | [] => Some acc
  | c :: s' =>
      let d := Z.of_N c - 48 in
      if (0 <=? d) && (d <=? 9) then decimal_acc s' (10 * acc + d) else None
  end.

Definition decimal (s : text) : option Z :=
  match s with [] => None | _ :: _ => decimal_acc s 0 end.

(** An API that answers the first request with status 429 and
    Retry-After 2, and every later one with an empty result. *)
Definition limited_once : nat -> request -> http_response :=
  fun n _ =>
    match n with
    | O => HttpError 429 (Some (str "2")) (str "slow down")
    | S _ => Http200 {| items := Some []; total_count := Some 0 |}
    end.

Definition limited_once_world : world :=
  {| api := limited_once; served := 0; index_html := []; log := [] |}.

(** An API that answers with status 429 and a Retry-After header that is
    not a number of seconds. *)
Definition limited_by_date_world : world :=
  {| api := fun _ _ =>
              HttpError 429 (Some (str "Fri, 31 Dec 1999 23:59:59 GMT"))
                (str "slow down");
     served := 0; index_html := []; log := [] |}.

(** An item whose URL has too few segments for a pull request. *)
Definition short_item : item :=
  {| item_html_url := str "https://github.com/o"; item_title := str "t" |}.

(** The record [collect] builds from an item, when the URL has the seven
    segments and a number [py_int] can read. *)
Definition item_record (py_int : text -> option Z) (it : item) : option pr :=
  let parts := split_on (chr "/") (item_html_url it) in
  match nth_error parts 3, nth_error parts 4, nth_error parts 6 with
  | Some owner, Some repo_name, Some number =>
      match py_int number with
      | Some n => Some {| repo := owner ++ str "/" ++ repo_name;
                          pr_number := n;
                          title := item_title it;
                          url := item_html_url it |}
      | None => None
      end
  | _, _, _ => None
  end.

(** The record's repository is not excluded. *)
Definition kept (p : pr) : bool := negb (mem (repo p) EXCLUDED_REPOS).

Definition param_int (k : text) (u : request) : option Z :=
  match dict_get k (params u) with
  | Some (PInt n) => Some n
  | _ => None
  end.

(** The items of one page of 100, pages counted from 1. *)
Definition page_items (all : list item) (page : Z) : list item :=
  firstn 100 (skipn (100 * Z.to_nat (page - 1)) all).

(** A simulated API over the result list [all]: it reports the length of
    [all] as total_count and serves the requested page of 100 items. *)
Definition sim_api (all : list item) : nat -> request -> http_response :=
  fun _ u =>
    match param_int (str "page") u with
    | Some p => Http200 {| items := Some (page_items all p);
                           total_count := Some (len_list all) |}
    | None => HttpError 422 None []
    end.

Definition sim_world (all : list item) : world :=
  {| api := sim_api all; served := 0; index_html := []; log := [] |}.

(** The number of pages the loop requests for a total of [T]. *)
Definition pages_needed (T : nat) : nat :=
  Nat.max 1 (Nat.min 10 ((T + 99) / 100)).

(** ceil(T/100), capped at 10. *)
Definition claimed_pages (T : nat) : nat := Nat.min 10 ((T + 99) / 100).

Definition get_page (page : nat) : event :=
  Get (search_url (Z.of_nat page) 100) accept_headers.

Definition fetched_line (all_prs : list pr) : text :=
  str "Fetched " ++ str_of_Z (len_list all_prs) ++ str " merged PRs across "
  ++ str_of_Z (len_list (nodup text_dec (map repo all_prs))) ++ str " repos".

Definition sample_item : item :=
  {| item_html_url := str "https://github.com/eclipse-vertx/vertx-sql/pull/12";
     item_title := str "Fix pool" |}.

Definition sample_record : pr :=
  {| repo := str "eclipse-vertx/vertx-sql";
     pr_number := 12;
     title := str "Fix pool";
     url := str "https://github.com/eclipse-vertx/vertx-sql/pull/12" |}.

(** Descending by key. *)
Definition descending {A} (key : A -> Z) (l : list A) : Prop :=
  StronglySorted (fun a b => key b <= key a) l.

(** The distinct names of a list, in the order of their first
    appearance. *)
Fixpoint first_seen (l : list text) : list text :=
  match l with
  | [] => []
  | x :: l' => x :: filter (fun y => negb (text_eqb y x)) (first_seen l')
  end.

(** The pull requests of one repository, in input order. *)
Definition repo_prs (prs : list pr) (repo_name : text) : list pr :=
  filter (fun p => text_eqb (repo p) repo_name) prs.

(** The repositories of the input, in the order of first appearance. *)
Definition repo_order (prs : list pr) : list text :=
  first_seen (map repo prs).

Section CategorizerSpec.

Variable cats : list category.
Variable other : category.

(** The name of the category a repository is assigned. *)
Definition category_name (repo_name : text) : text :=
  name (pick_category cats other repo_name).

(** The repositories of the input assigned to the category named [c], in
    the order of first appearance. *)
Definition repos_of_category (prs : list pr) (c : text) : list text :=
  filter (fun rn => text_eqb (category_name rn) c) (repo_order prs).

(** A repository with its pull requests, highest number first. *)
Definition sorted_entry (prs : list pr) (repo_name : text)
  : text * list pr :=
  (repo_name, sorted_desc pr_number (repo_prs prs repo_name)).

(** The section of a category: none when no repository is assigned to it,
    else its repositories, the one with most pull requests first. *)
Definition section_of (prs : list pr) (cat : category)
  : list (text * section) :=
  match repos_of_category prs (name cat) with
  | [] => []
  | rns =>
      [ (name cat,
         {| config := cat;
            repos := sorted_desc pr_count (map (sorted_entry prs) rns) |}) ]
  end.

(** The result as the specification describes it: one section per
    category with repositories, in rule order, the fallback last. *)
Definition categorize_spec (prs : list pr) : dict section :=
  flat_map (section_of prs) (cats ++ [other]).

End CategorizerSpec.

(** Every pull request of the result: all buckets of all sections. *)
Definition all_records (result : dict section) : list pr :=
  flat_map snd (flat_map (fun e => repos (snd e)) result).

(** The repository names of the result, section after section. *)
Definition all_buckets (result : dict section) : list text :=
  flat_map (fun e => keys (repos (snd e))) result.

(** [total_prs] as [main] computes it. *)
Definition total_prs (result : dict section) : Z :=
  sum_Z (flat_map (fun c => map (fun e => len_list (snd e)) (repos (snd c)))
           result).

(** Some pull request of the input belongs to the category named [c]. *)
Definition category_used (cats : list category) (other : category)
    (prs : list pr) (c : text) : bool :=
  existsb (fun p => text_eqb (category_name cats other (repo p)) c) prs.

Definition vertx_category : category := nth 1 CATEGORIES OTHER_CATEGORY.

Definition numbered (rn : text) (n : Z) : pr :=
  {| repo := rn; pr_number := n; title := str "t"; url := str "u" |}.

(** Seven pull requests of four repositories of the fallback category:
    b/y has three, d/w two, a/x and c/z one each, a/x appearing first. *)
Definition tied_prs : list pr :=
  [ numbered (str "a/x") 1; numbered (str "b/y") 10; numbered (str "c/z") 5;
    numbered (str "b/y") 3; numbered (str "d/w") 2; numbered (str "b/y") 7;
    numbered (str "d/w") 9 ].

(** Their section: most pull requests first, a/x before c/z, and in each
    repository the highest number first. *)
Definition tied_section : section :=
  {| config := OTHER_CATEGORY;
     repos :=
       [ (str "b/y", [ numbered (str "b/y") 10; numbered (str "b/y") 7;
                       numbered (str "b/y") 3 ]);
         (str "d/w", [ numbered (str "d/w") 9; numbered (str "d/w") 2 ]);
         (str "a/x", [ numbered (str "a/x") 1 ]);
         (str "c/z", [ numbered (str "c/z") 5 ]) ] |}.

(** A pull request whose title holds a single quote. *)
Definition quoted_record : pr :=
  {| repo := str "eclipse-vertx/vertx-sql";
     pr_number := 13;
     title := str "it's";
     url := str "https://github.com/eclipse-vertx/vertx-sql/pull/13" |}.

Definition sample_section : section :=
  {| config := vertx_category;
     repos := [(str "eclipse-vertx/vertx-sql", [sample_record])] |}.

(** What the fragment holds between its first and its last line. *)
Definition fragment_middle (categorized : dict section) : text :=
  join [nl]
    ([ str "      <div class=" ++ dquote ++ str "contributions" ++ dquote
       ++ str ">";
       str "        <h2>Open Source Contributions</h2>";
       [] ]
     ++ flat_map category_lines categorized
     ++ [ str "      </div>" ]).

Definition indent6 : text := str "      ".

(** The world after one run of the patcher. *)
Definition patched (path new : text) (w : world) : world :=
  snd (update_index_html path new w).

Definition sample_fragment : text :=
  generate_contributions_html (categorize_prs [sample_record]).

(** A record whose repository name contains the end marker, and the
    fragment rendered from it. *)
Definition odd_record : pr :=
  {| repo := END_MARKER ++ str "/x";
     pr_number := 1;
     title := str "t";
     url := str "https://github.com/o/x/pull/1" |}.

Definition odd_fragment : text :=
  generate_contributions_html (categorize_prs [odd_record]).

(** The summary [main] prints before it patches. *)
Definition categorized_line (categorized : dict section) : text :=
  str "Categorized "
  ++ str_of_Z (sum_Z (flat_map (fun c => map (fun e => len_list (snd e))
                                            (repos (snd c))) categorized))
  ++ str " PRs across "
  ++ str_of_Z (sum_Z (map (fun c => len_list (repos (snd c))) categorized))
  ++ str " repos into "
  ++ str_of_Z (len_list categorized) ++ str " sections".

(** The requests sent, in order, among the events. *)
Definition requests (evs : list event) : list request :=
  flat_map (fun e => match e with Get u _ => [u] | _ => [] end) evs.

(** A run that started in the world [w] and sent the requests [reqs] was
    served the item [it]: one of its requests, the [i]-th, was a search
    request, and the answer the API gave to it, after the requests served
    before, holds [it] among its items. *)
Definition served_item (w : world) (reqs : list request) (it : item)
  : Prop :=
  exists i page data its,
    nth_error reqs i = Some (search_url page per_page)
    /\ api w (served w + i)%nat (search_url page per_page) = Http200 data
    /\ items data = Some its /\ In it its.

(** The record [p] is built from an item the run was served and is not of
    an excluded repository. *)
Definition fetched_from (py_int : text -> option Z) (w : world)
    (reqs : list request) (p : pr) : Prop :=
  kept p = true
  /\ exists it, served_item w reqs it /\ item_record py_int it = Some p.

(** The text [int] is given after a rate-limited answer. *)
Definition retry_after_text (header : option text) : text :=
  match header with Some v => v | None => str "60" end.

(** The URL of a pull request page. *)
Definition pr_url (host owner repo_name number : text) : text :=
  str "https://" ++ host ++ str "/" ++ owner ++ str "/" ++ repo_name
  ++ str "/pull/" ++ number.

(** The exception an item raises from which no record can be built: an
    [IndexError] when its URL has fewer than seven segments, else the
    [ValueError] of [int]. *)
Definition bad_item_error (it : item) : exception :=
  if (length (split_on (chr "/") (item_html_url it)) <? 7)%nat
  then IndexError else ValueError.

(** The text [x] occurs in [s]. *)
Definition infix_of (x s : text) : Prop := exists a b, s = a ++ x ++ b.

(** What a repository's line shows of it: its name and its count label. *)
Definition repo_heading (repo_name : text) (prs : list pr) : text :=
  str "<span class=" ++ dquote ++ str "repo-name" ++ dquote ++ str ">"
  ++ repo_name ++ str "</span>"
  ++ str "<span class=" ++ dquote ++ str "repo-count" ++ dquote ++ str ">"
  ++ count_label (len_list prs) ++ str "</span>".

(** The contents written to index.html, in order, among the events. *)
Definition writes (l : list event) : list text :=
  flat_map (fun e => match e with Write c => [c] | _ => [] end) l.

(** A computation that leaves the API, index.html and the record of writes
    as they are. *)
Definition quiet {A} (m : M A) : Prop :=
  forall w,
    api (snd (m w)) = api w
    /\ index_html (snd (m w)) = index_html w
    /\ writes (log (snd (m w))) = writes (log w).

(** A computation that never ends with the exception [e]. *)
Definition never_raises {A} (e : exception) (m : M A) : Prop :=
  forall w, fst (m w) <> Raise e.

(** A computation that issues between [lo] and [hi] requests. *)
Definition requests_between {A} (lo hi : nat) (m : M A) : Prop :=
  forall w,
    (served w + lo <= served (snd (m w)) <= served w + hi)%nat.

(* ================================================================== *)
(** ** Facts about text search and slicing *)
(* ================================================================== *)

Lemma starts_with_app (sub rest : text) : starts_with sub (sub ++ rest) = true.
Proof.
  induction sub as [|a sub IH]; simpl; [reflexivity|].
  now rewrite N.eqb_refl, IH.
Qed.

Lemma starts_with_inv (sub s : text) :
  starts_with sub s = true -> exists rest, s = sub ++ rest.
Proof.
  revert s; induction sub as [|a sub IH]; intros s H.
  - now exists s.
  - destruct s as [|b s]; simpl in H; [discriminate|].
    apply andb_true_iff in H as [Hab H].
    apply N.eqb_eq in Hab; subst b.
    destruct (IH _ H) as [rest ->]. now exists rest.
Qed.

Lemma starts_with_length (sub s : text) :
  starts_with sub s = true -> (length sub <= length s)%nat.
Proof.
  intros H; destruct (starts_with_inv _ _ H) as [rest ->].
  rewrite length_app; lia.
Qed.

Lemma find_from_spec (sub s : text) (i : Z) :
  (find_from sub s i = -1 /\ forall n, ~ occurs_at sub s n)
  \/ (exists n, find_from sub s i = i + Z.of_nat n /\ first_at sub s n).
Proof.
  revert i; induction s as [|c s IH]; intros i; simpl.
  - destruct (starts_with sub []) eqn:E.
    + right; exists 0%nat. split; [lia|].
      split; [simpl; lia|]. split; [exact E|]. intros m Hm; lia.
    + left; split; auto. intros n. unfold occurs_at.
      now rewrite skipn_nil, E.
  - destruct (starts_with sub (c :: s)) eqn:E.
    + right; exists 0%nat. split; [lia|].
      split; [simpl; lia|]. split; [exact E|]. intros m Hm; lia.
    + destruct (IH (i + 1)) as [[Hf Hno]|[n [Hf [Hle [Hocc Hmin]]]]].
      * left; split; auto. intros [|n]; unfold occurs_at; simpl.
        -- now rewrite E.
        -- apply Hno.
      * right; exists (S n). split; [lia|].
        split; [simpl; lia|]. split; [exact Hocc|].
        intros [|m] Hm; unfold occurs_at; simpl.
        -- now rewrite E.
        -- apply Hmin; lia.
Qed.

Lemma first_at_unique (sub s : text) (n m : nat) :
  first_at sub s n -> first_at sub s m -> n = m.
Proof.
  intros (_ & Hn & Hn') (_ & Hm & Hm').
  destruct (Nat.lt_trichotomy n m) as [H|[H|H]]; auto.
  - now apply Hm' in H.
  - now apply Hn' in H.
Qed.

Lemma find_first_at (sub s : text) (n : nat) :
  first_at sub s n -> find sub s = Z.of_nat n.
Proof.
  intros H. unfold find.
  destruct (find_from_spec sub s 0) as [[_ Hno]|[m [Hf Hm]]].
  - destruct H as (_ & Hocc & _). now apply Hno in Hocc.
  - rewrite Hf, (first_at_unique _ _ _ _ H Hm). lia.
Qed.

Lemma find_found (sub s : text) :
  find sub s <> -1 ->
  0 <= find sub s /\ first_at sub s (Z.to_nat (find sub s)).
Proof.
  intros H. unfold find in *.
  destruct (find_from_spec sub s 0) as [[Hf _]|[m [Hf Hm]]]; [contradiction|].
  rewrite Hf. split; [lia|].
  now replace (Z.to_nat (0 + Z.of_nat m)) with m by lia.
Qed.

Lemma find_absent (sub s : text) :
  find sub s = -1 <-> forall n, ~ occurs_at sub s n.
Proof.
  unfold find. split.
  - intros H.
    destruct (find_from_spec sub s 0) as [[_ Hno]|[m [Hf _]]]; auto. lia.
  - intros Hno.
    destruct (find_from_spec sub s 0) as [[Hf _]|[m [_ (_ & Hocc & _)]]]; auto.
    now apply Hno in Hocc.
Qed.

Lemma occurs_at_length (sub s : text) (n : nat) :
  sub <> [] -> occurs_at sub s n -> (n + length sub <= length s)%nat.
Proof.
  intros Hne H. apply starts_with_length in H.
  rewrite length_skipn in H.
  destruct sub; [contradiction|]. simpl in *. lia.
Qed.

Lemma occurs_at_app (pre sub rest : text) :
  occurs_at sub (pre ++ sub ++ rest) (length pre).
Proof.
  unfold occurs_at. rewrite skipn_app, skipn_all, Nat.sub_diag; simpl.
  apply starts_with_app.
Qed.

Lemma occurs_found (sub s : text) (n : nat) :
  occurs_at sub s n -> find sub s <> -1.
Proof. intros Hocc H. exact (proj1 (find_absent sub s) H n Hocc). Qed.

Lemma infix_found (sub s : text) : infix_of sub s -> find sub s <> -1.
Proof.
  intros (a & b & ->). apply (occurs_found _ _ (length a)), occurs_at_app.
Qed.

Lemma find_infix (sub s : text) : find sub s <> -1 -> infix_of sub s.
Proof.
  intros H. destruct (find_found _ _ H) as (_ & _ & Hocc & _).
  unfold occurs_at in Hocc. destruct (starts_with_inv _ _ Hocc) as [rest E].
  exists (firstn (Z.to_nat (find sub s)) s), rest.
  rewrite <- E. symmetry. apply firstn_skipn.
Qed.

Lemma len_app (a b : text) : len (a ++ b) = len a + len b.
Proof. unfold len. rewrite length_app. lia. Qed.

Lemma len_nonneg (a : text) : 0 <= len a.
Proof. unfold len. lia. Qed.

Lemma slice_to_firstn (s : text) (hi : Z) :
  0 <= hi -> slice_to s hi = firstn (Z.to_nat hi) s.
Proof.
  intros H. unfold slice_to, slice, norm_index.
  pose proof (len_nonneg s) as Hl. unfold len in *.
  change (0 <? 0) with false. cbv iota.
  destruct (Z.ltb_spec hi 0); [lia|].
  rewrite (Z.min_l 0) by lia. simpl skipn.
  destruct (Z.le_ge_cases hi (Z.of_nat (length s))) as [Hle|Hge].
  - rewrite Z.min_l by lia. f_equal; lia.
  - rewrite Z.min_r by lia.
    rewrite !firstn_all2 by lia. reflexivity.
Qed.

Lemma slice_from_skipn (s : text) (lo : Z) :
  0 <= lo -> slice_from s lo = skipn (Z.to_nat lo) s.
Proof.
  intros H. unfold slice_from, slice, norm_index.
  pose proof (len_nonneg s) as Hl. unfold len in *.
  destruct (Z.ltb_spec lo 0); [lia|].
  destruct (Z.ltb_spec (Z.of_nat (length s)) 0); [lia|].
  rewrite (Z.min_l (Z.of_nat (length s))) by lia.
  destruct (Z.le_ge_cases lo (Z.of_nat (length s))) as [Hle|Hge].
  - rewrite (Z.min_l lo) by lia.
    apply firstn_all2. rewrite length_skipn. lia.
  - rewrite Z.min_r by lia.
    rewrite Z.sub_diag. simpl firstn.
    symmetry. apply skipn_all2. lia.
Qed.

Lemma rfind_acc_lower (sub s : text) (i last : Z) :
  rfind_acc sub s i last = last \/ i <= rfind_acc sub s i last.
Proof.
  revert i last; induction s as [|c s IH]; intros i last; simpl.
  - destruct (starts_with sub []); [right; lia | now left].
  - destruct (starts_with sub (c :: s)).
    + destruct (IH (i + 1) i) as [H|H]; rewrite ?H; right; lia.
    + destruct (IH (i + 1) last) as [H|H]; [now left | right; lia].
Qed.

Lemma starts_with_nl (s : text) :
  starts_with [nl] s = match s with
                       | c :: _ => N.eqb nl c
                       | [] => false
                       end.
Proof. destruct s; simpl; [reflexivity | apply andb_true_r]. Qed.

Lemma rfind_acc_nl_none (t : text) (i last : Z) :
  ~ In nl t -> rfind_acc [nl] t i last = last.
Proof.
  revert i; induction t as [|c t IH]; intros i H; [reflexivity|].
  cbn [rfind_acc]. rewrite starts_with_nl.
  destruct (N.eqb nl c) eqn:E.
  - apply N.eqb_eq in E. exfalso; apply H; now left.
  - apply IH. intros Hin; apply H; now right.
Qed.

Lemma rfind_acc_nl_last (p t : text) (i last : Z) :
  ~ In nl t -> rfind_acc [nl] (p ++ nl :: t) i last = i + len p.
Proof.
  revert i last; induction p as [|c p IH]; intros i last H.
  - cbn [app rfind_acc]. rewrite starts_with_nl, N.eqb_refl.
    rewrite rfind_acc_nl_none by assumption. unfold len; simpl; lia.
  - cbn [app rfind_acc]. rewrite IH by assumption.
    unfold len; simpl length. lia.
Qed.

Lemma find_range (sub s : text) : -1 <= find sub s <= len s.
Proof.
  unfold find, len.
  destruct (find_from_spec sub s 0) as [[Hf _]|[n [Hf (Hle & _)]]];
    rewrite Hf; lia.
Qed.

Lemma region_start_nonneg (content : text) :
  find START_MARKER content <> -1 -> 0 <= region_start content.
Proof.
  intros H. unfold region_start, rfind.
  pose proof (find_range START_MARKER content) as Hr.
  set (acc := rfind_acc _ _ _ _).
  destruct (rfind_acc_lower [nl]
              (slice content 0 (find START_MARKER content)) 0 (-1)) as [E|E];
    fold acc in E.
  - rewrite E. simpl. lia.
  - destruct (Z.eqb_spec acc (-1)); simpl; [lia|].
    unfold norm_index. change (0 <? 0) with false. cbv iota.
    pose proof (len_nonneg content). rewrite (Z.min_l 0) by lia.
    destruct (Z.eqb_spec (0 + acc) (-1)); simpl; lia.
Qed.

(** Universal newlines on the three line endings, alone and in a row. *)
Example universal_newlines_endings :
  universal_newlines
    (str "a" ++ [cr; nl] ++ str "b" ++ [cr] ++ str "c" ++ [nl] ++ str "d"
     ++ [cr; cr; nl] ++ str "e" ++ [cr])
  = str "a" ++ [nl] ++ str "b" ++ [nl] ++ str "c" ++ [nl] ++ str "d"
    ++ [nl; nl] ++ str "e" ++ [nl].
Proof. reflexivity. Qed.

(** Universal newlines: a text without carriage return is read as it is,
    and no carriage return is ever read. *)
Lemma universal_newlines_plain (t : text) :
  ~ In cr t -> universal_newlines_from false t = t.
Proof.
  induction t as [|c t IH]; intros H; [reflexivity|].
  cbn [universal_newlines_from].
  destruct (N.eqb_spec c cr) as [->|Hc]; [exfalso; apply H; now left|].
  rewrite andb_false_r. f_equal. apply IH. intros Hin. apply H. now right.
Qed.

Lemma universal_newlines_no_cr (b : bool) (t : text) :
  ~ In cr (universal_newlines_from b t).
Proof.
  revert b; induction t as [|c t IH]; intros b; [intros []|].
  cbn [universal_newlines_from].
  destruct (N.eqb_spec c cr) as [->|Hc].
  - intros [H|H]; [discriminate H | exact (IH _ H)].
  - destruct (N.eqb c nl && b); [apply IH|].
    intros [H|H]; [congruence | exact (IH _ H)].
Qed.

Lemma universal_newlines_app_plain (a x : text) :
  ~ In cr a ->
  universal_newlines_from false (a ++ x)
  = a ++ universal_newlines_from false x.
Proof.
  induction a as [|c a IH]; intros H; [reflexivity|].
  cbn [app universal_newlines_from].
  destruct (N.eqb_spec c cr) as [->|Hc]; [exfalso; apply H; now left|].
  rewrite andb_false_r. f_equal. apply IH. intros Hin. apply H. now right.
Qed.

(** A text without newline characters that is read at the head of a file
    stands at the head of the file. *)
Lemma universal_newlines_starts (m c t : text) :
  ~ In cr m -> ~ In nl m ->
  universal_newlines_from false t = m ++ c -> exists c', t = m ++ c'.
Proof.
  revert t; induction m as [|x m IH]; intros t Hcr Hnl H.
  - now exists t.
  - destruct t as [|y t]; [discriminate H|].
    cbn [universal_newlines_from app] in H.
    destruct (N.eqb_spec y cr) as [->|Hy].
    + injection H as Hx _. exfalso. apply Hnl. now left.
    + rewrite andb_false_r in H. injection H as -> H.
      apply IH in H as [c' ->].
      * now exists c'.
      * intros Hin. apply Hcr. now right.
      * intros Hin. apply Hnl. now right.
Qed.

(** A text without newline characters that occurs in what is read occurs
    in the file. *)
Lemma universal_newlines_infix (b : bool) (m t : text) :
  ~ In cr m -> ~ In nl m ->
  infix_of m (universal_newlines_from b t) -> infix_of m t.
Proof.
  intros Hcr Hnl. revert b; induction t as [|y t IH]; intros b (a & c & H).
  - cbn in H. destruct a; [|discriminate H].
    destruct m; [|discriminate H]. now exists [], [].
  - cbn [universal_newlines_from] in H.
    destruct (N.eqb_spec y cr) as [->|Hy].
    + destruct a as [|z a].
      * destruct m as [|x m]; [now exists [], (cr :: t)|].
        injection H as Hx _. exfalso. apply Hnl. now left.
      * injection H as _ H.
        destruct (IH true) as (a' & c' & ->); [now exists a, c|].
        now exists (cr :: a'), c'.
    + destruct (N.eqb y nl && b).
      * destruct (IH false) as (a' & c' & ->); [now exists a, c|].
        now exists (y :: a'), c'.
      * destruct a as [|z a].
        -- destruct m as [|x m]; [now exists [], (y :: t)|].
           injection H as -> H.
           apply universal_newlines_starts in H as [c' ->].
           ++ now exists [], c'.
           ++ intros Hin. apply Hcr. now right.
           ++ intros Hin. apply Hnl. now right.
        -- injection H as _ H.
           destruct (IH false) as (a' & c' & ->); [now exists a, c|].
           now exists (y :: a'), c'.
Qed.

Lemma find_universal_newlines (m t : text) :
  ~ In cr m -> ~ In nl m ->
  find m t = -1 -> find m (universal_newlines t) = -1.
Proof.
  intros Hcr Hnl H.
  destruct (Z.eq_dec (find m (universal_newlines t)) (-1)) as [E|E];
    [exact E|].
  apply find_infix, (universal_newlines_infix false m t Hcr Hnl) in E.
  now apply infix_found in E.
Qed.

(** Reading goes around a text without newline characters. *)
Lemma universal_newlines_around (b : bool) (x m y : text) :
  m <> [] -> ~ In cr m -> ~ In nl m ->
  universal_newlines_from b (x ++ m ++ y)
  = universal_newlines_from b x ++ m ++ universal_newlines_from false y.
Proof.
  intros Hne Hcr Hnl. destruct m as [|c m]; [contradiction|].
  assert (N.eqb c cr = false) as Ec
    by (apply N.eqb_neq; intros ->; apply Hcr; now left).
  assert (N.eqb c nl = false) as En
    by (apply N.eqb_neq; intros ->; apply Hnl; now left).
  revert b; induction x as [|z x IH]; intros b.
  - cbn [app universal_newlines_from]. rewrite Ec, En. cbn [andb]. f_equal.
    apply universal_newlines_app_plain. intros Hin. apply Hcr. now right.
  - cbn [app universal_newlines_from].
    destruct (N.eqb z cr); [now rewrite IH|].
    destruct (N.eqb z nl && b); now rewrite IH.
Qed.

Lemma file_text_plain (w : world) :
  ~ In cr (index_html w) -> file_text w = index_html w.
Proof. apply universal_newlines_plain. Qed.

(** With both markers found, [update_index_html] writes the text as read
    with the region replaced. *)
Lemma update_index_html_run (path new : text) (w : world) :
  find START_MARKER (file_text w) <> -1 ->
  find END_MARKER (file_text w) <> -1 ->
  update_index_html path new w
  = write_and_report path
      (firstn (Z.to_nat (region_start (file_text w))) (file_text w) ++ new
       ++ skipn (Z.to_nat (region_end (file_text w))) (file_text w)) w.
Proof.
  intros Hs He.
  unfold update_index_html, write_and_report, bind, read_index.
  fold (file_text w).
  apply Z.eqb_neq in Hs as Hs', He as He'. rewrite Hs', He'.
  simpl orb. cbv iota.
  fold (region_start (file_text w)). fold (region_end (file_text w)).
  rewrite slice_to_firstn by now apply region_start_nonneg.
  rewrite slice_from_skipn.
  2:{ unfold region_end. pose proof (find_range END_MARKER (file_text w)).
      pose proof (len_nonneg END_MARKER). lia. }
  reflexivity.
Qed.

Lemma write_and_report_ok (path content : text) (w : world) :
  utf8_encodable content = true ->
  write_and_report path content w
  = (Ok tt, {| api := api w; served := served w; index_html := content;
               log := (log w ++ [Write content])
                      ++ [Print (str "Updated " ++ path)] |}).
Proof.
  intros H. unfold write_and_report, bind, write_index. now rewrite H.
Qed.

Lemma write_and_report_fails (path content : text) (w : world) :
  utf8_encodable content = false ->
  write_and_report path content w
  = (Raise UnicodeEncodeError,
     {| api := api w; served := served w; index_html := [];
        log := log w ++ [Truncate] |}).
Proof.
  intros H. unfold write_and_report, bind, write_index. now rewrite H.
Qed.

(** The run of [update_index_html] when a marker is missing. *)
Lemma update_index_html_missing (path new : text) (w : world) :
  find START_MARKER (file_text w) = -1 \/
  find END_MARKER (file_text w) = -1 ->
  update_index_html path new w =
    (Exit 1,
     {| api := api w; served := served w; index_html := index_html w;
        log := log w ++ [Print (str
          "Error: Could not find contribution markers in index.html")] |}).
Proof.
  intros H. unfold update_index_html, bind, read_index.
  fold (file_text w).
  assert ((find START_MARKER (file_text w) =? -1)
          || (find END_MARKER (file_text w) =? -1) = true) as ->.
  { apply orb_true_iff. destruct H as [H|H]; [left|right];
      now apply Z.eqb_eq. }
  reflexivity.
Qed.

(** Occurrences, character by character. *)
Lemma starts_with_nth (sub s : text) :
  starts_with sub s = true <->
  forall k, (k < length sub)%nat -> nth_error s k = nth_error sub k.
Proof.
  revert s; induction sub as [|a sub IH]; intros s; simpl.
  - split; [intros _ k Hk; lia | reflexivity].
  - destruct s as [|b s].
    + split; [discriminate|]. intros H. specialize (H 0%nat). simpl in H.
      discriminate H. lia.
    + rewrite andb_true_iff, N.eqb_eq, IH. split.
      * intros [-> H] [|k] Hk; simpl; [reflexivity|]. apply H; lia.
      * intros H. split.
        -- specialize (H 0%nat). simpl in H.
           assert (Some b = Some a) as E by (apply H; lia). now inversion E.
        -- intros k Hk. apply (H (S k)). lia.
Qed.

Lemma occurs_at_nth (sub s : text) (n : nat) :
  occurs_at sub s n <->
  forall k, (k < length sub)%nat -> nth_error s (n + k) = nth_error sub k.
Proof.
  unfold occurs_at. rewrite starts_with_nth.
  split; intros H k Hk; specialize (H k Hk);
    now rewrite nth_error_skipn in *.
Qed.

(** An occurrence that ends inside the left part of a concatenation is an
    occurrence in the left part. *)
Lemma occurs_at_app_l (sub a b : text) (n : nat) :
  (n + length sub <= length a)%nat ->
  occurs_at sub (a ++ b) n <-> occurs_at sub a n.
Proof.
  intros Hn. rewrite !occurs_at_nth.
  split; intros H k Hk; specialize (H k Hk);
    rewrite nth_error_app1 in * by lia; assumption.
Qed.

(** An occurrence that starts in the right part is one of the right part. *)
Lemma occurs_at_app_r (sub a b : text) (n : nat) :
  occurs_at sub (a ++ b) (length a + n) <-> occurs_at sub b n.
Proof.
  rewrite !occurs_at_nth.
  split; intros H k Hk; specialize (H k Hk).
  - rewrite nth_error_app2 in H by lia.
    now replace (length a + n + k - length a)%nat with (n + k)%nat in H by lia.
  - rewrite nth_error_app2 by lia.
    now replace (length a + n + k - length a)%nat with (n + k)%nat by lia.
Qed.

(** A text without a given character cannot lie across a position that
    holds it. *)
Lemma occurs_at_avoids (sub s : text) (n i : nat) (c : char) :
  ~ In c sub -> occurs_at sub s n -> nth_error s i = Some c ->
  (i < n \/ n + length sub <= i)%nat.
Proof.
  intros Hc Hocc Hi.
  destruct (Nat.lt_ge_cases i n) as [H|H]; [now left|].
  destruct (Nat.lt_ge_cases i (n + length sub)) as [H'|H']; [|now right].
  exfalso. apply Hc.
  rewrite occurs_at_nth in Hocc.
  specialize (Hocc (i - n)%nat).
  replace (n + (i - n))%nat with i in Hocc by lia.
  rewrite Hi in Hocc. symmetry in Hocc.
  apply nth_error_In with (n := (i - n)%nat). apply Hocc. lia.
Qed.

Lemma nth_error_last_nl (p rest : text) :
  nth_error ((p ++ [nl]) ++ rest) (length p) = Some nl.
Proof.
  rewrite <- app_assoc. rewrite nth_error_app2 by lia.
  now rewrite Nat.sub_diag.
Qed.

(** Decides that a character does not occur in a literal text. *)
Ltac not_in_literal :=
  let H := fresh in
  intros H; cbv in H;
  repeat (destruct H as [H|H]; [discriminate H|]); exact H.

Lemma START_MARKER_no_nl : ~ In nl START_MARKER.
Proof. not_in_literal. Qed.

Lemma END_MARKER_no_nl : ~ In nl END_MARKER.
Proof. not_in_literal. Qed.

Lemma app_same_length {A} (a b c d : list A) :
  a ++ b = c ++ d -> length a = length c -> a = c /\ b = d.
Proof.
  revert c; induction a as [|x a IH]; intros [|y c] H Hl;
    try discriminate; cbn in *.
  - now split.
  - injection H as -> H. destruct (IH c H) as [-> ->]; [lia|]. now split.
Qed.

(** Searching past a line that does not hold the text searched for. *)
Lemma find_past_line (sub a b : text) :
  ~ In nl sub -> find sub a = -1 ->
  find sub (a ++ nl :: b)
  = if find sub b =? -1 then -1 else len a + 1 + find sub b.
Proof.
  intros Hnl Ha.
  assert (forall n, occurs_at sub (a ++ nl :: b) n ->
                    exists j, n = (length a + 1 + j)%nat /\ occurs_at sub b j)
    as Hright.
  { intros n Hocc.
    assert (nth_error (a ++ nl :: b) (length a) = Some nl) as Hnth.
    { rewrite nth_error_app2 by lia. now rewrite Nat.sub_diag. }
    destruct (occurs_at_avoids _ _ n (length a) nl Hnl Hocc Hnth) as [Hlt|Hle].
    - exists (n - length a - 1)%nat. split; [lia|].
      assert (n = (length (a ++ [nl]) + (n - length a - 1))%nat) as En
        by (rewrite length_app; cbn [length]; lia).
      rewrite En in Hocc.
      replace (a ++ nl :: b) with ((a ++ [nl]) ++ b) in Hocc
        by (now rewrite <- app_assoc).
      now apply occurs_at_app_r in Hocc.
    - exfalso. apply occurs_at_app_l in Hocc; [|lia].
      exact (proj1 (find_absent sub a) Ha n Hocc). }
  destruct (Z.eqb_spec (find sub b) (-1)) as [Hb|Hb].
  - apply find_absent. intros n Hocc.
    destruct (Hright n Hocc) as (j & _ & Hj).
    exact (proj1 (find_absent sub b) Hb j Hj).
  - destruct (find_found _ _ Hb) as [H0 (Hle & Hocc & Hmin)].
    rewrite (find_first_at sub (a ++ nl :: b)
               (length a + 1 + Z.to_nat (find sub b))).
    + unfold len. lia.
    + split; [rewrite length_app; cbn [length]; lia|]. split.
      * replace (a ++ nl :: b) with ((a ++ [nl]) ++ b)
          by (now rewrite <- app_assoc).
        replace (length a + 1)%nat with (length (a ++ [nl]))
          by (rewrite length_app; reflexivity).
        now apply occurs_at_app_r.
      * intros m Hm Hoccm. destruct (Hright m Hoccm) as (j & -> & Hj).
        apply (Hmin j); [lia | assumption].
Qed.

(** The computed start of the region is the start of the marker's line,
    when the marker's line is not an indented first line. *)
Lemma region_start_line (content pre indent rest : text) :
  content = pre ++ indent ++ rest ->
  find START_MARKER content = len (pre ++ indent) ->
  ~ In nl indent ->
  (pre = [] /\ indent = []) \/ (exists p, pre = p ++ [nl]) ->
  region_start content = len pre.
Proof.
  intros Hc Hf Hnl Hpre. unfold region_start, rfind. rewrite Hf.
  assert (slice content 0 (len (pre ++ indent)) = pre ++ indent) as ->.
  { fold (slice_to content (len (pre ++ indent))).
    rewrite slice_to_firstn by apply len_nonneg.
    unfold len. rewrite Nat2Z.id, Hc, app_assoc.
    rewrite firstn_app, Nat.sub_diag, firstn_all. simpl.
    now rewrite app_nil_r. }
  destruct Hpre as [[-> ->]|[p ->]].
  - reflexivity.
  - rewrite <- app_assoc. cbn [app].
    rewrite rfind_acc_nl_last by assumption.
    pose proof (len_nonneg p) as Hp.
    destruct (Z.eqb_spec (0 + len p) (-1)); [lia|].
    unfold norm_index. change (0 <? 0) with false. cbv iota.
    pose proof (len_nonneg content).
    rewrite (Z.min_l 0) by assumption.
    assert ((0 + (0 + len p) =? -1) = false) as -> by (apply Z.eqb_neq; lia).
    cbn [negb]. rewrite len_app. unfold len at 3. simpl. lia.
Qed.

Lemma END_MARKER_nonempty : END_MARKER <> [].
Proof. discriminate. Qed.

Lemma region_end_bound (content : text) :
  find END_MARKER content <> -1 ->
  0 <= region_end content <= len content.
Proof.
  intros H. apply find_found in H as [H0 (Hle & Hocc & _)].
  apply occurs_at_length in Hocc; [|apply END_MARKER_nonempty].
  unfold region_end, len in *. lia.
Qed.

(* ================================================================== *)
(** ** The file patcher: replaced region and error path *)
(* ================================================================== *)

(** The patcher splices the fragment in place of the region between the
    start of the start marker's line and the end of the first end marker,
    in the text as read. *)
Lemma patch_splice (path new : text) (w : world) (pre indent rest : text) :
  file_text w = pre ++ indent ++ rest ->
  find START_MARKER (file_text w) = len (pre ++ indent) ->
  ~ In nl indent ->
  (pre = [] /\ indent = []) \/ (exists p, pre = p ++ [nl]) ->
  find END_MARKER (file_text w) <> -1 ->
  len pre <= find END_MARKER (file_text w) + len END_MARKER ->
  exists region post,
    indent ++ rest = region ++ post /\
    len (pre ++ region)
      = find END_MARKER (file_text w) + len END_MARKER /\
    update_index_html path new w
    = write_and_report path (pre ++ new ++ post) w.
Proof.
  intros Hc Hf Hnl Hpre He Hle.
  assert (find START_MARKER (file_text w) <> -1) as Hs.
  { rewrite Hf. pose proof (len_nonneg (pre ++ indent)). lia. }
  pose proof (region_start_line _ _ _ _ Hc Hf Hnl Hpre) as Hrs.
  pose proof (region_end_bound _ He) as Hre.
  rewrite (update_index_html_run path new w Hs He).
  rewrite Hrs. unfold region_end in *.
  set (e := find END_MARKER (file_text w) + len END_MARKER) in *.
  exists (firstn (Z.to_nat e - length pre) (indent ++ rest)),
         (skipn (Z.to_nat e - length pre) (indent ++ rest)).
  split; [now rewrite firstn_skipn|].
  split.
  - rewrite len_app. unfold len at 2. rewrite length_firstn.
    rewrite Hc in Hre. rewrite len_app in Hre. unfold len in *. lia.
  - rewrite Hc. unfold len. rewrite Nat2Z.id.
    rewrite firstn_app, Nat.sub_diag, firstn_all. simpl firstn.
    rewrite app_nil_r.
    rewrite skipn_app. rewrite skipn_all2 by (unfold len in Hle; lia).
    reflexivity.
Qed.

Lemma find_START_indented (tail : text) :
  find START_MARKER (str "  " ++ START_MARKER ++ tail) = 2.
Proof. reflexivity. Qed.

Lemma find_END_at_head (tail : text) :
  find END_MARKER (END_MARKER ++ tail) = 0.
Proof. reflexivity. Qed.

(** Where the markers of [marked_doc] are found, when neither occurs in
    the prefix and the end marker does not occur in the old content. *)
Lemma marked_doc_markers (PREFIX OLD SUFFIX : text) :
  find START_MARKER PREFIX = -1 ->
  find END_MARKER PREFIX = -1 ->
  find END_MARKER OLD = -1 ->
  find START_MARKER (marked_doc PREFIX OLD SUFFIX) = len PREFIX + 3
  /\ find END_MARKER (marked_doc PREFIX OLD SUFFIX)
     = len PREFIX + len OLD + 33.
Proof.
  intros Hs He Hold. unfold marked_doc. cbn [app]. split.
  - rewrite (find_past_line _ _ _ START_MARKER_no_nl Hs).
    change (str "  " ++ START_MARKER ++ nl :: OLD ++ nl :: END_MARKER
              ++ nl :: SUFFIX)
      with (str "  " ++ START_MARKER
              ++ (nl :: OLD ++ nl :: END_MARKER ++ nl :: SUFFIX)).
    rewrite find_START_indented. cbn. lia.
  - rewrite (find_past_line _ _ _ END_MARKER_no_nl He).
    change (str "  " ++ START_MARKER ++ nl :: OLD ++ nl :: END_MARKER
              ++ nl :: SUFFIX)
      with ((str "  " ++ START_MARKER)
              ++ nl :: OLD ++ nl :: END_MARKER ++ nl :: SUFFIX).
    rewrite (find_past_line END_MARKER (str "  " ++ START_MARKER) _
               END_MARKER_no_nl eq_refl).
    rewrite (find_past_line _ _ _ END_MARKER_no_nl Hold).
    rewrite find_END_at_head. cbn [Z.eqb].
    pose proof (len_nonneg OLD) as H1.
    destruct (Z.eqb_spec (len OLD + 1 + 0) (-1)); [lia|].
    change (len (str "  " ++ START_MARKER)) with 30.
    destruct (Z.eqb_spec (30 + 1 + (len OLD + 1 + 0)) (-1)); lia.
Qed.

(** The patch example, for any prefix, old content, suffix and fragment. *)
Lemma patch_marked_doc (path PREFIX OLD SUFFIX NEW : text) (w : world) :
  find START_MARKER PREFIX = -1 ->
  find END_MARKER PREFIX = -1 ->
  find END_MARKER OLD = -1 ->
  file_text w = marked_doc PREFIX OLD SUFFIX ->
  update_index_html path NEW w
  = write_and_report path (PREFIX ++ [nl] ++ NEW ++ [nl] ++ SUFFIX) w.
Proof.
  intros Hs He Hold Hc.
  destruct (marked_doc_markers PREFIX OLD SUFFIX Hs He Hold) as [Hfs Hfe].
  rewrite <- Hc in Hfs, Hfe.
  destruct (patch_splice path NEW w (PREFIX ++ [nl]) (str "  ")
              (START_MARKER ++ [nl] ++ OLD ++ [nl] ++ END_MARKER
                 ++ [nl] ++ SUFFIX))
    as (region & post & Hsplit & Hlen & Hout).
  - rewrite Hc. unfold marked_doc. now rewrite <- !app_assoc.
  - rewrite Hfs, !len_app. change (len [nl]) with 1.
    change (len (str "  ")) with 2. lia.
  - not_in_literal.
  - right. now exists PREFIX.
  - rewrite Hfe. pose proof (len_nonneg PREFIX). pose proof (len_nonneg OLD).
    lia.
  - rewrite Hfe, len_app. change (len [nl]) with 1.
    change (len END_MARKER) with 26. pose proof (len_nonneg OLD). lia.
  - rewrite Hout, <- app_assoc. do 3 f_equal.
    rewrite Hfe, !len_app in Hlen.
    change (len [nl]) with 1 in Hlen. change (len END_MARKER) with 26 in Hlen.
    assert (str "  " ++ START_MARKER ++ [nl] ++ OLD ++ [nl] ++ END_MARKER
              ++ [nl] ++ SUFFIX
            = (str "  " ++ START_MARKER ++ [nl] ++ OLD ++ [nl] ++ END_MARKER)
                ++ [nl] ++ SUFFIX) as E
      by (now rewrite <- !app_assoc).
    rewrite E in Hsplit. symmetry in Hsplit.
    apply app_same_length in Hsplit;
      [destruct Hsplit as [_ ->]; reflexivity|].
    rewrite !length_app. change (length END_MARKER) with 26%nat.
    change (length START_MARKER) with 28%nat. cbn [length str map
      String.list_ascii_of_string]. unfold len in Hlen. lia.
Qed.

(** C1 (as amended).  Take index.html as it is read, in text mode: a
    carriage return, with the line feed after it if there is one, is read
    as a line feed, and a file without carriage return is read as it is.
    Write what is read as [pre ++ indent ++ rest], where [pre] is everything
    before the line of the first start marker (empty, or ending in a
    newline), [indent] is the newline-free indentation of that line (empty
    when that line is the first), and [rest] begins with the first start
    marker.  If the end marker occurs and its first occurrence does not end
    before [pre] does, then [indent ++ rest = region ++ post] where [region]
    ends exactly where the first end marker ends, and the patcher writes
    [pre ++ new ++ post]: when UTF-8 can encode that text, the patcher
    returns normally and index.html holds it; when it cannot, the file is
    left empty and a [UnicodeEncodeError] escapes.  In particular a document
    read as PREFIX, a newline, the start marker indented by two spaces, a
    newline, OLD, a newline, the end marker, a newline and SUFFIX, with no
    marker in PREFIX and no end marker in OLD, becomes PREFIX, newline, NEW,
    newline, SUFFIX when patched with a NEW that can be encoded with it. *)
Theorem patch_replaces_marked_region :
  (forall w : world, ~ In cr (index_html w) -> file_text w = index_html w)
  /\
  (forall (path new : text) (w : world) (pre indent rest : text),
      file_text w = pre ++ indent ++ rest ->
      find START_MARKER (file_text w) = len (pre ++ indent) ->
      ~ In nl indent ->
      (pre = [] /\ indent = []) \/ (exists p, pre = p ++ [nl]) ->
      find END_MARKER (file_text w) <> -1 ->
      len pre <= find END_MARKER (file_text w) + len END_MARKER ->
      exists region post,
        indent ++ rest = region ++ post /\
        len (pre ++ region)
          = find END_MARKER (file_text w) + len END_MARKER /\
        (utf8_encodable (pre ++ new ++ post) = true ->
         fst (update_index_html path new w) = Ok tt /\
         index_html (snd (update_index_html path new w))
           = pre ++ new ++ post) /\
        (utf8_encodable (pre ++ new ++ post) = false ->
         fst (update_index_html path new w) = Raise UnicodeEncodeError /\
         index_html (snd (update_index_html path new w)) = []))
  /\
  (forall (path PREFIX OLD SUFFIX NEW : text) (w : world),
      find START_MARKER PREFIX = -1 ->
      find END_MARKER PREFIX = -1 ->
      find END_MARKER OLD = -1 ->
      file_text w = marked_doc PREFIX OLD SUFFIX ->
      utf8_encodable (PREFIX ++ [nl] ++ NEW ++ [nl] ++ SUFFIX) = true ->
      fst (update_index_html path NEW w) = Ok tt
      /\ index_html (snd (update_index_html path NEW w))
         = PREFIX ++ [nl] ++ NEW ++ [nl] ++ SUFFIX).
Proof.
  split; [exact file_text_plain|]. split.
  - intros path new w pre indent rest Hc Hf Hnl Hpre He Hle.
    destruct (patch_splice path new w pre indent rest Hc Hf Hnl Hpre He Hle)
      as (region & post & Hsplit & Hlen & Hrun).
    exists region, post. repeat split; try assumption.
    + rewrite Hrun, write_and_report_ok by assumption. reflexivity.
    + rewrite Hrun, write_and_report_ok by assumption. reflexivity.
    + rewrite Hrun, write_and_report_fails by assumption. reflexivity.
    + rewrite Hrun, write_and_report_fails by assumption. reflexivity.
  - intros path PREFIX OLD SUFFIX NEW w Hs He Hold Hc Henc.
    rewrite (patch_marked_doc path PREFIX OLD SUFFIX NEW w Hs He Hold Hc).
    rewrite write_and_report_ok by assumption. split; reflexivity.
Qed.

Lemma patch_replaces_marked_region_witness :
  fst (update_index_html (str "index.html") (str "NEW")
         (file_world example_doc)) = Ok tt
  /\ index_html (snd (update_index_html (str "index.html") (str "NEW")
                        (file_world example_doc)))
     = str "PREFIX" ++ [nl] ++ str "NEW" ++ [nl] ++ str "SUFFIX".
Proof.
  apply (proj2 (proj2 patch_replaces_marked_region)
           (str "index.html") (str "PREFIX") (str "OLD") (str "SUFFIX")
           (str "NEW") (file_world example_doc)).
  - vm_compute; reflexivity.
  - vm_compute; reflexivity.
  - vm_compute; reflexivity.
  - vm_compute; reflexivity.
  - vm_compute; reflexivity.
Defined.

(** Against C1 as stated: with the end marker before the start marker,
    both markers are found, yet the file written is not the file read with
    one region replaced by the fragment: no split of the input into
    [pre ++ region ++ post] gives the output [pre ++ new ++ post]. *)
Lemma patch_swapped_markers_counterexample :
  find START_MARKER (index_html (file_world swapped_doc)) <> -1 /\
  find END_MARKER (index_html (file_world swapped_doc)) <> -1 /\
  index_html (snd (update_index_html (str "index.html") (str "NEW")
                     (file_world swapped_doc)))
    = END_MARKER ++ [nl] ++ str "NEW" ++ [nl] ++ START_MARKER /\
  ~ (exists pre region post,
        index_html (file_world swapped_doc) = pre ++ region ++ post /\
        index_html (snd (update_index_html (str "index.html") (str "NEW")
                           (file_world swapped_doc)))
          = pre ++ str "NEW" ++ post).
Proof.
  split; [vm_compute; discriminate|].
  split; [vm_compute; discriminate|].
  split; [vm_compute; reflexivity|].
  intros (pre & region & post & H1 & H2).
  apply (f_equal (@length char)) in H1, H2.
  rewrite !length_app in H1, H2.
  assert (length (index_html (file_world swapped_doc)) = 55%nat) as E1
    by (vm_compute; reflexivity).
  assert (length (index_html
                    (snd (update_index_html (str "index.html") (str "NEW")
                            (file_world swapped_doc)))) = 59%nat) as E2
    by (vm_compute; reflexivity).
  assert (length (str "NEW") = 3%nat) as E3 by reflexivity.
  lia.
Qed.

(** Against C1 as stated, too: the carriage returns outside the region
    are not kept, since the file is read with universal newlines. *)
Example patch_rewrites_carriage_returns :
  find START_MARKER crlf_doc <> -1 /\
  find END_MARKER crlf_doc <> -1 /\
  update_index_html (str "index.html") (str "NEW") (file_world crlf_doc)
  = (Ok tt,
     {| api := api (file_world crlf_doc); served := 0;
        index_html := str "PREFIX" ++ [nl] ++ str "NEW" ++ [nl]
                      ++ str "SUFFIX" ++ [nl];
        log := [ Write (str "PREFIX" ++ [nl] ++ str "NEW" ++ [nl]
                        ++ str "SUFFIX" ++ [nl]);
                 Print (str "Updated index.html") ] |}).
Proof.
  split; [vm_compute; discriminate|].
  split; [vm_compute; discriminate|]. reflexivity.
Qed.

(** And a fragment UTF-8 cannot encode empties the file: it is opened for
    writing, and the encoder fails before anything is written. *)
Example patch_unencodable_fragment_empties_file :
  update_index_html (str "index.html") [55296%N] (file_world example_doc)
  = (Raise UnicodeEncodeError,
     {| api := api (file_world example_doc); served := 0;
        index_html := []; log := [Truncate] |}).
Proof. reflexivity. Qed.

(** On an indented first line the indentation stays in front of the
    fragment: the guard on the result of [rfind] skips the line-start
    adjustment exactly when the marker's line is the first. *)
Example patch_first_line_keeps_indentation :
  index_html (snd (update_index_html (str "index.html") (str "NEW")
                     (file_world first_line_doc)))
  = str "  " ++ str "NEW".
Proof. vm_compute. reflexivity. Qed.

(** C7.  When the start marker or the end marker does not occur in
    index.html, the patcher exits with status 1 after printing one
    diagnostic line; index.html keeps its content and nothing is written:
    the only event logged is the diagnostic. *)
Theorem patch_missing_marker_is_fatal :
  forall (path new : text) (w : world),
    find START_MARKER (index_html w) = -1 \/
    find END_MARKER (index_html w) = -1 ->
    fst (update_index_html path new w) = Exit 1 /\
    index_html (snd (update_index_html path new w)) = index_html w /\
    log (snd (update_index_html path new w))
      = log w ++ [Print (str
          "Error: Could not find contribution markers in index.html")].
Proof.
  intros path new w H.
  rewrite (update_index_html_missing path new w).
  - cbn. repeat split.
  - destruct H as [H|H]; [left|right];
      apply find_universal_newlines; try assumption; not_in_literal.
Qed.

Lemma patch_missing_marker_is_fatal_witness :
  fst (update_index_html (str "index.html") (str "NEW")
         (file_world (str "<html></html>"))) = Exit 1 /\
  index_html (snd (update_index_html (str "index.html") (str "NEW")
                     (file_world (str "<html></html>"))))
    = str "<html></html>" /\
  log (snd (update_index_html (str "index.html") (str "NEW")
              (file_world (str "<html></html>"))))
    = [] ++ [Print (str
        "Error: Could not find contribution markers in index.html")].
Proof.
  apply (patch_missing_marker_is_fatal (str "index.html") (str "NEW")
           (file_world (str "<html></html>"))).
  left. vm_compute. reflexivity.
Defined.

(* ================================================================== *)
(** ** HTML escaping *)
(* ================================================================== *)

Lemma replace_char (a : char) (new s : text) :
  replace [a] new s = flat_map (fun c => if N.eqb a c then new else [c]) s.
Proof.
  unfold replace. induction s as [|c s IH]; [reflexivity|].
  cbn [replace_aux flat_map starts_with]. rewrite andb_true_r.
  destruct (N.eqb a c).
  - cbn [length Nat.pred]. now rewrite IH.
  - now rewrite IH.
Qed.

Lemma flat_map_flat_map {A B C} (f : A -> list B) (g : B -> list C)
    (l : list A) :
  flat_map g (flat_map f l) = flat_map (fun x => flat_map g (f x)) l.
Proof.
  induction l as [|x l IH]; [reflexivity|].
  simpl. now rewrite flat_map_app, IH.
Qed.

Lemma html_escape_char (c : char) : html_escape [c] = escape_char c.
Proof.
  unfold html_escape, dquote.
  change (str "&") with [chr "&"]. change (str "<") with [chr "<"].
  change (str ">") with [chr ">"].
  rewrite !replace_char. unfold escape_char.
  destruct (N.eqb_spec c (chr "&")) as [->|H1]; [reflexivity|].
  destruct (N.eqb_spec c (chr "<")) as [->|H2]; [reflexivity|].
  destruct (N.eqb_spec c (chr ">")) as [->|H3]; [reflexivity|].
  destruct (N.eqb_spec c 34%N) as [->|H4]; [reflexivity|].
  cbn [flat_map app].
  assert (N.eqb (chr "&") c = false) as -> by (apply N.eqb_neq; congruence).
  cbn [flat_map app].
  assert (N.eqb (chr "<") c = false) as -> by (apply N.eqb_neq; congruence).
  cbn [flat_map app].
  assert (N.eqb (chr ">") c = false) as -> by (apply N.eqb_neq; congruence).
  cbn [flat_map app].
  assert (N.eqb 34%N c = false) as ->
    by (apply N.eqb_neq; congruence).
  reflexivity.
Qed.

Lemma html_escape_app (a b : text) :
  html_escape (a ++ b) = html_escape a ++ html_escape b.
Proof.
  unfold html_escape, dquote.
  change (str "&") with [chr "&"]. change (str "<") with [chr "<"].
  change (str ">") with [chr ">"].
  rewrite !replace_char. now rewrite !flat_map_app.
Qed.

Lemma html_escape_flat_map (t : text) :
  html_escape t = flat_map escape_char t.
Proof.
  induction t as [|c t IH]; [reflexivity|].
  change (c :: t) with ([c] ++ t).
  rewrite html_escape_app, html_escape_char, IH. reflexivity.
Qed.

(** C5.  Escaping is a single pass over the title: each of the characters
    ampersand, less-than, greater-than and double quote is replaced by its
    entity and nothing produced by one substitution is rewritten by a later
    one.  The title [A & B <C> "D"] becomes
    [A &amp; B &lt;C&gt; &quot;D&quot;].  The order matters: substituting
    the ampersand after the less-than sign would rewrite the entity of the
    latter. *)
Theorem html_escape_single_pass :
  (forall t : text, html_escape t = flat_map escape_char t)
  /\ escape_char (chr "&") = str "&amp;"
  /\ escape_char (chr "<") = str "&lt;"
  /\ escape_char (chr ">") = str "&gt;"
  /\ escape_char 34%N = str "&quot;"
  /\ html_escape (str "A & B <C> " ++ dquote ++ str "D" ++ dquote)
     = str "A &amp; B &lt;C&gt; &quot;D&quot;"
  /\ replace (str "&") (str "&amp;") (replace (str "<") (str "&lt;") (str "<"))
     = str "&amp;lt;".
Proof.
  split; [exact html_escape_flat_map|].
  repeat split; vm_compute; reflexivity.
Qed.

(* ================================================================== *)
(** ** The API client: retries *)
(* ================================================================== *)

Lemma after_after (w : world) (n m : nat) (e1 e2 : list event) :
  after (after w n e1) m e2 = after w (n + m) (e1 ++ e2).
Proof.
  unfold after; cbn. f_equal; [lia | now rewrite app_assoc].
Qed.

Lemma sleep_accepted (d : Z) : 0 <= d <= SLEEP_MAX -> sleep d = emit (Sleep d).
Proof.
  intros H. unfold sleep.
  assert ((d <? - SLEEP_MAX) = false) as -> by (apply Z.ltb_ge; lia).
  assert ((SLEEP_MAX <? d) = false) as -> by (apply Z.ltb_ge; lia).
  assert ((d <? 0) = false) as -> by (apply Z.ltb_ge; lia).
  reflexivity.
Qed.

Lemma sleep_negative (d : Z) :
  - SLEEP_MAX <= d < 0 -> sleep d = @raise unit ValueError.
Proof.
  intros H. unfold sleep.
  assert ((d <? - SLEEP_MAX) = false) as -> by (apply Z.ltb_ge; lia).
  assert ((SLEEP_MAX <? d) = false) as -> by (apply Z.ltb_ge; lia).
  assert ((d <? 0) = true) as -> by (apply Z.ltb_lt; lia).
  reflexivity.
Qed.

Lemma sleep_too_long (d : Z) :
  d < - SLEEP_MAX \/ SLEEP_MAX < d -> sleep d = @raise unit OverflowError.
Proof.
  intros H. unfold sleep.
  destruct (Z.ltb_spec d (- SLEEP_MAX)); [reflexivity|].
  destruct (Z.ltb_spec SLEEP_MAX d); [reflexivity|]. lia.
Qed.

Section Retries.

Variable py_int : text -> option Z.
Variable u : request.
Variable headers : list (text * text).

Lemma attempt_ok (k : nat) (w : world) (data : search_data) :
  api w (served w) u = Http200 data ->
  github_request_attempts py_int (S k) u headers w
    = (Ok data, after w 1 [Get u headers]).
Proof.
  intros H. cbn [github_request_attempts]. unfold bind, urlopen, after.
  rewrite H. unfold ret. repeat f_equal. lia.
Qed.

Lemma attempt_rate_limited (k : nat) (w : world) (d : Z) :
  rate_limited py_int (api w (served w) u) d ->
  github_request_attempts py_int (S k) u headers w
    = github_request_attempts py_int k u headers
        (after w 1 (waited u headers d)).
Proof.
  intros (code & header & body & H & Hc & Hd & Hpos).
  cbn [github_request_attempts]. unfold bind at 1. unfold urlopen at 1.
  rewrite H.
  assert ((code =? 403) || (code =? 429) = true) as ->.
  { destruct Hc as [-> | ->]; reflexivity. }
  unfold bind at 1. unfold int_of. rewrite Hd. unfold ret.
  unfold bind at 1. unfold print, emit.
  unfold bind at 1. rewrite (sleep_accepted d Hpos). unfold emit. cbn.
  unfold after, waited. cbn.
  replace (served w + 1)%nat with (S (served w)) by lia.
  now rewrite <- !app_assoc.
Qed.

Lemma attempt_other_error (k : nat) (w : world) (code : Z) (body : text) :
  other_error (api w (served w) u) code body ->
  github_request_attempts py_int (S k) u headers w
    = (Exit 1, after w 1 (failed u headers code body)).
Proof.
  intros (header & H & H403 & H429).
  cbn [github_request_attempts]. unfold bind at 1. unfold urlopen at 1.
  rewrite H.
  apply Z.eqb_neq in H403, H429. rewrite H403, H429. cbn.
  unfold after, failed. cbn.
  replace (served w + 1)%nat with (S (served w)) by lia.
  now rewrite <- !app_assoc.
Qed.

Lemma attempts_exhausted (w : world) :
  github_request_attempts py_int 0 u headers w
    = (Exit 1, after w 0 [Print (str "Error: Exceeded retry attempts")]).
Proof.
  cbn. unfold after. now rewrite Nat.add_0_r.
Qed.

End Retries.

(** C6 (as amended).  [github_request] makes at most three attempts at the
    same request.  A rate-limited answer, that is a 403 or 429 answer whose
    Retry-After (the text 60 when the header is absent) [int] reads as a
    number of seconds from 0 to [SLEEP_MAX], makes it print a notice, sleep
    that long and try again; an
    answer with a body ends it with that body; any other HTTP error ends the
    process at once with status 1 after printing the status code and the
    response body, without a further request; and three rate-limited answers
    end the process with status 1 after the diagnostic "Error: Exceeded
    retry attempts".  Here [r i] is the answer to the [i]-th request from
    now. *)
Theorem github_request_retry_policy :
  forall (py_int : text -> option Z) (u : request)
         (h : list (text * text)) (w : world),
    let r := fun i : nat => api w (served w + i)%nat u in
    let run := github_request py_int u h w in
    (forall data,
        r 0%nat = Http200 data ->
        run = (Ok data, after w 1 [Get u h]))
    /\ (forall d0 data,
        rate_limited py_int (r 0%nat) d0 -> r 1%nat = Http200 data ->
        run = (Ok data, after w 2 (waited u h d0 ++ [Get u h])))
    /\ (forall d0 d1 data,
        rate_limited py_int (r 0%nat) d0 ->
        rate_limited py_int (r 1%nat) d1 -> r 2%nat = Http200 data ->
        run = (Ok data,
               after w 3 (waited u h d0 ++ waited u h d1 ++ [Get u h])))
    /\ (forall d0 d1 d2,
        rate_limited py_int (r 0%nat) d0 ->
        rate_limited py_int (r 1%nat) d1 ->
        rate_limited py_int (r 2%nat) d2 ->
        run = (Exit 1,
               after w 3 (waited u h d0 ++ waited u h d1 ++ waited u h d2
                          ++ [Print (str "Error: Exceeded retry attempts")])))
    /\ (forall code body,
        other_error (r 0%nat) code body ->
        run = (Exit 1, after w 1 (failed u h code body)))
    /\ (forall d0 code body,
        rate_limited py_int (r 0%nat) d0 ->
        other_error (r 1%nat) code body ->
        run = (Exit 1, after w 2 (waited u h d0 ++ failed u h code body)))
    /\ (forall d0 d1 code body,
        rate_limited py_int (r 0%nat) d0 ->
        rate_limited py_int (r 1%nat) d1 ->
        other_error (r 2%nat) code body ->
        run = (Exit 1,
               after w 3 (waited u h d0 ++ waited u h d1
                          ++ failed u h code body)))
    /\ (forall code body,
        code = 403 \/ code = 429 ->
        py_int (str "60") = Some 60 ->
        rate_limited py_int (HttpError code None body) 60).
Proof.
  intros py_int u h w r run. subst r run. unfold github_request.
  rewrite Nat.add_0_r.
  repeat split.
  - intros data H0. now apply attempt_ok.
  - intros d0 data H0 H1.
    rewrite (attempt_rate_limited _ _ _ _ _ d0 H0).
    rewrite (attempt_ok py_int u h _ (after w 1 (waited u h d0)) data H1).
    now rewrite after_after.
  - intros d0 d1 data H0 H1 H2.
    rewrite (attempt_rate_limited _ _ _ _ _ d0 H0).
    rewrite (attempt_rate_limited py_int u h _
               (after w 1 (waited u h d0)) d1 H1).
    rewrite after_after.
    rewrite (attempt_ok py_int u h _
               (after w (1 + 1) (waited u h d0 ++ waited u h d1)) data H2).
    now rewrite !after_after, <- !app_assoc.
  - intros d0 d1 d2 H0 H1 H2.
    rewrite (attempt_rate_limited _ _ _ _ _ d0 H0).
    rewrite (attempt_rate_limited py_int u h _
               (after w 1 (waited u h d0)) d1 H1).
    rewrite after_after.
    rewrite (attempt_rate_limited py_int u h _
               (after w (1 + 1) (waited u h d0 ++ waited u h d1)) d2 H2).
    rewrite attempts_exhausted.
    now rewrite !after_after, <- !app_assoc.
  - intros code body H0. now apply attempt_other_error.
  - intros d0 code body H0 H1.
    rewrite (attempt_rate_limited _ _ _ _ _ d0 H0).
    rewrite (attempt_other_error py_int u h _
               (after w 1 (waited u h d0)) code body H1).
    now rewrite after_after.
  - intros d0 d1 code body H0 H1 H2.
    rewrite (attempt_rate_limited _ _ _ _ _ d0 H0).
    rewrite (attempt_rate_limited py_int u h _
               (after w 1 (waited u h d0)) d1 H1).
    rewrite after_after.
    rewrite (attempt_other_error py_int u h _
               (after w (1 + 1) (waited u h d0 ++ waited u h d1))
               code body H2).
    now rewrite !after_after, <- !app_assoc.
  - intros code body Hc H60. exists code, None, body.
    repeat split; auto; unfold SLEEP_MAX; lia.
Qed.

Lemma github_request_retry_policy_witness :
  github_request decimal (search_url 1 100) accept_headers limited_once_world
  = (Ok {| items := Some []; total_count := Some 0 |},
     after limited_once_world 2
       (waited (search_url 1 100) accept_headers 2
        ++ [Get (search_url 1 100) accept_headers])).
Proof.
  apply (proj1 (proj2 (github_request_retry_policy decimal (search_url 1 100)
                         accept_headers limited_once_world))).
  - exists 429, (Some (str "2")), (str "slow down").
    repeat split; [now right | lia | unfold SLEEP_MAX; lia].
  - reflexivity.
Defined.

(** C6, as stated, fails on a rate-limited answer whose Retry-After header
    is an HTTP date, which [int] rejects (and [decimal] with it): the
    [ValueError] escapes after the one request; nothing is slept on, nothing
    is retried and the process does not end through [sys.exit]. *)
Lemma retry_after_date_counterexample :
  api limited_by_date_world 0 (search_url 1 100)
  = HttpError 429 (Some (str "Fri, 31 Dec 1999 23:59:59 GMT"))
      (str "slow down")
  /\ github_request decimal (search_url 1 100) accept_headers
       limited_by_date_world
     = (Raise ValueError,
        after limited_by_date_world 1
          [Get (search_url 1 100) accept_headers]).
Proof. split; reflexivity. Qed.

(* ================================================================== *)
(** ** The API client: pagination *)
(* ================================================================== *)

Section Pagination.

Variable py_int : text -> option Z.

Lemma collect_ok (its : list item) (recs acc : list pr) (w : world) :
  map (item_record py_int) its = map Some recs ->
  collect py_int its acc w = (Ok (acc ++ filter kept recs), w).
Proof.
  revert recs acc; induction its as [|it its IH]; intros recs acc H.
  - destruct recs; [|discriminate]. cbn. now rewrite app_nil_r.
  - destruct recs as [|p recs]; [discriminate|]. cbn [map] in H.
    injection H as Hit Hrest.
    cbn [collect]. unfold item_record in Hit. unfold bind, index, int_of.
    destruct (nth_error _ 3) as [owner|]; [|discriminate]. unfold ret at 1.
    destruct (nth_error _ 4) as [rn|]; [|discriminate]. unfold ret at 1.
    destruct (nth_error _ 6) as [num|]; [|discriminate]. unfold ret at 1.
    destruct (py_int num) as [n|]; [|discriminate]. unfold ret at 1.
    injection Hit as <-. cbn [filter]. unfold kept at 1. cbn [repo].
    destruct (mem _ EXCLUDED_REPOS); cbn [negb].
    + now apply IH.
    + rewrite (IH recs _ Hrest). now rewrite <- app_assoc.
Qed.

Lemma github_request_never_out_of_fuel (k : nat) (u : request)
    (h : list (text * text)) (w : world) :
  fst (github_request_attempts py_int k u h w) <> OutOfFuel.
Proof.
  revert w; induction k as [|k IH]; intros w; [cbn; discriminate|].
  cbn [github_request_attempts]. unfold bind at 1. unfold urlopen at 1.
  destruct (api w (served w) u) as [data|code header body];
    [cbn; discriminate|].
  destruct ((code =? 403) || (code =? 429)); [|cbn; discriminate].
  unfold bind at 1. unfold int_of.
  destruct (py_int _) as [d|]; [|cbn; discriminate]. unfold ret at 1.
  unfold bind at 1. unfold print, emit. unfold bind at 1. unfold sleep.
  destruct ((d <? - SLEEP_MAX) || (SLEEP_MAX <? d)); [cbn; discriminate|].
  destruct (d <? 0); [cbn; discriminate|]. unfold emit. apply IH.
Qed.

Lemma collect_never_out_of_fuel (its : list item) (acc : list pr)
    (w : world) :
  fst (collect py_int its acc w) <> OutOfFuel.
Proof.
  revert acc; induction its as [|it its IH]; intros acc; [cbn; discriminate|].
  cbn [collect]. unfold bind, index, int_of.
  destruct (nth_error _ 3); [|cbn; discriminate]. unfold ret at 1.
  destruct (nth_error _ 4); [|cbn; discriminate]. unfold ret at 1.
  destruct (nth_error _ 6); [|cbn; discriminate]. unfold ret at 1.
  destruct (py_int _); [|cbn; discriminate]. unfold ret at 1.
  destruct (mem _ _); apply IH.
Qed.

(** The loop ends within its budget of ten iterations, whatever the API
    answers. *)
Lemma fetch_loop_never_out_of_fuel (fuel : nat) (page : Z) (acc : list pr)
    (w : world) :
  1 <= page <= 10 -> 11 - page <= Z.of_nat fuel ->
  fst (fetch_loop py_int fuel page acc w) <> OutOfFuel.
Proof.
  revert page acc w; induction fuel as [|fuel IH]; intros page acc w Hp Hf;
    [lia|].
  cbn [fetch_loop]. unfold bind at 1. unfold github_request.
  pose proof (github_request_never_out_of_fuel 3 (search_url page per_page)
                accept_headers w) as Hg.
  destruct (github_request_attempts _ _ _ _ w) as [[data| | |] w1];
    cbn [fst] in *; try discriminate; [|contradiction].
  destruct (items data) as [[|it its]|]; try (cbn; discriminate).
  unfold bind at 1.
  pose proof (collect_never_out_of_fuel (it :: its) acc w1) as Hc.
  destruct (collect _ _ _ w1) as [[acc'| | |] w2];
    cbn [fst] in *; try discriminate; [|contradiction].
  destruct (Z.geb_spec (page * per_page)
              (match total_count data with Some n => n | None => 0 end));
    [cbn; discriminate|].
  destruct (Z.geb_spec (page * per_page) 1000); [cbn; discriminate|].
  cbn [orb]. unfold per_page in *. apply IH; lia.
Qed.

Lemma fetch_never_out_of_fuel (w : world) :
  fst (fetch_merged_prs py_int w) <> OutOfFuel.
Proof.
  unfold fetch_merged_prs, bind.
  pose proof (fetch_loop_never_out_of_fuel 10 1 [] w) as H.
  destruct (fetch_loop _ _ _ _ w) as [[a| | |] w1]; cbn in *;
    try discriminate.
  apply H; lia.
Qed.

End Pagination.

Lemma ceil100_bounds (T : nat) :
  (T <= 100 * ((T + 99) / 100) < T + 100)%nat.
Proof.
  pose proof (Nat.div_mod_eq (T + 99) 100).
  pose proof (Nat.mod_upper_bound (T + 99) 100). lia.
Qed.

Lemma firstn_add {A} (a b : nat) (l : list A) :
  firstn (a + b) l = firstn a l ++ firstn b (skipn a l).
Proof.
  revert l; induction a as [|a IH]; intros l; [reflexivity|].
  destruct l as [|x l]; cbn; [now rewrite firstn_nil | now rewrite IH].
Qed.

Section SimulatedApi.

Variable py_int : text -> option Z.
Variable all : list item.
Variable recs : list pr.
Hypothesis all_recs : map (item_record py_int) all = map Some recs.

Lemma length_recs : length recs = length all.
Proof.
  apply (f_equal (@length (option pr))) in all_recs.
  now rewrite !length_map in all_recs.
Qed.

Lemma github_request_sim (page : Z) (w : world) :
  api w = sim_api all ->
  github_request py_int (search_url page per_page) accept_headers w
  = (Ok {| items := Some (page_items all page);
           total_count := Some (len_list all) |},
     after w 1 [Get (search_url page per_page) accept_headers]).
Proof.
  intros H. apply attempt_ok. rewrite H. reflexivity.
Qed.

Lemma page_recs (k : nat) :
  map (item_record py_int) (page_items all (Z.of_nat k + 1))
  = map Some (firstn 100 (skipn (100 * k) recs)).
Proof.
  unfold page_items.
  replace (Z.to_nat (Z.of_nat k + 1 - 1)) with k by lia.
  now rewrite <- firstn_map, <- skipn_map, all_recs, skipn_map, firstn_map.
Qed.

Lemma get_page_one (k : nat) :
  map get_page (seq (k + 1) 1)
  = [Get (search_url (Z.of_nat k + 1) 100) accept_headers].
Proof.
  cbn. unfold get_page. now rewrite Nat2Z.inj_add.
Qed.

Lemma fetch_loop_sim (fuel k : nat) (acc : list pr) (w : world) :
  api w = sim_api all ->
  (k < 10)%nat -> (10 - k <= fuel)%nat ->
  (k = 0 \/ 100 * k < length all)%nat ->
  fetch_loop py_int fuel (Z.of_nat k + 1) acc w
  = (Ok (acc ++ filter kept (firstn (100 * (10 - k)) (skipn (100 * k) recs))),
     after w (pages_needed (length all) - k)
       (map get_page (seq (k + 1) (pages_needed (length all) - k)))).
Proof.
  revert k acc w; induction fuel as [|fuel IH]; intros k acc w Hapi Hk Hf Hinv;
    [lia|].
  pose proof (ceil100_bounds (length all)) as Hceil.
  pose proof length_recs as Hlen.
  cbn [fetch_loop]. unfold bind at 1.
  rewrite (github_request_sim _ w Hapi). cbn [items total_count].
  pose proof (page_recs k) as Hpage.
  destruct (page_items all (Z.of_nat k + 1)) as [|it its] eqn:Eits.
  - (* an empty page: only for the first page of an empty result *)
    assert (length (firstn 100 (skipn (100 * k) recs)) = 0%nat) as Hz.
    { apply (f_equal (@length (option pr))) in Hpage.
      rewrite !length_map in Hpage. now rewrite <- Hpage. }
    rewrite length_firstn, length_skipn in Hz.
    assert (k = 0%nat /\ length all = 0%nat) as [-> Hall] by lia.
    assert (recs = []) as -> by (apply length_zero_iff_nil; lia).
    rewrite Hall. unfold pages_needed. cbn. now rewrite app_nil_r.
  - assert (100 * k < length all)%nat as Hlt.
    { apply (f_equal (@length (option pr))) in Hpage.
      rewrite !length_map, length_firstn, length_skipn in Hpage.
      cbn [length] in Hpage. lia. }
    unfold bind at 1. rewrite (collect_ok py_int _ _ acc _ Hpage).
    unfold per_page, len_list.
    destruct (Z.geb_spec ((Z.of_nat k + 1) * 100) (Z.of_nat (length all)))
      as [Hge|Hlt1]; cbn [orb].
    + (* the total is reached *)
      assert (pages_needed (length all) - k = 1)%nat as ->
        by (unfold pages_needed; lia).
      unfold ret. rewrite get_page_one. do 3 f_equal.
      rewrite !firstn_all2; [reflexivity | | ];
        rewrite length_skipn; lia.
    + destruct (Z.geb_spec ((Z.of_nat k + 1) * 100) 1000) as [Hge|Hlt2].
      * (* the cap is reached *)
        assert (k = 9)%nat as -> by lia.
        assert (pages_needed (length all) - 9 = 1)%nat as ->
          by (unfold pages_needed; lia).
        reflexivity.
      * replace (Z.of_nat k + 1 + 1) with (Z.of_nat (S k) + 1) by lia.
        rewrite IH; [| assumption | lia | lia | lia].
        rewrite after_after. f_equal.
        -- f_equal. rewrite <- app_assoc. f_equal.
           rewrite <- filter_app. f_equal.
           replace (100 * (10 - k))%nat with (100 + 100 * (10 - S k))%nat
             by lia.
           rewrite firstn_add, skipn_skipn. do 3 f_equal. lia.
        -- assert (pages_needed (length all) - k
                   = S (pages_needed (length all) - S k))%nat as ->
             by (unfold pages_needed; lia).
           cbn [seq map app]. f_equal.
           replace (S (k + 1)) with (S k + 1)%nat by lia.
           unfold get_page. rewrite Nat2Z.inj_add. reflexivity.
Qed.

Lemma fetch_merged_prs_sim (w : world) :
  api w = sim_api all ->
  fetch_merged_prs py_int w
  = (Ok (filter kept (firstn 1000 recs)),
     after w (pages_needed (length all))
       (map get_page (seq 1 (pages_needed (length all)))
        ++ [Print (fetched_line (filter kept (firstn 1000 recs)))])).
Proof.
  intros Hapi. unfold fetch_merged_prs. unfold bind at 1.
  change 1 with (Z.of_nat 0 + 1).
  rewrite (fetch_loop_sim 10 0 [] w Hapi); [| lia | lia | now left].
  cbn [app skipn Nat.mul Nat.sub Nat.add].
  rewrite Nat.sub_0_r.
  unfold bind, print, emit, ret, after. cbn [api served index_html log].
  rewrite <- app_assoc. reflexivity.
Qed.

End SimulatedApi.

(** C2 (as amended).  Against a simulated API that reports the length [T]
    of its result list as total_count and serves it in pages of 100, all of
    whose items have a well-formed pull-request URL, the fetch returns
    normally after exactly max(1, min(10, ceil(T/100))) requests, for the
    pages 1, 2, ... in order; it returns the records of the first 1000
    items, in order, without those of an excluded repository.  The number of
    requests is min(10, ceil(T/100)) whenever [T] is positive, and one when
    [T] is zero. *)
Theorem fetch_pagination :
  forall (py_int : text -> option Z) (all : list item) (recs : list pr)
         (w : world),
    api w = sim_api all ->
    map (item_record py_int) all = map Some recs ->
    fst (fetch_merged_prs py_int w) = Ok (filter kept (firstn 1000 recs))
    /\ served (snd (fetch_merged_prs py_int w))
       = (served w + pages_needed (length all))%nat
    /\ log (snd (fetch_merged_prs py_int w))
       = log w ++ map get_page (seq 1 (pages_needed (length all)))
         ++ [Print (fetched_line (filter kept (firstn 1000 recs)))]
    /\ pages_needed (length all)
       = (if (length all =? 0)%nat then 1%nat
          else Nat.min 10 ((length all + 99) / 100)).
Proof.
  intros py_int all recs w Hapi Hrecs.
  rewrite (fetch_merged_prs_sim py_int all recs Hrecs w Hapi).
  cbn [fst snd after served log].
  repeat split.
  pose proof (ceil100_bounds (length all)).
  unfold pages_needed.
  destruct (Nat.eqb_spec (length all) 0) as [->|Hne]; [reflexivity | lia].
Qed.

Lemma fetch_pagination_witness :
  fst (fetch_merged_prs decimal (sim_world [sample_item]))
    = Ok (filter kept (firstn 1000 [sample_record]))
  /\ served (snd (fetch_merged_prs decimal (sim_world [sample_item])))
     = (0 + pages_needed 1)%nat
  /\ log (snd (fetch_merged_prs decimal (sim_world [sample_item])))
     = [] ++ map get_page (seq 1 (pages_needed 1))
       ++ [Print (fetched_line (filter kept (firstn 1000 [sample_record])))]
  /\ pages_needed 1 = Nat.min 10 ((1 + 99) / 100).
Proof.
  apply (fetch_pagination decimal [sample_item] [sample_record]
           (sim_world [sample_item])).
  - reflexivity.
  - vm_compute. reflexivity.
Defined.

(** Against C2 as stated: for an empty result the loop still issues one
    request, where ceil(0/100) capped at 10 is zero. *)
Lemma fetch_empty_result_counterexample :
  served (snd (fetch_merged_prs decimal (sim_world []))) = 1%nat
  /\ claimed_pages (length (@nil item)) = 0%nat
  /\ served (snd (fetch_merged_prs decimal (sim_world [])))
     <> claimed_pages (length (@nil item)).
Proof.
  split; [vm_compute; reflexivity|].
  split; [vm_compute; reflexivity|].
  vm_compute. discriminate.
Qed.

(** An item whose URL lacks the owner, repository or number segment ends
    the fetch with an [IndexError]. *)
Example fetch_short_url_raises :
  fst (fetch_merged_prs decimal (sim_world [short_item])) = Raise IndexError.
Proof. reflexivity. Qed.

(* ================================================================== *)
(** ** Facts about dictionaries and the stable sort *)
(* ================================================================== *)

Lemma text_eqb_eq (a b : text) : text_eqb a b = true <-> a = b.
Proof.
  unfold text_eqb. destruct (list_eq_dec N.eq_dec a b); split; congruence.
Qed.

Lemma text_eqb_refl (a : text) : text_eqb a a = true.
Proof. now apply text_eqb_eq. Qed.

Lemma text_eqb_neq (a b : text) : text_eqb a b = false <-> a <> b.
Proof.
  unfold text_eqb. destruct (list_eq_dec N.eq_dec a b); split; congruence.
Qed.

Lemma mem_In (x : text) (l : list text) : mem x l = true <-> In x l.
Proof. unfold mem. destruct (in_dec text_dec x l); split; congruence. Qed.

Lemma mem_iff (x : text) (l l' : list text) :
  (In x l <-> In x l') -> mem x l = mem x l'.
Proof.
  intros H. destruct (mem x l') eqn:E.
  - apply mem_In, H. now apply mem_In.
  - destruct (mem x l) eqn:E'; [|reflexivity].
    apply mem_In in E'. apply H in E'. apply mem_In in E'. congruence.
Qed.

Section DictFacts.

Context {V : Type}.
Implicit Types (d : dict V) (k : text) (v : V).

Lemma dict_get_set_same k v d : dict_get k (dict_set k v d) = Some v.
Proof.
  induction d as [|[k' v'] d IH]; cbn.
  - now rewrite text_eqb_refl.
  - destruct (text_eqb k k') eqn:E; cbn.
    + now rewrite text_eqb_refl.
    + now rewrite E.
Qed.

Lemma dict_get_set_other k k' v d :
  k <> k' -> dict_get k' (dict_set k v d) = dict_get k' d.
Proof.
  intros Hne. induction d as [|[k0 v0] d IH]; cbn.
  - assert (text_eqb k' k = false) as -> by (apply text_eqb_neq; congruence).
    reflexivity.
  - destruct (text_eqb k k0) eqn:E; cbn.
    + apply text_eqb_eq in E. subst k0.
      assert (text_eqb k' k = false) as ->
          by (apply text_eqb_neq; congruence).
      reflexivity.
    + now rewrite IH.
Qed.

Lemma dict_set_new k v d :
  ~ In k (keys d) -> dict_set k v d = d ++ [(k, v)].
Proof.
  induction d as [|[k' v'] d IH]; cbn; [reflexivity|].
  intros H. destruct (text_eqb k k') eqn:E.
  - apply text_eqb_eq in E. subst. tauto.
  - rewrite IH; [reflexivity | tauto].
Qed.

(** Setting a key of a dictionary given by its keys and a value function. *)
Lemma dict_set_tabulated k v (f : text -> V) (ks : list text) :
  NoDup ks -> In k ks ->
  dict_set k v (map (fun x => (x, f x)) ks)
  = map (fun x => (x, if text_eqb x k then v else f x)) ks.
Proof.
  induction ks as [|x ks IH]; cbn; [tauto|].
  intros Hnd Hin. inversion Hnd as [|? ? Hx Hnd']; subst.
  destruct (text_eqb k x) eqn:E.
  - apply text_eqb_eq in E. subst x. rewrite text_eqb_refl. f_equal.
    apply map_ext_in. intros y Hy.
    assert (text_eqb y k = false) as -> by (apply text_eqb_neq; congruence).
    reflexivity.
  - apply text_eqb_neq in E.
    assert (text_eqb x k = false) as -> by (apply text_eqb_neq; congruence).
    rewrite IH; [reflexivity | assumption | ].
    destruct Hin; congruence.
Qed.

Lemma dict_get_tabulated k (f : text -> V) (ks : list text) :
  dict_get k (map (fun x => (x, f x)) ks)
  = if mem k ks then Some (f k) else None.
Proof.
  induction ks as [|x ks IH]; cbn; [reflexivity|].
  destruct (text_eqb k x) eqn:E.
  - apply text_eqb_eq in E. subst x.
    assert (mem k (k :: ks) = true) as -> by (apply mem_In; now left).
    reflexivity.
  - rewrite IH. apply text_eqb_neq in E.
    destruct (mem k ks) eqn:Em.
    + assert (mem k (x :: ks) = true) as ->
          by (apply mem_In; right; now apply mem_In).
      reflexivity.
    + assert (mem k (x :: ks) = false) as ->; [|reflexivity].
      destruct (mem k (x :: ks)) eqn:Em'; [|reflexivity].
      apply mem_In in Em' as [?|Hin]; [congruence|].
      apply mem_In in Hin. congruence.
Qed.

Lemma dict_of_items_acc (l acc : dict V) :
  NoDup (keys (acc ++ l)) ->
  fold_left (fun d kv => dict_set (fst kv) (snd kv) d) l acc = acc ++ l.
Proof.
  revert acc; induction l as [|[k v] l IH]; intros acc H; cbn.
  - now rewrite app_nil_r.
  - rewrite dict_set_new.
    + rewrite IH; rewrite <- app_assoc; [reflexivity | exact H].
    + unfold keys in *. rewrite map_app in H. cbn in H.
      apply NoDup_remove_2 in H. intros Hin. apply H.
      apply in_or_app. now left.
Qed.

Lemma dict_of_items_nodup (l : dict V) :
  NoDup (keys l) -> dict_of_items l = l.
Proof. intros H. unfold dict_of_items. now rewrite dict_of_items_acc. Qed.

End DictFacts.

Section SortFacts.

Context {A : Type}.
Variable key : A -> Z.

Lemma insert_desc_perm (x : A) (l : list A) :
  Permutation (insert_desc key x l) (x :: l).
Proof.
  induction l as [|y l IH]; cbn; [reflexivity|].
  destruct (key y <=? key x); [reflexivity|].
  rewrite IH. apply perm_swap.
Qed.

Lemma sorted_desc_perm (l : list A) : Permutation (sorted_desc key l) l.
Proof.
  induction l as [|x l IH]; cbn; [reflexivity|].
  rewrite insert_desc_perm. now constructor.
Qed.

Lemma insert_desc_descending (x : A) (l : list A) :
  descending key l -> descending key (insert_desc key x l).
Proof.
  unfold descending. induction l as [|y l IH]; intros Hs; cbn.
  - constructor; constructor.
  - inversion Hs as [|? ? Hs' Hall]; subst.
    destruct (Z.leb_spec (key y) (key x)) as [Hle|Hgt].
    + constructor; [assumption|]. constructor; [assumption|].
      eapply Forall_impl; [|exact Hall]. cbn. intros b Hb. lia.
    + constructor; [now apply IH|].
      eapply Permutation_Forall.
      * symmetry. apply insert_desc_perm.
      * constructor; [lia | assumption].
Qed.

Lemma sorted_desc_descending (l : list A) : descending key (sorted_desc key l).
Proof.
  induction l as [|x l IH]; cbn; [constructor|].
  now apply insert_desc_descending.
Qed.

(** Stability: elements of one key keep their relative order. *)
Lemma insert_desc_stable (k : Z) (x : A) (l : list A) :
  filter (fun a => key a =? k) (insert_desc key x l)
  = filter (fun a => key a =? k) (x :: l).
Proof.
  induction l as [|y l IH]; [reflexivity|].
  cbn [insert_desc].
  destruct (Z.leb_spec (key y) (key x)) as [Hle|Hgt]; [reflexivity|].
  cbn [filter] in *. rewrite IH.
  destruct (Z.eqb_spec (key y) k), (Z.eqb_spec (key x) k);
    try reflexivity. lia.
Qed.

Lemma sorted_desc_stable (k : Z) (l : list A) :
  filter (fun a => key a =? k) (sorted_desc key l)
  = filter (fun a => key a =? k) l.
Proof.
  induction l as [|x l IH]; [reflexivity|].
  cbn [sorted_desc]. rewrite insert_desc_stable. cbn [filter].
  now rewrite IH.
Qed.

Lemma sorted_desc_length (l : list A) :
  length (sorted_desc key l) = length l.
Proof. apply Permutation_length, sorted_desc_perm. Qed.

Lemma sorted_desc_nil_inv (l : list A) : sorted_desc key l = [] -> l = [].
Proof.
  intros H. apply (f_equal (@length A)) in H.
  rewrite sorted_desc_length in H. now apply length_zero_iff_nil.
Qed.

End SortFacts.

Lemma first_seen_In (x : text) (l : list text) :
  In x (first_seen l) <-> In x l.
Proof.
  induction l as [|y l IH]; cbn; [tauto|].
  rewrite filter_In, IH, negb_true_iff, text_eqb_neq.
  destruct (text_dec y x); [tauto|]. split; [tauto|].
  intros [?|?]; [tauto|]. right. split; [assumption|congruence].
Qed.

Lemma first_seen_NoDup (l : list text) : NoDup (first_seen l).
Proof.
  induction l as [|y l IH]; cbn; constructor.
  - rewrite filter_In, negb_true_iff, text_eqb_neq. tauto.
  - now apply NoDup_filter.
Qed.

Lemma first_seen_snoc (l : list text) (x : text) :
  first_seen (l ++ [x])
  = if mem x l then first_seen l else first_seen l ++ [x].
Proof.
  induction l as [|y l IH]; cbn [app first_seen]; [reflexivity|].
  rewrite IH. destruct (text_dec x y) as [->|Hne].
  - assert (mem y (y :: l) = true) as -> by (apply mem_In; now left).
    destruct (mem y l); [reflexivity|].
    rewrite filter_app. cbn. rewrite text_eqb_refl. cbn.
    now rewrite app_nil_r.
  - assert (mem x (y :: l) = mem x l) as ->.
    { destruct (mem x l) eqn:E.
      - apply mem_In. right. now apply mem_In.
      - destruct (mem x (y :: l)) eqn:E'; [|reflexivity].
        apply mem_In in E' as [?|Hin]; [congruence|].
        apply mem_In in Hin. congruence. }
    destruct (mem x l); [reflexivity|].
    rewrite filter_app. cbn.
    assert (text_eqb x y = false) as -> by now apply text_eqb_neq.
    reflexivity.
Qed.

Lemma filter_none {A} (f : A -> bool) (l : list A) :
  (forall x, In x l -> f x = false) -> filter f l = [].
Proof.
  induction l as [|x l IH]; intros H; cbn; [reflexivity|].
  rewrite H by now left. apply IH. intros; apply H; now right.
Qed.

(* ================================================================== *)
(** ** The categorizer, step by step *)
(* ================================================================== *)

Lemma repo_prs_snoc (prs : list pr) (p : pr) (rn : text) :
  repo_prs (prs ++ [p]) rn
  = repo_prs prs rn ++ (if text_eqb (repo p) rn then [p] else []).
Proof. unfold repo_prs. rewrite filter_app. reflexivity. Qed.

Lemma group_by_repo_spec (prs : list pr) :
  group_by_repo prs = map (fun rn => (rn, repo_prs prs rn)) (repo_order prs).
Proof.
  induction prs as [|p prs IH] using rev_ind; [reflexivity|].
  unfold group_by_repo in *. rewrite fold_left_app. cbn [fold_left].
  rewrite IH. unfold dd_get. rewrite dict_get_tabulated.
  unfold repo_order. rewrite map_app. cbn [map]. rewrite first_seen_snoc.
  assert (mem (repo p) (first_seen (map repo prs))
          = mem (repo p) (map repo prs)) as ->.
  { apply mem_iff, first_seen_In. }
  destruct (mem (repo p) (map repo prs)) eqn:E.
  - rewrite dict_set_tabulated.
    + apply map_ext. intros rn. rewrite repo_prs_snoc.
      destruct (text_eqb rn (repo p)) eqn:E1.
      * apply text_eqb_eq in E1. subst rn. now rewrite text_eqb_refl.
      * apply text_eqb_neq in E1.
        assert (text_eqb (repo p) rn = false) as ->
            by (apply text_eqb_neq; congruence).
        now rewrite app_nil_r.
    + apply first_seen_NoDup.
    + apply first_seen_In. now apply mem_In.
  - assert (~ In (repo p) (map repo prs)) as Hnin.
    { intros Hin. apply mem_In in Hin. congruence. }
    rewrite dict_set_new.
    + rewrite map_app. cbn [map]. f_equal.
      * apply map_ext_in. intros rn Hrn. rewrite repo_prs_snoc.
        assert (text_eqb (repo p) rn = false) as ->.
        { apply text_eqb_neq. intros Heq. subst rn.
          apply Hnin. now apply (proj1 (first_seen_In _ _)). }
        now rewrite app_nil_r.
      * rewrite repo_prs_snoc, text_eqb_refl. do 3 f_equal.
        symmetry. apply filter_none. intros q Hq.
        apply text_eqb_neq. intros Heq. apply Hnin. rewrite <- Heq.
        now apply in_map.
    + unfold keys. rewrite map_map. cbn. rewrite map_id.
      now rewrite first_seen_In.
Qed.

Section CategorizerFacts.

Variable cats : list category.
Variable other : category.

Lemma categorize_repos_snoc (es : dict (list pr)) (e : text * list pr) :
  categorize_repos cats other (es ++ [e])
  = dict_set (category_name cats other (fst e))
      (dict_set (fst e) (sorted_desc pr_number (snd e))
         (dd_get [] (category_name cats other (fst e))
            (categorize_repos cats other es)))
      (categorize_repos cats other es).
Proof. unfold categorize_repos. now rewrite fold_left_app. Qed.

Lemma categorize_repos_get (entries : dict (list pr)) (c : text) :
  NoDup (keys entries) ->
  dict_get c (categorize_repos cats other entries)
  = match filter (fun e => text_eqb (category_name cats other (fst e)) c)
            entries with
    | [] => None
    | es => Some (map (fun e => (fst e, sorted_desc pr_number (snd e))) es)
    end.
Proof.
  revert c. induction entries as [|e es IH] using rev_ind; intros c Hnd;
    [reflexivity|].
  unfold keys in Hnd. rewrite map_app in Hnd. cbn [map] in Hnd.
  assert (NoDup (keys es)) as Hes.
  { apply NoDup_remove_1 in Hnd. now rewrite app_nil_r in Hnd. }
  assert (~ In (fst e) (keys es)) as He.
  { apply NoDup_remove_2 in Hnd. now rewrite app_nil_r in Hnd. }
  rewrite categorize_repos_snoc.
  set (acc := categorize_repos cats other es) in *.
  set (cn := category_name cats other (fst e)).
  set (g := fun e0 : text * list pr =>
              (fst e0, sorted_desc pr_number (snd e0))).
  assert (dd_get [] cn acc
          = map g (filter (fun e0 =>
                             text_eqb (category_name cats other (fst e0)) cn)
                     es))
    as Hdd.
  { unfold dd_get. pose proof (IH cn Hes) as Hcn. unfold dict in *.
    rewrite Hcn. now destruct (filter _ es). }
  rewrite Hdd, filter_app. cbn [filter]. fold cn.
  rewrite (dict_set_new (fst e) _ (map g _)).
  2:{ unfold keys. rewrite map_map. cbn [g fst]. intros Hin.
      apply in_map_iff in Hin as (e0 & Hfst & Hin).
      apply filter_In in Hin as [Hin _]. apply He.
      rewrite <- Hfst. now apply in_map. }
  destruct (text_dec cn c) as [->|Hne].
  - rewrite dict_get_set_same, text_eqb_refl.
    fold (g e). rewrite <- (map_app g _ [e]).
    now destruct (filter _ es).
  - rewrite dict_get_set_other by assumption.
    assert (text_eqb cn c = false) as -> by now apply text_eqb_neq.
    rewrite app_nil_r. now apply IH.
Qed.

Lemma categorized_get (prs : list pr) (c : text) :
  dict_get c (categorize_repos cats other (group_by_repo prs))
  = match repos_of_category cats other prs c with
    | [] => None
    | rns => Some (map (sorted_entry prs) rns)
    end.
Proof.
  rewrite categorize_repos_get.
  2:{ rewrite group_by_repo_spec. unfold keys. rewrite map_map. cbn.
      rewrite map_id. apply first_seen_NoDup. }
  rewrite group_by_repo_spec. unfold repos_of_category.
  set (h := fun rn => (rn, repo_prs prs rn)).
  assert (filter (fun e => text_eqb (category_name cats other (fst e)) c)
            (map h (repo_order prs))
          = map h (filter (fun rn => text_eqb (category_name cats other rn) c)
                     (repo_order prs))) as ->.
  { induction (repo_order prs) as [|rn l IH]; cbn; [reflexivity|].
    destruct (text_eqb (category_name cats other rn) c); cbn; now rewrite IH. }
  destruct (filter _ (repo_order prs)) as [|rn rns]; [reflexivity|].
  cbn [map]. f_equal. f_equal. now rewrite map_map.
Qed.

Lemma repos_of_category_NoDup (prs : list pr) (c : text) :
  NoDup (repos_of_category cats other prs c).
Proof. apply NoDup_filter, first_seen_NoDup. Qed.

Lemma add_section_spec (prs : list pr) (result : dict section)
    (cat : category) :
  ~ In (name cat) (keys result) ->
  add_section (categorize_repos cats other (group_by_repo prs)) result cat
  = result ++ section_of cats other prs cat.
Proof.
  intros Hnew. unfold add_section, dict_has, dd_get, section_of.
  rewrite !categorized_get.
  destruct (repos_of_category cats other prs (name cat)) as [|rn rns] eqn:E;
    [now rewrite app_nil_r|].
  rewrite dict_set_new by assumption. do 4 f_equal.
  apply dict_of_items_nodup.
  unfold keys. eapply Permutation_NoDup.
  - apply Permutation_map. symmetry. apply sorted_desc_perm.
  - rewrite map_map. cbn [sorted_entry fst]. rewrite map_id.
    rewrite <- E. apply repos_of_category_NoDup.
Qed.

Lemma add_sections_spec (prs : list pr) (cs : list category)
    (result : dict section) :
  NoDup (keys result ++ map name cs) ->
  fold_left (add_section (categorize_repos cats other (group_by_repo prs)))
    cs result
  = result ++ flat_map (section_of cats other prs) cs.
Proof.
  revert result; induction cs as [|cat cs IH]; intros result Hnd; cbn.
  - now rewrite app_nil_r.
  - rewrite add_section_spec.
    2:{ apply NoDup_remove_2 in Hnd. intros Hin. apply Hnd.
        apply in_or_app. now left. }
    rewrite IH; [now rewrite <- app_assoc|].
    unfold section_of. destruct (repos_of_category cats other prs (name cat)).
    + rewrite app_nil_r. now apply NoDup_remove_1 in Hnd.
    + unfold keys in *. rewrite map_app, <- app_assoc. exact Hnd.
Qed.

Lemma categorize_in_spec (prs : list pr) :
  NoDup (map name (cats ++ [other])) ->
  categorize_in cats other prs = categorize_spec cats other prs.
Proof.
  intros Hnd. unfold categorize_in, categorize_spec.
  change (add_section ?cz (fold_left (add_section ?cz) cats []) other)
    with (fold_left (add_section cz) [other]
            (fold_left (add_section cz) cats [])).
  rewrite <- fold_left_app. now rewrite add_sections_spec.
Qed.

(** Every repository is assigned a category of the list or the fallback. *)
Lemma pick_category_In (rn : text) :
  In (pick_category cats other rn) (cats ++ [other]).
Proof.
  unfold pick_category. induction cats as [|cat cs IH]; cbn.
  - now left.
  - destruct (matches cat rn); [now left | now right].
Qed.

(** The category assigned is the first rule that accepts the name, and
    the fallback when none does. *)
Lemma pick_category_find (rn : text) :
  pick_category cats other rn
  = match List.find (fun cat => matches cat rn) cats with
    | Some cat => cat
    | None => other
    end.
Proof.
  unfold pick_category. induction cats as [|cat cs IH]; cbn; [reflexivity|].
  now destruct (matches cat rn).
Qed.

End CategorizerFacts.

(* ================================================================== *)
(** ** Partitions and permutations *)
(* ================================================================== *)

Lemma flat_map_nil {A B} (l : list A) :
  flat_map (fun _ : A => @nil B) l = [].
Proof. induction l; cbn; auto. Qed.

Lemma flat_map_map {A B C} (g : A -> B) (f : B -> list C) (l : list A) :
  flat_map f (map g l) = flat_map (fun x => f (g x)) l.
Proof. induction l as [|x l IH]; cbn; [reflexivity | now rewrite IH]. Qed.

Lemma map_flat_map_out {A B C} (f : A -> list B) (h : B -> C) (l : list A) :
  flat_map (fun x => map h (f x)) l = map h (flat_map f l).
Proof.
  induction l as [|x l IH]; cbn; [reflexivity|].
  now rewrite map_app, IH.
Qed.

Lemma flat_map_app_perm {A B} (f g : A -> list B) (l : list A) :
  Permutation (flat_map (fun x => f x ++ g x) l)
              (flat_map f l ++ flat_map g l).
Proof.
  induction l as [|x l IH]; cbn; [reflexivity|].
  rewrite IH. rewrite <- !app_assoc. apply Permutation_app_head.
  rewrite !app_assoc. apply Permutation_app_tail.
  apply Permutation_app_comm.
Qed.

Lemma flat_map_pointwise_perm {A B} (f g : A -> list B) (l : list A) :
  (forall x, In x l -> Permutation (f x) (g x)) ->
  Permutation (flat_map f l) (flat_map g l).
Proof.
  induction l as [|x l IH]; intros H; cbn; [reflexivity|].
  apply Permutation_app; [apply H; now left|].
  apply IH. intros; apply H; now right.
Qed.

Lemma flat_map_none {A B} (f : A -> list B) (l : list A) :
  (forall x, In x l -> f x = []) -> flat_map f l = [].
Proof.
  induction l as [|x l IH]; intros H; cbn; [reflexivity|].
  rewrite H by now left. apply IH. intros; apply H; now right.
Qed.

Lemma flat_map_single {B} (k0 : text) (xs : list B) (ks : list text) :
  NoDup ks -> In k0 ks ->
  flat_map (fun k => if text_eqb k0 k then xs else []) ks = xs.
Proof.
  induction 1 as [|k ks Hk Hnd IH]; intros Hin; [contradiction|].
  cbn. destruct (text_eqb k0 k) eqn:E.
  - apply text_eqb_eq in E. subst k.
    rewrite flat_map_none; [apply app_nil_r|]. intros k Hin'.
    assert (text_eqb k0 k = false) as ->; [|reflexivity].
    apply text_eqb_neq. congruence.
  - apply text_eqb_neq in E. cbn. apply IH.
    destruct Hin; congruence.
Qed.

(** Splitting a list by the key of its elements, over a duplicate-free
    list of keys that covers them, only rearranges it. *)
Lemma partition_by_key {A} (key : A -> text) (ks : list text) (l : list A) :
  NoDup ks -> (forall x, In x l -> In (key x) ks) ->
  Permutation
    (flat_map (fun k => filter (fun x => text_eqb (key x) k) l) ks) l.
Proof.
  intros Hnd. induction l as [|x l IH]; intros Hcov; cbn [filter].
  - now rewrite flat_map_nil.
  - rewrite (flat_map_ext _
               (fun k => (if text_eqb (key x) k then [x] else [])
                         ++ filter (fun y => text_eqb (key y) k) l)).
    2:{ intros k. now destruct (text_eqb (key x) k). }
    rewrite flat_map_app_perm.
    rewrite flat_map_single; [| assumption | apply Hcov; now left].
    cbn. constructor. apply IH. intros; apply Hcov; now right.
Qed.

Lemma sum_Z_acc (l : list Z) (a : Z) : fold_left Z.add l a = a + sum_Z l.
Proof.
  unfold sum_Z. revert a; induction l as [|x l IH]; intros a; cbn; [lia|].
  rewrite IH, (IH x). lia.
Qed.

Lemma sum_Z_lengths {A B} (f : A -> list B) (l : list A) :
  sum_Z (map (fun x => len_list (f x)) l) = len_list (flat_map f l).
Proof.
  induction l as [|x l IH]; [reflexivity|].
  cbn [map flat_map]. unfold sum_Z in *. cbn [fold_left].
  rewrite sum_Z_acc. unfold sum_Z. rewrite IH.
  unfold len_list. rewrite length_app. lia.
Qed.

(* ================================================================== *)
(** ** Properties of the categorized result *)
(* ================================================================== *)

Section CategorizedResult.

Variable cats : list category.
Variable other : category.
Variable prs : list pr.

Let bucket (c : text) : dict (list pr) :=
  sorted_desc pr_count
    (map (sorted_entry prs) (repos_of_category cats other prs c)).

Lemma section_of_cases (cat : category) :
  (repos_of_category cats other prs (name cat) = []
   /\ section_of cats other prs cat = [])
  \/ (repos_of_category cats other prs (name cat) <> []
      /\ section_of cats other prs cat
         = [(name cat, {| config := cat; repos := bucket (name cat) |})]).
Proof.
  unfold section_of, bucket.
  destruct (repos_of_category cats other prs (name cat)) as [|rn rns];
    [now left | right]. split; [discriminate | reflexivity].
Qed.

Lemma In_categorize_spec (c : text) (sec : section) :
  In (c, sec) (categorize_spec cats other prs) ->
  exists cat,
    In cat (cats ++ [other]) /\ c = name cat
    /\ repos_of_category cats other prs c <> []
    /\ sec = {| config := cat; repos := bucket c |}.
Proof.
  unfold categorize_spec. intros H.
  apply in_flat_map in H as (cat & Hcat & H).
  destruct (section_of_cases cat) as [[_ E]|[Hne E]]; rewrite E in H;
    [contradiction|].
  destruct H as [[= <- <-]|[]]. now exists cat.
Qed.

Lemma repos_of_category_In (c rn : text) :
  In rn (repos_of_category cats other prs c)
  <-> In rn (map repo prs) /\ category_name cats other rn = c.
Proof.
  unfold repos_of_category, repo_order.
  now rewrite filter_In, first_seen_In, text_eqb_eq.
Qed.

Lemma repos_of_category_used (c : text) :
  category_used cats other prs c
  = negb (match repos_of_category cats other prs c with
          | [] => true
          | _ :: _ => false
          end).
Proof.
  unfold category_used.
  destruct (repos_of_category cats other prs c) as [|rn rns] eqn:E; cbn.
  - destruct (existsb _ prs) eqn:Ex; [|reflexivity].
    apply existsb_exists in Ex as (p & Hp & Hc).
    apply text_eqb_eq in Hc.
    assert (In (repo p) (repos_of_category cats other prs c)) as Hin.
    { apply repos_of_category_In. split; [now apply in_map | assumption]. }
    rewrite E in Hin. contradiction.
  - assert (In rn (repos_of_category cats other prs c)) as Hin
        by (rewrite E; now left).
    apply repos_of_category_In in Hin as [Hin Hc].
    apply in_map_iff in Hin as (p & <- & Hp).
    apply existsb_exists. exists p. split; [assumption|].
    now apply text_eqb_eq.
Qed.

Lemma keys_categorize_spec :
  keys (categorize_spec cats other prs)
  = filter (category_used cats other prs) (map name (cats ++ [other])).
Proof.
  unfold categorize_spec, keys.
  induction (cats ++ [other]) as [|cat cs IH]; [reflexivity|].
  cbn [flat_map map filter]. rewrite map_app, IH.
  rewrite repos_of_category_used.
  destruct (section_of_cases cat) as [[E ->]|[Hne ->]].
  - now rewrite E.
  - destruct (repos_of_category cats other prs (name cat));
      [contradiction | reflexivity].
Qed.

Lemma bucket_keys_perm (c : text) :
  Permutation (keys (bucket c)) (repos_of_category cats other prs c).
Proof.
  unfold bucket, keys. rewrite sorted_desc_perm, map_map. cbn.
  now rewrite map_id.
Qed.

Lemma bucket_records_perm (c : text) :
  Permutation (flat_map snd (bucket c))
    (flat_map (repo_prs prs) (repos_of_category cats other prs c)).
Proof.
  unfold bucket. rewrite sorted_desc_perm, flat_map_map.
  apply flat_map_pointwise_perm. intros rn _. cbn.
  apply sorted_desc_perm.
Qed.

Lemma section_records (cat : category) :
  flat_map snd (flat_map (fun e => repos (snd e))
                  (section_of cats other prs cat))
  = flat_map snd (bucket (name cat)).
Proof.
  destruct (section_of_cases cat) as [[E ->]|[Hne ->]].
  - unfold bucket. now rewrite E.
  - cbn. now rewrite app_nil_r.
Qed.

Lemma section_buckets (cat : category) :
  flat_map (fun e => keys (repos (snd e))) (section_of cats other prs cat)
  = keys (bucket (name cat)).
Proof.
  destruct (section_of_cases cat) as [[E ->]|[Hne ->]].
  - unfold bucket. now rewrite E.
  - cbn. now rewrite app_nil_r.
Qed.

Hypothesis names_distinct : NoDup (map name (cats ++ [other])).

Lemma categories_partition :
  Permutation
    (flat_map (fun cat => repos_of_category cats other prs (name cat))
       (cats ++ [other]))
    (repo_order prs).
Proof.
  rewrite <- (partition_by_key (category_name cats other)
                (map name (cats ++ [other])) (repo_order prs)
                names_distinct).
  - rewrite flat_map_map. reflexivity.
  - intros rn _. unfold category_name. apply in_map.
    apply pick_category_In.
Qed.

Lemma repos_partition :
  Permutation (flat_map (repo_prs prs) (repo_order prs)) prs.
Proof.
  apply (partition_by_key repo).
  - apply first_seen_NoDup.
  - intros p Hp. apply first_seen_In. now apply in_map.
Qed.

Lemma all_buckets_perm :
  Permutation (all_buckets (categorize_spec cats other prs)) (repo_order prs).
Proof.
  unfold all_buckets, categorize_spec. rewrite flat_map_flat_map.
  rewrite <- categories_partition.
  apply flat_map_pointwise_perm. intros cat _.
  rewrite section_buckets. apply bucket_keys_perm.
Qed.

Lemma all_records_perm :
  Permutation (all_records (categorize_spec cats other prs)) prs.
Proof.
  etransitivity; [|apply repos_partition].
  unfold all_records, categorize_spec. rewrite !flat_map_flat_map.
  rewrite <- categories_partition. rewrite flat_map_flat_map.
  apply flat_map_pointwise_perm. intros cat _.
  rewrite <- flat_map_flat_map, section_records. apply bucket_records_perm.
Qed.

(** With a single repository in the input, the result holds its pull
    requests, highest number first. *)
Lemma all_records_single_repo (rn : text) :
  repo_order prs = [rn] ->
  all_records (categorize_spec cats other prs)
  = sorted_desc pr_number (repo_prs prs rn).
Proof.
  intros Hone. unfold all_records, categorize_spec.
  rewrite !flat_map_flat_map.
  rewrite (flat_map_ext _ (fun cat => flat_map snd (bucket (name cat)))).
  2:{ intros cat.
      rewrite <- (flat_map_flat_map (fun e => repos (snd e)) snd).
      apply section_records. }
  rewrite <- (flat_map_map name (fun c => flat_map snd (bucket c))).
  rewrite (flat_map_ext _
             (fun c => if text_eqb (category_name cats other rn) c
                       then sorted_desc pr_number (repo_prs prs rn)
                       else [])).
  - apply flat_map_single; [exact names_distinct|].
    unfold category_name. apply in_map, pick_category_In.
  - intros c. unfold bucket, repos_of_category. rewrite Hone. cbn [filter].
    destruct (text_eqb (category_name cats other rn) c); [|reflexivity].
    cbn. apply app_nil_r.
Qed.

Lemma total_prs_spec :
  total_prs (categorize_spec cats other prs) = len_list prs.
Proof.
  unfold total_prs. rewrite map_flat_map_out, sum_Z_lengths.
  fold (all_records (categorize_spec cats other prs)).
  unfold len_list. f_equal. apply Permutation_length, all_records_perm.
Qed.

End CategorizedResult.

(* ================================================================== *)
(** ** The categorizer on the configured rules *)
(* ================================================================== *)

Lemma CATEGORIES_names_distinct :
  NoDup (map name (CATEGORIES ++ [OTHER_CATEGORY])).
Proof.
  cbn [CATEGORIES OTHER_CATEGORY app map name].
  repeat constructor; cbn [In]; intros H;
    repeat (destruct H as [H|H]; [discriminate H|]); exact H.
Qed.

Lemma categorize_prs_spec (prs : list pr) :
  categorize_prs prs = categorize_spec CATEGORIES OTHER_CATEGORY prs.
Proof. apply categorize_in_spec, CATEGORIES_names_distinct. Qed.

(** C3.  A repository is assigned the first rule of [CATEGORIES] whose
    predicate accepts its full name, and "Other" when none does.  Every
    section of the result carries the category of its name, has at least one
    repository, and holds exactly the repositories of the input assigned to
    that category.  The section names are those of Odin, Vert.x and Other,
    in this order, without the categories no repository is assigned to. *)
Theorem categorize_first_match_and_order :
  forall prs : list pr,
    (forall rn : text,
        pick_category CATEGORIES OTHER_CATEGORY rn
        = match List.find (fun cat => matches cat rn) CATEGORIES with
          | Some cat => cat
          | None => OTHER_CATEGORY
          end)
    /\ (forall (c : text) (sec : section),
        In (c, sec) (categorize_prs prs) ->
        name (config sec) = c
        /\ In (config sec) (CATEGORIES ++ [OTHER_CATEGORY])
        /\ repos sec <> []
        /\ forall rn : text,
            In rn (keys (repos sec))
            <-> In rn (map repo prs)
                /\ name (pick_category CATEGORIES OTHER_CATEGORY rn) = c)
    /\ keys (categorize_prs prs)
       = filter (category_used CATEGORIES OTHER_CATEGORY prs)
           [str "Odin"; str "Vert.x"; str "Other"].
Proof.
  intros prs. split; [apply pick_category_find|]. split.
  - intros c sec Hin. rewrite categorize_prs_spec in Hin.
    apply In_categorize_spec in Hin as (cat & Hcat & -> & Hne & ->).
    cbn [config repos]. split; [reflexivity|]. split; [assumption|]. split.
    + intros H. apply sorted_desc_nil_inv, map_eq_nil in H. contradiction.
    + intros rn.
      rewrite <- (repos_of_category_In CATEGORIES OTHER_CATEGORY prs
                    (name cat) rn).
      split; apply Permutation_in;
        [|symmetry]; apply bucket_keys_perm.
  - rewrite categorize_prs_spec. apply keys_categorize_spec.
Qed.

Lemma categorize_first_match_and_order_witness :
  name (config {| config := vertx_category;
                  repos := [(str "eclipse-vertx/vertx-sql",
                             [sample_record])] |}) = str "Vert.x"
  /\ In (config {| config := vertx_category;
                   repos := [(str "eclipse-vertx/vertx-sql",
                              [sample_record])] |})
        (CATEGORIES ++ [OTHER_CATEGORY])
  /\ repos {| config := vertx_category;
              repos := [(str "eclipse-vertx/vertx-sql",
                         [sample_record])] |} <> []
  /\ forall rn : text,
      In rn (keys (repos {| config := vertx_category;
                            repos := [(str "eclipse-vertx/vertx-sql",
                                       [sample_record])] |}))
      <-> In rn (map repo [sample_record])
          /\ name (pick_category CATEGORIES OTHER_CATEGORY rn)
             = str "Vert.x".
Proof.
  apply (proj1 (proj2 (categorize_first_match_and_order [sample_record]))).
  left. vm_compute. reflexivity.
Defined.

Lemma filter_map_fst {A B} (f : A -> B) (g : B -> bool) (l : list A) :
  filter g (map f l) = map f (filter (fun x => g (f x)) l).
Proof.
  induction l as [|x l IH]; cbn; [reflexivity|].
  destruct (g (f x)); cbn; now rewrite IH.
Qed.

Lemma map_insert_desc {A} (key : A -> Z) (x : A) (l : list A) :
  map key (insert_desc key x l)
  = insert_desc (fun n => n) (key x) (map key l).
Proof.
  induction l as [|y l IH]; [reflexivity|].
  simpl. destruct (key y <=? key x); simpl; [reflexivity | now rewrite IH].
Qed.

Lemma map_sorted_desc {A} (key : A -> Z) (l : list A) :
  map key (sorted_desc key l) = sorted_desc (fun n => n) (map key l).
Proof.
  induction l as [|x l IH]; [reflexivity|].
  cbn [sorted_desc map]. now rewrite map_insert_desc, IH.
Qed.

(** C4.  In every section of the result the repositories stand in
    descending order of their number of pull requests, and repositories
    with the same number keep the order in which they first appear in the
    input; in every repository the pull requests stand in descending order
    of their number, those of equal number in input order.  Pull requests
    numbered 10, 3, 7 of one repository come out as 10, 7, 3. *)
Theorem categorize_orders_repos_and_prs :
  (forall (prs : list pr) (c : text) (sec : section),
      In (c, sec) (categorize_prs prs) ->
      descending pr_count (repos sec)
      /\ (forall n : Z,
             map fst (filter (fun e => pr_count e =? n) (repos sec))
             = filter (fun rn => len_list (repo_prs prs rn) =? n)
                 (repos_of_category CATEGORIES OTHER_CATEGORY prs c))
      /\ (forall (rn : text) (ps : list pr),
             In (rn, ps) (repos sec) ->
             descending pr_number ps
             /\ forall n : Z,
                 filter (fun p => pr_number p =? n) ps
                 = filter (fun p => pr_number p =? n) (repo_prs prs rn)))
  /\ (forall rn : text,
         map pr_number
           (all_records
              (categorize_prs [numbered rn 10; numbered rn 3; numbered rn 7]))
         = [10; 7; 3]).
Proof.
  split.
  - intros prs c sec Hin. rewrite categorize_prs_spec in Hin.
    apply In_categorize_spec in Hin as (cat & Hcat & -> & Hne & ->).
    cbn [config repos]. split; [apply sorted_desc_descending|]. split.
    + intros n. rewrite (sorted_desc_stable pr_count n).
      rewrite filter_map_fst, map_map. cbn [sorted_entry fst].
      rewrite map_id. apply filter_ext. intros rn.
      unfold pr_count, len_list, sorted_entry. cbn [snd].
      now rewrite sorted_desc_length.
    + intros rn ps Hps.
      apply (Permutation_in _ (sorted_desc_perm pr_count _)) in Hps.
      apply in_map_iff in Hps as (rn' & [= <- <-] & _).
      split; [apply sorted_desc_descending|].
      intros n. apply (sorted_desc_stable pr_number n).
  - intros rn. rewrite categorize_prs_spec.
    rewrite (all_records_single_repo CATEGORIES OTHER_CATEGORY _
               CATEGORIES_names_distinct rn).
    + rewrite map_sorted_desc. unfold repo_prs. cbn [filter numbered repo].
      rewrite !text_eqb_refl. reflexivity.
    + unfold repo_order. cbn [map numbered repo first_seen filter].
      rewrite !text_eqb_refl. reflexivity.
Qed.


Lemma categorize_orders_repos_and_prs_witness :
  descending pr_count (repos tied_section)
  /\ (forall n : Z,
         map fst (filter (fun e => pr_count e =? n) (repos tied_section))
         = filter (fun rn => len_list (repo_prs tied_prs rn) =? n)
             (repos_of_category CATEGORIES OTHER_CATEGORY tied_prs
                (str "Other")))
  /\ (forall (rn : text) (ps : list pr),
         In (rn, ps) (repos tied_section) ->
         descending pr_number ps
         /\ forall n : Z,
             filter (fun p => pr_number p =? n) ps
             = filter (fun p => pr_number p =? n) (repo_prs tied_prs rn)).
Proof.
  apply (proj1 categorize_orders_repos_and_prs tied_prs (str "Other")
           tied_section).
  left. vm_compute. reflexivity.
Defined.

(** C9.  The categorized result holds the pull requests of the input,
    each as often as the input does: the records of all buckets of all
    sections are a permutation of the input, and the per-repository counts
    add up to the length of the input.  No category and no repository
    appears twice in the result, and a record sits in the bucket of its own
    repository. *)
Theorem categorize_conserves_records :
  forall prs : list pr,
    Permutation (all_records (categorize_prs prs)) prs
    /\ total_prs (categorize_prs prs) = len_list prs
    /\ NoDup (keys (categorize_prs prs))
    /\ NoDup (all_buckets (categorize_prs prs))
    /\ (forall (c : text) (sec : section) (rn : text) (ps : list pr) (p : pr),
           In (c, sec) (categorize_prs prs) ->
           In (rn, ps) (repos sec) -> In p ps ->
           repo p = rn /\ In p prs).
Proof.
  intros prs. rewrite categorize_prs_spec.
  split; [apply all_records_perm, CATEGORIES_names_distinct|].
  split; [apply total_prs_spec, CATEGORIES_names_distinct|].
  split.
  { rewrite keys_categorize_spec.
    apply NoDup_filter, CATEGORIES_names_distinct. }
  split.
  { eapply Permutation_NoDup.
    - symmetry. apply all_buckets_perm, CATEGORIES_names_distinct.
    - apply first_seen_NoDup. }
  intros c sec rn ps p Hsec Hps Hp.
  apply In_categorize_spec in Hsec as (cat & Hcat & -> & Hne & ->).
  cbn [repos] in Hps.
  apply (Permutation_in _ (sorted_desc_perm pr_count _)) in Hps.
  apply in_map_iff in Hps as (rn' & [= <- <-] & _).
  apply (Permutation_in _ (sorted_desc_perm pr_number _)) in Hp.
  apply filter_In in Hp as [Hp Hrepo].
  apply text_eqb_eq in Hrepo. now split.
Qed.

Lemma categorize_conserves_records_witness :
  repo sample_record = str "eclipse-vertx/vertx-sql"
  /\ In sample_record [sample_record].
Proof.
  apply (proj2 (proj2 (proj2 (proj2
           (categorize_conserves_records [sample_record]))))
           (str "Vert.x") sample_section (str "eclipse-vertx/vertx-sql")
           [sample_record] sample_record).
  - left. vm_compute. reflexivity.
  - left. reflexivity.
  - left. reflexivity.
Defined.

(* ================================================================== *)
(** ** Patching twice *)
(* ================================================================== *)

Lemma join_cons (sep l : text) (rest : list text) :
  rest <> [] -> join sep (l :: rest) = l ++ sep ++ join sep rest.
Proof. destruct rest; [contradiction | reflexivity]. Qed.

Lemma join_snoc (sep x : text) (lines : list text) :
  lines <> [] -> join sep (lines ++ [x]) = join sep lines ++ sep ++ x.
Proof.
  induction lines as [|l lines IH]; [contradiction|]. intros _.
  destruct lines as [|l' lines].
  - reflexivity.
  - change ((l :: l' :: lines) ++ [x]) with (l :: ((l' :: lines) ++ [x])).
    rewrite join_cons by (destruct lines; discriminate).
    rewrite IH by discriminate.
    rewrite (join_cons sep l (l' :: lines)) by discriminate.
    now rewrite <- !app_assoc.
Qed.

Lemma join_first_last (sep first last : text) (mids : list text) :
  mids <> [] ->
  join sep (first :: mids ++ [last])
  = first ++ sep ++ join sep mids ++ sep ++ last.
Proof.
  intros H. rewrite join_cons by (destruct mids; discriminate).
  now rewrite join_snoc.
Qed.

(** The fragment begins with the line of the start marker and ends with
    the line of the end marker. *)
Lemma fragment_shape (categorized : dict section) :
  generate_contributions_html categorized
  = (indent6 ++ START_MARKER) ++ [nl] ++ fragment_middle categorized
    ++ [nl] ++ (indent6 ++ END_MARKER).
Proof.
  unfold generate_contributions_html, fragment_middle.
  rewrite <- join_first_last by discriminate.
  f_equal. unfold html_lines. cbn [app].
  rewrite <- !app_assoc. reflexivity.
Qed.

Lemma first_at_found (sub s : text) (n : nat) :
  first_at sub s n -> find sub s <> -1.
Proof. intros H. rewrite (find_first_at _ _ _ H). lia. Qed.

Lemma START_MARKER_head : nth_error START_MARKER 0 = Some (chr "<").
Proof. reflexivity. Qed.

(** After a patch, the first start marker is the one of the fragment. *)
Lemma first_START_after (pre indent rest tail : text) :
  first_at START_MARKER (pre ++ indent ++ rest) (length (pre ++ indent)) ->
  (exists p, pre = p ++ [nl]) ->
  first_at START_MARKER (pre ++ (indent6 ++ START_MARKER) ++ tail)
    (length (pre ++ indent6)).
Proof.
  intros (_ & _ & Hmin) [p ->].
  replace ((p ++ [nl]) ++ (indent6 ++ START_MARKER) ++ tail)
    with (((p ++ [nl]) ++ indent6) ++ START_MARKER ++ tail)
    by (now rewrite <- !app_assoc).
  split; [rewrite !length_app; lia|].
  split; [apply occurs_at_app|].
  intros m Hm Hocc.
  rewrite <- (app_assoc (p ++ [nl])) in Hocc.
  rewrite (length_app (p ++ [nl])) in Hm.
  rewrite (length_app p) in Hm. cbn [length] in Hm.
  destruct (Nat.lt_ge_cases m (length (p ++ [nl]))) as [Hlt|Hge].
  - rewrite length_app in Hlt. cbn [length] in Hlt.
    destruct (occurs_at_avoids _ _ m (length p) nl START_MARKER_no_nl Hocc
                (nth_error_last_nl p _)) as [H|H]; [lia|].
    apply occurs_at_app_l in Hocc;
      [|rewrite length_app; cbn [length]; lia].
    apply (Hmin m); [rewrite !length_app; cbn [length]; lia|].
    apply occurs_at_app_l; [rewrite length_app; cbn [length]; lia|].
    exact Hocc.
  - rewrite length_app in Hge. cbn [length] in Hge.
    assert (exists j, m = (length (p ++ [nl]) + j)%nat /\ (j < 6)%nat)
      as (j & -> & Hj).
    { exists (m - (length p + 1))%nat. rewrite length_app. cbn [length].
      change (length indent6) with 6%nat in Hm. lia. }
    apply occurs_at_app_r in Hocc.
    rewrite occurs_at_nth in Hocc. specialize (Hocc 0%nat).
    rewrite START_MARKER_head, Nat.add_0_r in Hocc.
    destruct j as [|[|[|[|[|[|j]]]]]];
      try (cbn in Hocc; discriminate Hocc;
           change (length START_MARKER) with 28%nat; lia).
    lia.
Qed.

(** After a patch with a fragment whose first end marker is its last 26
    characters, the first end marker of the document is that one. *)
Lemma first_END_after (pre indent rest frag0 post : text) (e0 : nat) :
  first_at END_MARKER (pre ++ indent ++ rest) e0 ->
  (length pre <= e0 + length END_MARKER)%nat ->
  (exists p, pre = p ++ [nl]) ->
  first_at END_MARKER (frag0 ++ END_MARKER) (length frag0) ->
  first_at END_MARKER (pre ++ (frag0 ++ END_MARKER) ++ post)
    (length pre + length frag0).
Proof.
  intros (_ & _ & Hmin) Hle [p ->] (_ & _ & Hfrag).
  change (length END_MARKER) with 26%nat in *.
  replace ((p ++ [nl]) ++ (frag0 ++ END_MARKER) ++ post)
    with (((p ++ [nl]) ++ frag0) ++ END_MARKER ++ post)
    by (now rewrite <- !app_assoc).
  split; [rewrite !length_app; lia|].
  split; [rewrite <- length_app; apply occurs_at_app|].
  intros m Hm Hocc.
  rewrite <- (app_assoc (p ++ [nl])) in Hocc.
  rewrite (length_app p) in *. cbn [length] in *.
  destruct (Nat.lt_ge_cases m (length p + 1)) as [Hlt|Hge].
  - destruct (occurs_at_avoids _ _ m (length p) nl END_MARKER_no_nl Hocc
                (nth_error_last_nl p _)) as [H|H]; [lia|].
    change (length END_MARKER) with 26%nat in H.
    apply occurs_at_app_l in Hocc;
      [|rewrite length_app; cbn [length];
        change (length END_MARKER) with 26%nat; lia].
    destruct (Nat.lt_ge_cases m e0) as [Hm0|Hm0]; [|lia].
    apply (Hmin m Hm0).
    apply occurs_at_app_l;
      [rewrite length_app; cbn [length];
       change (length END_MARKER) with 26%nat; lia|].
    exact Hocc.
  - assert (exists j, m = (length (p ++ [nl]) + j)%nat
                      /\ (j < length frag0)%nat) as (j & -> & Hj).
    { exists (m - (length p + 1))%nat. rewrite length_app. cbn [length].
      lia. }
    apply occurs_at_app_r in Hocc.
    rewrite (app_assoc frag0 END_MARKER post) in Hocc.
    apply occurs_at_app_l in Hocc;
      [|rewrite length_app; change (length END_MARKER) with 26%nat; lia].
    apply (Hfrag j); [lia | exact Hocc].
Qed.

Lemma occurs_infix (sub s : text) (n : nat) :
  occurs_at sub s n -> infix_of sub s.
Proof.
  intros H. destruct (starts_with_inv _ _ H) as [rest E].
  exists (firstn n s), rest. rewrite <- E. symmetry. apply firstn_skipn.
Qed.

Lemma utf8_encodable_app (a b : text) :
  utf8_encodable (a ++ b) = utf8_encodable a && utf8_encodable b.
Proof. apply forallb_app. Qed.

Lemma utf8_universal_newlines (b : bool) (t : text) :
  utf8_encodable t = true ->
  utf8_encodable (universal_newlines_from b t) = true.
Proof.
  revert b; induction t as [|c t IH]; intros b H; [reflexivity|].
  cbn [utf8_encodable forallb] in H. apply andb_true_iff in H as [Hc Ht].
  cbn [universal_newlines_from].
  destruct (N.eqb c cr); [cbn; now apply IH|].
  destruct (N.eqb c nl && b); [now apply IH|].
  cbn [utf8_encodable forallb]. rewrite Hc. now apply IH.
Qed.

(** A fragment whose first end marker is its last 26 characters is read
    back as such a fragment. *)
Lemma first_END_read_back (f0 : text) :
  first_at END_MARKER (f0 ++ END_MARKER) (length f0) ->
  first_at END_MARKER (universal_newlines_from false f0 ++ END_MARKER)
    (length (universal_newlines_from false f0)).
Proof.
  intros (_ & _ & Hmin).
  set (f0' := universal_newlines_from false f0).
  set (e25 := removelast END_MARKER).
  assert (END_MARKER = e25 ++ [chr ">"]) as Ee by reflexivity.
  assert (length e25 = 25%nat) as L25 by reflexivity.
  assert (universal_newlines_from false (f0 ++ e25) = f0' ++ e25) as Etr.
  { rewrite <- (app_nil_r e25) at 1.
    rewrite universal_newlines_around;
      [now rewrite app_nil_r|discriminate|not_in_literal|not_in_literal]. }
  split; [rewrite length_app; lia|].
  split.
  { rewrite <- (app_nil_r END_MARKER). apply occurs_at_app. }
  intros m Hm Hocc.
  replace (f0' ++ END_MARKER) with ((f0' ++ e25) ++ [chr ">"]) in Hocc
    by (now rewrite <- app_assoc).
  apply occurs_at_app_l in Hocc;
    [|rewrite length_app, L25; change (length END_MARKER) with 26%nat; lia].
  apply occurs_infix in Hocc. rewrite <- Etr in Hocc.
  apply universal_newlines_infix in Hocc; [|not_in_literal|not_in_literal].
  destruct Hocc as (a & c & E).
  assert (length f0 + 25 = length a + 26 + length c)%nat as Hlen.
  { apply (f_equal (@length char)) in E. rewrite !length_app, L25 in E.
    change (length END_MARKER) with 26%nat in E. lia. }
  apply (Hmin (length a)); [lia|].
  replace (f0 ++ END_MARKER) with ((f0 ++ e25) ++ [chr ">"])
    by (now rewrite <- app_assoc).
  rewrite E.
  apply occurs_at_app_l;
    [rewrite !length_app; change (length END_MARKER) with 26%nat; lia|].
  apply occurs_at_app.
Qed.

(** Patching twice: the second patch finds the fragment of the first one
    where the region was, and writes the same text again. *)
Lemma patch_twice (path frag0 : text) (w : world) (pre indent rest : text) :
  let frag := (indent6 ++ START_MARKER) ++ frag0 ++ END_MARKER in
  file_text w = pre ++ indent ++ rest ->
  find START_MARKER (file_text w) = len (pre ++ indent) ->
  ~ In nl indent ->
  (exists p, pre = p ++ [nl]) ->
  find END_MARKER (file_text w) <> -1 ->
  len pre <= find END_MARKER (file_text w) + len END_MARKER ->
  find END_MARKER frag = len frag - len END_MARKER ->
  exists region post,
    indent ++ rest = region ++ post
    /\ update_index_html path frag w
       = write_and_report path (pre ++ frag ++ post) w
    /\ (utf8_encodable (pre ++ frag ++ post) = true ->
        update_index_html path frag (patched path frag w)
        = write_and_report path (pre ++ frag ++ post)
            (patched path frag w)).
Proof.
  intros frag Hc Hs Hnl Hpre He Hle Hfrag.
  destruct (patch_splice path frag w pre indent rest Hc Hs Hnl
              (or_intror Hpre) He Hle) as (region & post & Hsp & _ & Hrun).
  exists region, post. split; [exact Hsp|]. split; [exact Hrun|].
  intros Henc.
  assert (index_html (patched path frag w) = pre ++ frag ++ post) as H1.
  { unfold patched. rewrite Hrun, write_and_report_ok by assumption.
    reflexivity. }
  (* what is read has no carriage return *)
  assert (~ In cr (pre ++ indent ++ rest)) as Hnocr.
  { rewrite <- Hc. apply universal_newlines_no_cr. }
  assert (~ In cr pre) as Hprecr.
  { intros Hin. apply Hnocr. apply in_or_app. now left. }
  assert (~ In cr post) as Hpostcr.
  { intros Hin. apply Hnocr. apply in_or_app. right. rewrite Hsp.
    apply in_or_app. now right. }
  (* where the markers are in the original document *)
  assert (first_at START_MARKER (pre ++ indent ++ rest)
            (length (pre ++ indent))) as Hs0.
  { rewrite <- Hc.
    replace (length (pre ++ indent))
      with (Z.to_nat (find START_MARKER (file_text w)))
      by (rewrite Hs; unfold len; lia).
    apply find_found. rewrite Hs. pose proof (len_nonneg (pre ++ indent)).
    lia. }
  destruct (find_found _ _ He) as [He0 He1].
  (* where they are in the fragment, as written and as read back *)
  set (f0 := (indent6 ++ START_MARKER) ++ frag0) in *.
  assert (frag = f0 ++ END_MARKER) as Ef
    by (unfold frag, f0; now rewrite <- !app_assoc).
  assert (first_at END_MARKER (f0 ++ END_MARKER) (length f0)) as Hf1.
  { rewrite <- Ef.
    replace (length f0) with (Z.to_nat (find END_MARKER frag)).
    - apply find_found. rewrite Hfrag, Ef, len_app.
      pose proof (len_nonneg f0). lia.
    - rewrite Hfrag, Ef, len_app. unfold len. lia. }
  apply first_END_read_back in Hf1.
  set (frag0' := universal_newlines_from false frag0).
  assert (universal_newlines_from false f0
          = (indent6 ++ START_MARKER) ++ frag0') as Ef0.
  { unfold f0. apply universal_newlines_app_plain. not_in_literal. }
  rewrite Ef0 in Hf1.
  set (f0' := (indent6 ++ START_MARKER) ++ frag0') in *.
  (* the patched document, as read *)
  assert (file_text (patched path frag w)
          = pre ++ indent6 ++ (START_MARKER ++ frag0' ++ END_MARKER ++ post))
    as Hc1.
  { unfold file_text, universal_newlines. rewrite H1, Ef.
    rewrite universal_newlines_app_plain by assumption.
    rewrite <- (app_assoc f0).
    rewrite universal_newlines_around;
      [|discriminate|not_in_literal|not_in_literal].
    rewrite Ef0, (universal_newlines_plain post Hpostcr).
    unfold f0'. now rewrite <- !app_assoc. }
  assert (first_at START_MARKER (file_text (patched path frag w))
            (length (pre ++ indent6))) as Hs1.
  { rewrite Hc1.
    replace (pre ++ indent6 ++ START_MARKER ++ frag0' ++ END_MARKER ++ post)
      with (pre ++ (indent6 ++ START_MARKER)
              ++ (frag0' ++ END_MARKER ++ post))
      by (now rewrite <- !app_assoc).
    now apply (first_START_after pre indent rest). }
  assert (first_at END_MARKER (file_text (patched path frag w))
            (length pre + length f0')) as He2.
  { rewrite Hc1.
    replace (pre ++ indent6 ++ START_MARKER ++ frag0' ++ END_MARKER ++ post)
      with (pre ++ (f0' ++ END_MARKER) ++ post)
      by (unfold f0'; now rewrite <- !app_assoc).
    apply (first_END_after pre indent rest f0' post
             (Z.to_nat (find END_MARKER (file_text w)))); auto.
    - rewrite <- Hc. exact He1.
    - unfold len in Hle. lia. }
  destruct (patch_splice path frag (patched path frag w) pre indent6
              (START_MARKER ++ frag0' ++ END_MARKER ++ post) Hc1)
    as (region' & post' & Hsplit & Hlen & Hrun').
  - rewrite (find_first_at _ _ _ Hs1). reflexivity.
  - not_in_literal.
  - now right.
  - now apply first_at_found in He2.
  - rewrite (find_first_at _ _ _ He2). unfold len. lia.
  - rewrite Hrun'. do 3 f_equal.
    rewrite (find_first_at _ _ _ He2) in Hlen.
    assert (indent6 ++ START_MARKER ++ frag0' ++ END_MARKER ++ post
            = (f0' ++ END_MARKER) ++ post) as E
      by (unfold f0'; now rewrite <- !app_assoc).
    rewrite E in Hsplit. symmetry in Hsplit.
    apply app_same_length in Hsplit; [now destruct Hsplit|].
    rewrite len_app in Hlen. unfold len in Hlen.
    rewrite length_app. change (length END_MARKER) with 26%nat.
    change (Z.of_nat (length END_MARKER)) with 26 in Hlen. lia.
Qed.

(** What two patches leave, whether or not the text can be encoded. *)
Lemma patch_twice_same (path frag0 : text) (w : world)
    (pre indent rest : text) :
  let frag := (indent6 ++ START_MARKER) ++ frag0 ++ END_MARKER in
  file_text w = pre ++ indent ++ rest ->
  find START_MARKER (file_text w) = len (pre ++ indent) ->
  ~ In nl indent ->
  (exists p, pre = p ++ [nl]) ->
  find END_MARKER (file_text w) <> -1 ->
  len pre <= find END_MARKER (file_text w) + len END_MARKER ->
  find END_MARKER frag = len frag - len END_MARKER ->
  index_html (patched path frag (patched path frag w))
  = index_html (patched path frag w)
  /\ (fst (update_index_html path frag w) = Ok tt ->
      fst (update_index_html path frag (patched path frag w)) = Ok tt)
  /\ (utf8_encodable (index_html w) = true ->
      utf8_encodable frag = true ->
      fst (update_index_html path frag w) = Ok tt).
Proof.
  intros frag Hc Hs Hnl Hpre He Hle Hfrag.
  destruct (patch_twice path frag0 w pre indent rest Hc Hs Hnl Hpre He Hle
              Hfrag) as (region & post & Hsp & Hrun & Hrun2).
  fold frag in Hrun, Hrun2.
  destruct (utf8_encodable (pre ++ frag ++ post)) eqn:Henc.
  - specialize (Hrun2 eq_refl).
    assert (index_html (patched path frag w) = pre ++ frag ++ post) as H1.
    { unfold patched. rewrite Hrun, write_and_report_ok by assumption.
      reflexivity. }
    split; [|split].
    + unfold patched at 1. rewrite Hrun2, write_and_report_ok by assumption.
      now rewrite H1.
    + intros _. rewrite Hrun2, write_and_report_ok by assumption.
      reflexivity.
    + intros _ _. rewrite Hrun, write_and_report_ok by assumption.
      reflexivity.
  - assert (index_html (patched path frag w) = []) as H1.
    { unfold patched. rewrite Hrun, write_and_report_fails by assumption.
      reflexivity. }
    split; [|split].
    + unfold patched at 1.
      rewrite (update_index_html_missing path frag (patched path frag w)).
      * reflexivity.
      * left. unfold file_text. now rewrite H1.
    + rewrite Hrun, write_and_report_fails by assumption. discriminate.
    + intros Hfile Hfr. exfalso.
      apply (utf8_universal_newlines false) in Hfile.
      fold (universal_newlines (index_html w)) in Hfile.
      fold (file_text w) in Hfile. rewrite Hc, Hsp in Hfile.
      rewrite !utf8_encodable_app in Hfile, Henc.
      apply andb_true_iff in Hfile as [Hpe Hrp].
      apply andb_true_iff in Hrp as [_ Hpo].
      rewrite Hpe, Hfr, Hpo in Henc. discriminate.
Qed.

(** C8 (as amended).  Every rendered fragment begins with the line of the
    start marker (six spaces and the marker) and ends with the line of the
    end marker.  Hence, for a document that is read (in text mode, with
    universal newlines) with its first start marker on a line after the
    first, with newline-free indentation [indent] before it and the lines
    [pre] above it, whose first end marker does not end before [pre] does,
    and for a rendered fragment in which the end marker does not occur
    before its last line, the second patch leaves the document as the first
    one made it, and returns normally when the first one did; the first one
    does when UTF-8 can encode the document and the fragment. *)
Theorem patch_idempotent_on_rendered_fragment :
  (forall c : dict section,
      generate_contributions_html c
      = (indent6 ++ START_MARKER) ++ [nl] ++ fragment_middle c
        ++ [nl] ++ (indent6 ++ END_MARKER))
  /\
  (forall (path : text) (c : dict section) (w : world)
          (pre indent rest : text),
      file_text w = pre ++ indent ++ rest ->
      find START_MARKER (file_text w) = len (pre ++ indent) ->
      ~ In nl indent ->
      (exists p, pre = p ++ [nl]) ->
      find END_MARKER (file_text w) <> -1 ->
      len pre <= find END_MARKER (file_text w) + len END_MARKER ->
      find END_MARKER (generate_contributions_html c)
        = len (generate_contributions_html c) - len END_MARKER ->
      index_html
        (patched path (generate_contributions_html c)
           (patched path (generate_contributions_html c) w))
      = index_html (patched path (generate_contributions_html c) w)
      /\ (fst (update_index_html path (generate_contributions_html c) w)
          = Ok tt ->
          fst (update_index_html path (generate_contributions_html c)
                 (patched path (generate_contributions_html c) w)) = Ok tt)
      /\ (utf8_encodable (index_html w) = true ->
          utf8_encodable (generate_contributions_html c) = true ->
          fst (update_index_html path (generate_contributions_html c) w)
          = Ok tt)).
Proof.
  split; [exact fragment_shape|].
  intros path c w pre indent rest Hc Hs Hnl Hpre He Hle.
  assert (generate_contributions_html c
          = (indent6 ++ START_MARKER)
            ++ ([nl] ++ fragment_middle c ++ [nl] ++ indent6)
            ++ END_MARKER) as ->.
  { rewrite fragment_shape. now rewrite <- !app_assoc. }
  intros Hfrag. now apply (patch_twice_same path _ w pre indent rest).
Qed.

Lemma patch_idempotent_on_rendered_fragment_witness :
  index_html
    (patched (str "index.html") sample_fragment
       (patched (str "index.html") sample_fragment
          (file_world example_doc)))
  = index_html (patched (str "index.html") sample_fragment
                  (file_world example_doc))
  /\ (fst (update_index_html (str "index.html") sample_fragment
             (file_world example_doc)) = Ok tt ->
      fst (update_index_html (str "index.html") sample_fragment
             (patched (str "index.html") sample_fragment
                (file_world example_doc))) = Ok tt)
  /\ (utf8_encodable (index_html (file_world example_doc)) = true ->
      utf8_encodable sample_fragment = true ->
      fst (update_index_html (str "index.html") sample_fragment
             (file_world example_doc)) = Ok tt).
Proof.
  apply (proj2 patch_idempotent_on_rendered_fragment (str "index.html")
           (categorize_prs [sample_record]) (file_world example_doc)
           (str "PREFIX" ++ [nl]) (str "  ")
           (START_MARKER ++ [nl] ++ str "OLD" ++ [nl] ++ END_MARKER
              ++ [nl] ++ str "SUFFIX")).
  - vm_compute; reflexivity.
  - vm_compute; reflexivity.
  - not_in_literal.
  - exists (str "PREFIX"). reflexivity.
  - vm_compute; discriminate.
  - vm_compute; discriminate.
  - vm_compute; reflexivity.
Defined.

(** Against C8 as stated: patching twice differs from patching once (a)
    on a document whose end marker comes before its start marker, and (b)
    on the example document with a fragment that holds the end marker
    inside a repository name: both documents contain both markers, and the
    second patch makes the document longer. *)
Lemma patch_twice_counterexample :
  (find START_MARKER swapped_doc <> -1
   /\ find END_MARKER swapped_doc <> -1
   /\ index_html
        (patched (str "index.html") sample_fragment
           (patched (str "index.html") sample_fragment
              (file_world swapped_doc)))
      <> index_html (patched (str "index.html") sample_fragment
                       (file_world swapped_doc)))
  /\
  (find START_MARKER example_doc <> -1
   /\ find END_MARKER example_doc <> -1
   /\ index_html
        (patched (str "index.html") odd_fragment
           (patched (str "index.html") odd_fragment
              (file_world example_doc)))
      <> index_html (patched (str "index.html") odd_fragment
                       (file_world example_doc))).
Proof.
  split; (split; [vm_compute; discriminate|]);
    (split; [vm_compute; discriminate|]);
    intros H; apply (f_equal (@length char)) in H;
    vm_compute in H; discriminate H.
Qed.

(** On a document whose start marker stands on the first line, every
    patch puts the six spaces of the fragment's first line after the
    position it keeps, so a second patch indents the fragment again. *)
Example patch_twice_first_line_indents_again :
  index_html (patched (str "index.html") sample_fragment
                (file_world first_line_doc))
    = str "  " ++ sample_fragment
  /\ index_html
       (patched (str "index.html") sample_fragment
          (patched (str "index.html") sample_fragment
             (file_world first_line_doc)))
     = str "  " ++ indent6 ++ sample_fragment.
Proof. split; vm_compute; reflexivity. Qed.

(* ================================================================== *)
(** ** Effects of the client: what it leaves alone, how much it asks *)
(* ================================================================== *)

Lemma writes_app (l l' : list event) : writes (l ++ l') = writes l ++ writes l'.
Proof. unfold writes. apply flat_map_app. Qed.

Lemma quiet_ret {A} (a : A) : quiet (ret a).
Proof. intros w. cbn. auto. Qed.

Lemma quiet_raise {A} (e : exception) : quiet (@raise A e).
Proof. intros w. cbn. auto. Qed.

Lemma quiet_sys_exit {A} (code : Z) : quiet (@sys_exit A code).
Proof. intros w. cbn. auto. Qed.

Lemma quiet_bind {A B} (m : M A) (k : A -> M B) :
  quiet m -> (forall a, quiet (k a)) -> quiet (bind m k).
Proof.
  intros Hm Hk w. unfold bind. specialize (Hm w).
  destruct (m w) as [[a| | |] w1]; cbn [snd] in *; try exact Hm.
  destruct (Hk a w1) as (H1 & H2 & H3). destruct Hm as (G1 & G2 & G3).
  repeat split; congruence.
Qed.

Lemma quiet_print (line : text) : quiet (print line).
Proof.
  intros w. cbn. rewrite writes_app. cbn. now rewrite app_nil_r.
Qed.

Lemma quiet_sleep (secs : Z) : quiet (sleep secs).
Proof.
  intros w. unfold sleep.
  destruct ((secs <? - SLEEP_MAX) || (SLEEP_MAX <? secs)); [cbn; auto|].
  destruct (secs <? 0); cbn; auto.
  rewrite writes_app. cbn. now rewrite app_nil_r.
Qed.

Lemma quiet_urlopen (u : request) (h : list (text * text)) :
  quiet (urlopen u h).
Proof.
  intros w. cbn. rewrite writes_app. cbn. now rewrite app_nil_r.
Qed.

Lemma quiet_read_index : quiet read_index.
Proof. intros w. cbn. auto. Qed.

Section QuietClient.

Variable py_int : text -> option Z.

Lemma quiet_int_of (s : text) : quiet (int_of py_int s).
Proof.
  unfold int_of. destruct (py_int s); [apply quiet_ret | apply quiet_raise].
Qed.

Lemma quiet_index {A} (l : list A) (i : nat) : quiet (index l i).
Proof.
  unfold index. destruct (nth_error l i); [apply quiet_ret | apply quiet_raise].
Qed.

Lemma quiet_github_request_attempts (k : nat) (u : request)
    (h : list (text * text)) :
  quiet (github_request_attempts py_int k u h).
Proof.
  induction k as [|k IH]; cbn [github_request_attempts].
  - apply quiet_bind; [apply quiet_print | intros; apply quiet_sys_exit].
  - apply quiet_bind; [apply quiet_urlopen|].
    intros [data|code header body]; [apply quiet_ret|].
    destruct ((code =? 403) || (code =? 429)).
    + apply quiet_bind; [apply quiet_int_of|]. intros d.
      apply quiet_bind; [apply quiet_print|]. intros _.
      apply quiet_bind; [apply quiet_sleep|]. intros _. exact IH.
    + apply quiet_bind; [apply quiet_print|]. intros _.
      apply quiet_bind; [apply quiet_print|]. intros _.
      apply quiet_sys_exit.
Qed.

Lemma quiet_collect (its : list item) (acc : list pr) :
  quiet (collect py_int its acc).
Proof.
  revert acc; induction its as [|it its IH]; intros acc; cbn [collect].
  - apply quiet_ret.
  - apply quiet_bind; [apply quiet_index|]. intros owner.
    apply quiet_bind; [apply quiet_index|]. intros rn.
    apply quiet_bind; [apply quiet_index|]. intros num.
    apply quiet_bind; [apply quiet_int_of|]. intros n.
    destruct (mem _ _); apply IH.
Qed.

Lemma quiet_fetch_loop (fuel : nat) (page : Z) (acc : list pr) :
  quiet (fetch_loop py_int fuel page acc).
Proof.
  revert page acc; induction fuel as [|fuel IH]; intros page acc;
    cbn [fetch_loop].
  - intros w. cbn. auto.
  - apply quiet_bind; [apply quiet_github_request_attempts|]. intros data.
    destruct (items data) as [[|it its]|]; try apply quiet_ret.
    apply quiet_bind; [apply quiet_collect|]. intros acc'.
    destruct (_ || _); [apply quiet_ret | apply IH].
Qed.

Lemma quiet_fetch_merged_prs : quiet (fetch_merged_prs py_int).
Proof.
  unfold fetch_merged_prs.
  apply quiet_bind; [apply quiet_fetch_loop|]. intros prs.
  apply quiet_bind; [apply quiet_print | intros; apply quiet_ret].
Qed.

End QuietClient.

(** Only the write to index.html can end with a [UnicodeEncodeError]. *)
Lemma never_raises_bind {A B} (e : exception) (m : M A) (k : A -> M B) :
  never_raises e m -> (forall a, never_raises e (k a)) ->
  never_raises e (bind m k).
Proof.
  intros Hm Hk w. unfold bind. specialize (Hm w).
  destruct (m w) as [[a| |e'|] w1]; cbn [fst] in *;
    [apply Hk | discriminate | | discriminate].
  intros [= E]. apply Hm. now rewrite E.
Qed.

Section EncodingErrors.

Variable py_int : text -> option Z.

Lemma safe_print (line : text) :
  never_raises UnicodeEncodeError (print line).
Proof. intros w. cbn. discriminate. Qed.

Lemma safe_sleep (secs : Z) :
  never_raises UnicodeEncodeError (sleep secs).
Proof.
  intros w. unfold sleep.
  destruct ((secs <? - SLEEP_MAX) || (SLEEP_MAX <? secs));
    [cbn; discriminate|].
  destruct (secs <? 0); cbn; discriminate.
Qed.

Lemma safe_int_of (s : text) :
  never_raises UnicodeEncodeError (int_of py_int s).
Proof. intros w. unfold int_of. destruct (py_int s); cbn; discriminate. Qed.

Lemma safe_index {A} (l : list A) (i : nat) :
  never_raises UnicodeEncodeError (index l i).
Proof. intros w. unfold index. destruct (nth_error l i); cbn; discriminate. Qed.

Lemma safe_github_request_attempts (k : nat) (u : request)
    (h : list (text * text)) :
  never_raises UnicodeEncodeError (github_request_attempts py_int k u h).
Proof.
  induction k as [|k IH]; cbn [github_request_attempts].
  - apply never_raises_bind; [apply safe_print|].
    intros _ w. cbn. discriminate.
  - apply never_raises_bind; [intros w; cbn; discriminate|].
    intros [data|code header body]; [intros w; cbn; discriminate|].
    destruct ((code =? 403) || (code =? 429)).
    + apply never_raises_bind; [apply safe_int_of|]. intros d.
      apply never_raises_bind; [apply safe_print|]. intros _.
      apply never_raises_bind; [apply safe_sleep|]. intros _. exact IH.
    + apply never_raises_bind; [apply safe_print|]. intros _.
      apply never_raises_bind; [apply safe_print|]. intros _.
      intros w. cbn. discriminate.
Qed.

Lemma safe_collect (its : list item) (acc : list pr) :
  never_raises UnicodeEncodeError (collect py_int its acc).
Proof.
  revert acc; induction its as [|it its IH]; intros acc; cbn [collect].
  - intros w. cbn. discriminate.
  - apply never_raises_bind; [apply safe_index|]. intros owner.
    apply never_raises_bind; [apply safe_index|]. intros rn.
    apply never_raises_bind; [apply safe_index|]. intros num.
    apply never_raises_bind; [apply safe_int_of|]. intros n.
    destruct (mem _ _); apply IH.
Qed.

Lemma safe_fetch_loop (fuel : nat) (page : Z) (acc : list pr) :
  never_raises UnicodeEncodeError (fetch_loop py_int fuel page acc).
Proof.
  revert page acc; induction fuel as [|fuel IH]; intros page acc;
    cbn [fetch_loop].
  - intros w. cbn. discriminate.
  - apply never_raises_bind; [apply safe_github_request_attempts|].
    intros data.
    destruct (items data) as [[|it its]|];
      try (intros w; cbn; discriminate).
    apply never_raises_bind; [apply safe_collect|]. intros acc'.
    destruct (_ || _); [intros w; cbn; discriminate | apply IH].
Qed.

Lemma fetch_never_unicode_error (w : world) :
  fst (fetch_merged_prs py_int w) <> Raise UnicodeEncodeError.
Proof.
  revert w. unfold fetch_merged_prs.
  apply never_raises_bind; [apply safe_fetch_loop|]. intros prs.
  apply never_raises_bind; [apply safe_print|].
  intros _ w. cbn. discriminate.
Qed.

End EncodingErrors.

(* ================================================================== *)
(** ** The entry point *)
(* ================================================================== *)

(** The patcher writes once when it returns, leaves the file empty when
    the write fails, and does not touch it when it exits. *)
Lemma update_index_html_writes (path new : text) (w : world) :
  (fst (update_index_html path new w) = Ok tt
   /\ writes (log (snd (update_index_html path new w)))
      = writes (log w) ++ [index_html (snd (update_index_html path new w))])
  \/ (fst (update_index_html path new w) = Raise UnicodeEncodeError
      /\ index_html (snd (update_index_html path new w)) = []
      /\ writes (log (snd (update_index_html path new w))) = writes (log w))
  \/ (fst (update_index_html path new w) = Exit 1
      /\ index_html (snd (update_index_html path new w)) = index_html w
      /\ writes (log (snd (update_index_html path new w))) = writes (log w)).
Proof.
  destruct (Z.eq_dec (find START_MARKER (file_text w)) (-1)) as [Hs|Hs];
    [|destruct (Z.eq_dec (find END_MARKER (file_text w)) (-1)) as [He|He]].
  - right. right.
    rewrite (update_index_html_missing path new w (or_introl Hs)).
    cbn. rewrite writes_app. cbn. now rewrite app_nil_r.
  - right. right.
    rewrite (update_index_html_missing path new w (or_intror He)).
    cbn. rewrite writes_app. cbn. now rewrite app_nil_r.
  - rewrite (update_index_html_run path new w Hs He).
    match goal with
    | |- context [write_and_report path ?c w] =>
        destruct (utf8_encodable c) eqn:Henc
    end.
    + left. rewrite write_and_report_ok by assumption.
      cbn [fst snd log index_html]. split; [reflexivity|].
      rewrite !writes_app. cbn. now rewrite app_nil_r.
    + right. left. rewrite write_and_report_fails by assumption.
      cbn [fst snd log index_html]. repeat split.
      rewrite writes_app. cbn. now rewrite app_nil_r.
Qed.

(** The line [main] prints before patching. *)
Lemma main_run (path : text) (py_int : text -> option Z) (w : world) :
  main path py_int w
  = match fetch_merged_prs py_int w with
    | (Ok [], w1) =>
        (Exit 0,
         after w1 0
           [Print (str "Warning: No merged PRs found. Skipping update.")])
    | (Ok (p :: prs), w1) =>
        update_index_html path
          (generate_contributions_html (categorize_prs (p :: prs)))
          (after w1 0 [Print (categorized_line (categorize_prs (p :: prs)))])
    | (Exit c, w1) => (Exit c, w1)
    | (Raise e, w1) => (Raise e, w1)
    | (OutOfFuel, w1) => (OutOfFuel, w1)
    end.
Proof.
  unfold main. unfold bind at 1.
  destruct (fetch_merged_prs py_int w) as [[[|p prs]| | |] w1];
    try reflexivity.
  - unfold bind, print, emit, sys_exit, after. now rewrite Nat.add_0_r.
  - unfold bind at 1. unfold print, emit, after, categorized_line.
    now rewrite Nat.add_0_r.
Qed.

(** X1.  Whatever the API answers and whatever index.html holds, a run of
    [main] ends in one of three ways: normally, after exactly one completed
    write, whose text is the final content of the file; with the
    [UnicodeEncodeError] of that write, which leaves the file empty; or by
    an exit or another exception, with the file as it was and nothing
    written. *)
Theorem main_writes_once_or_never :
  forall (path : text) (py_int : text -> option Z) (w : world),
    (fst (main path py_int w) = Ok tt
     /\ writes (log (snd (main path py_int w)))
        = writes (log w) ++ [index_html (snd (main path py_int w))])
    \/ (fst (main path py_int w) = Raise UnicodeEncodeError
        /\ index_html (snd (main path py_int w)) = []
        /\ writes (log (snd (main path py_int w))) = writes (log w))
    \/ (fst (main path py_int w) <> Ok tt
        /\ fst (main path py_int w) <> Raise UnicodeEncodeError
        /\ index_html (snd (main path py_int w)) = index_html w
        /\ writes (log (snd (main path py_int w))) = writes (log w)).
Proof.
  intros path py_int w.
  destruct (quiet_fetch_merged_prs py_int w) as (_ & Hfile & Hwr).
  pose proof (fetch_never_unicode_error py_int w) as Hnu.
  rewrite main_run.
  destruct (fetch_merged_prs py_int w) as [[prs| | |] w1]; cbn [fst snd] in *;
    try (right; right; cbn [fst snd]; repeat split; auto; try discriminate;
         intros [= E]; apply Hnu; now rewrite E).
  destruct prs as [|p prs].
  - right. right. unfold after. cbn [fst snd log index_html].
    rewrite writes_app. cbn [writes flat_map app]. rewrite app_nil_r.
    repeat split; auto; discriminate.
  - match goal with
    | |- context [update_index_html path ?new ?w2] =>
        destruct (update_index_html_writes path new w2)
          as [[Hok Hw]|[(Hex & Hf & Hw)|(Hex & Hf & Hw)]];
        unfold after in *; cbn [log index_html] in *
    end.
    + left. split; [exact Hok|]. rewrite Hw, writes_app. cbn [writes
        flat_map app]. now rewrite app_nil_r, Hwr.
    + right. left. split; [exact Hex|]. split; [exact Hf|].
      rewrite Hw, writes_app. cbn [writes flat_map app].
      now rewrite app_nil_r.
    + right. right. split; [rewrite Hex; discriminate|].
      split; [rewrite Hex; discriminate|].
      split; [now rewrite Hf|].
      rewrite Hw, writes_app. cbn [writes flat_map app].
      now rewrite app_nil_r.
Qed.

(** The second way, end to end: a title that is a lone surrogate reaches
    the fragment, and the run ends with the file empty. *)
Example main_lone_surrogate_empties_file :
  fst (main (str "index.html") decimal
         {| api := sim_api [surrogate_item]; served := 0;
            index_html := example_doc; log := [] |})
  = Raise UnicodeEncodeError
  /\ index_html
       (snd (main (str "index.html") decimal
               {| api := sim_api [surrogate_item]; served := 0;
                  index_html := example_doc; log := [] |}))
     = [].
Proof. split; vm_compute; reflexivity. Qed.

(* ================================================================== *)
(** ** How many requests the client makes *)
(* ================================================================== *)

Lemma requests_weaken {A} (lo hi lo' hi' : nat) (m : M A) :
  (lo' <= lo)%nat -> (hi <= hi')%nat ->
  requests_between lo hi m -> requests_between lo' hi' m.
Proof. intros H1 H2 H w. specialize (H w). lia. Qed.

Lemma requests_none_ret {A} (a : A) : requests_between 0 0 (ret a).
Proof. intros w. cbn. lia. Qed.

Lemma requests_none_raise {A} (e : exception) :
  requests_between 0 0 (@raise A e).
Proof. intros w. cbn. lia. Qed.

Lemma requests_none_exit {A} (c : Z) : requests_between 0 0 (@sys_exit A c).
Proof. intros w. cbn. lia. Qed.

Lemma requests_none_print (line : text) : requests_between 0 0 (print line).
Proof. intros w. cbn. lia. Qed.

Lemma requests_none_sleep (secs : Z) : requests_between 0 0 (sleep secs).
Proof.
  intros w. unfold sleep.
  destruct ((secs <? - SLEEP_MAX) || (SLEEP_MAX <? secs)); [cbn; lia|].
  destruct (secs <? 0); cbn; lia.
Qed.

Lemma requests_one_urlopen (u : request) (h : list (text * text)) :
  requests_between 1 1 (urlopen u h).
Proof. intros w. cbn. lia. Qed.

(** A sequence asks at least what its first part asks, and at most what
    both parts ask. *)
Lemma requests_bind {A B} (a b d : nat) (m : M A) (k : A -> M B) :
  requests_between a b m -> (forall x, requests_between 0 d (k x)) ->
  requests_between a (b + d) (bind m k).
Proof.
  intros Hm Hk w. unfold bind. specialize (Hm w).
  destruct (m w) as [[x| | |] w1]; cbn [snd] in *; try lia.
  specialize (Hk x w1). lia.
Qed.

Section RequestCounts.

Variable py_int : text -> option Z.

Lemma requests_none_int_of (s : text) :
  requests_between 0 0 (int_of py_int s).
Proof.
  unfold int_of. destruct (py_int s);
    [apply requests_none_ret | apply requests_none_raise].
Qed.

Lemma requests_none_index {A} (l : list A) (i : nat) :
  requests_between 0 0 (index l i).
Proof.
  unfold index. destruct (nth_error l i);
    [apply requests_none_ret | apply requests_none_raise].
Qed.

Lemma requests_github_request_attempts (k : nat) (u : request)
    (h : list (text * text)) :
  requests_between (Nat.min 1 k) k (github_request_attempts py_int k u h).
Proof.
  induction k as [|k IH]; cbn [github_request_attempts].
  - apply (requests_bind 0 0 0); [apply requests_none_print|].
    intros _. apply requests_none_exit.
  - apply (requests_bind 1 1 k); [apply requests_one_urlopen|].
    intros [data|code header body].
    + eapply requests_weaken; [| |apply requests_none_ret]; lia.
    + destruct ((code =? 403) || (code =? 429)).
      * apply (requests_bind 0 0 k); [apply requests_none_int_of|].
        intros d.
        apply (requests_bind 0 0 k); [apply requests_none_print|].
        intros _.
        apply (requests_bind 0 0 k); [apply requests_none_sleep|].
        intros _. eapply requests_weaken; [| |exact IH]; lia.
      * eapply requests_weaken with (lo := 0%nat) (hi := (0 + (0 + 0))%nat);
          [lia | lia |].
        apply (requests_bind 0 0); [apply requests_none_print|]. intros _.
        apply (requests_bind 0 0); [apply requests_none_print|]. intros _.
        apply requests_none_exit.
Qed.

Lemma requests_none_collect (its : list item) (acc : list pr) :
  requests_between 0 0 (collect py_int its acc).
Proof.
  revert acc; induction its as [|it its IH]; intros acc; cbn [collect].
  - apply requests_none_ret.
  - apply (requests_bind 0 0 0); [apply requests_none_index|]. intros owner.
    apply (requests_bind 0 0 0); [apply requests_none_index|]. intros rn.
    apply (requests_bind 0 0 0); [apply requests_none_index|]. intros num.
    apply (requests_bind 0 0 0); [apply requests_none_int_of|]. intros n.
    destruct (mem _ _); apply IH.
Qed.

Lemma requests_fetch_loop (fuel : nat) (page : Z) (acc : list pr) :
  requests_between (Nat.min 1 fuel) (3 * fuel)
    (fetch_loop py_int fuel page acc).
Proof.
  revert page acc; induction fuel as [|fuel IH]; intros page acc;
    cbn [fetch_loop].
  - intros w. cbn. lia.
  - eapply requests_weaken with (lo := 1%nat) (hi := (3 + 3 * fuel)%nat);
      [cbn; lia | lia |].
    apply (requests_bind 1 3 (3 * fuel));
      [apply (requests_github_request_attempts 3)|].
    intros data.
    destruct (items data) as [[|it its]|];
      try (eapply requests_weaken; [| |apply requests_none_ret]; lia).
    eapply requests_weaken with (lo := 0%nat) (hi := (0 + 3 * fuel)%nat);
      [lia | lia |].
    apply (requests_bind 0 0 (3 * fuel)); [apply requests_none_collect|].
    intros acc'. destruct (_ || _).
    + eapply requests_weaken; [| |apply requests_none_ret]; lia.
    + eapply requests_weaken; [| |apply IH]; lia.
Qed.

End RequestCounts.

(** X2.  Whatever the API answers, [github_request] makes at least one and
    at most three requests, and touches neither index.html nor the API. *)
Theorem github_request_asks_one_to_three :
  forall (py_int : text -> option Z) (u : request) (h : list (text * text))
         (w : world),
    (served w + 1 <= served (snd (github_request py_int u h w))
     <= served w + 3)%nat
    /\ index_html (snd (github_request py_int u h w)) = index_html w
    /\ api (snd (github_request py_int u h w)) = api w.
Proof.
  intros py_int u h w. unfold github_request.
  pose proof (requests_github_request_attempts py_int 3 u h w) as H.
  destruct (quiet_github_request_attempts py_int 3 u h w) as (Ha & Hf & _).
  cbn [Nat.min] in H. auto.
Qed.

(** X3.  Whatever the API answers, the fetch ends within the ten iterations
    its page cap allows (by returning, exiting or raising), after at least
    one and at most thirty requests, and leaves index.html untouched. *)
Theorem fetch_terminates_within_thirty_requests :
  forall (py_int : text -> option Z) (w : world),
    fst (fetch_merged_prs py_int w) <> OutOfFuel
    /\ (served w + 1 <= served (snd (fetch_merged_prs py_int w))
        <= served w + 30)%nat
    /\ index_html (snd (fetch_merged_prs py_int w)) = index_html w
    /\ writes (log (snd (fetch_merged_prs py_int w))) = writes (log w).
Proof.
  intros py_int w. split; [apply fetch_never_out_of_fuel|].
  destruct (quiet_fetch_merged_prs py_int w) as (_ & Hf & Hw).
  split; [|auto].
  unfold fetch_merged_prs.
  assert (requests_between 1 (30 + 0)
            (all_prs <- fetch_loop py_int 10 1 [];;
             print (fetched_line all_prs);;; ret all_prs)) as H.
  { apply (requests_bind 1 30 0); [apply (requests_fetch_loop py_int 10)|].
    intros prs. apply (requests_bind 0 0 0); [apply requests_none_print|].
    intros _. apply requests_none_ret. }
  specialize (H w). unfold fetched_line in H. lia.
Qed.

(* ================================================================== *)
(** ** The client on unusable answers, and where its records come from *)
(* ================================================================== *)

(** X4.  A 403 or 429 answer whose Retry-After text [int] rejects ends
    [github_request] with a [ValueError] right after the request.  One that
    [int] reads as a number [time.sleep] refuses ends it after the notice is
    printed, without sleeping and without a second request: with a
    [ValueError] when the number is negative and fits, with an
    [OverflowError] when it does not fit, whatever its sign. *)
Theorem retry_after_unusable_raises :
  forall (py_int : text -> option Z) (u : request) (h : list (text * text))
         (w : world) (code : Z) (header : option text) (body : text),
    api w (served w) u = HttpError code header body ->
    code = 403 \/ code = 429 ->
    (py_int (retry_after_text header) = None ->
     github_request py_int u h w = (Raise ValueError, after w 1 [Get u h]))
    /\ (forall d : Z,
           py_int (retry_after_text header) = Some d ->
           - SLEEP_MAX <= d < 0 ->
           github_request py_int u h w
           = (Raise ValueError,
              after w 1
                [Get u h;
                 Print (str "Rate limited. Waiting " ++ str_of_Z d
                        ++ str "s...")]))
    /\ (forall d : Z,
           py_int (retry_after_text header) = Some d ->
           d < - SLEEP_MAX \/ SLEEP_MAX < d ->
           github_request py_int u h w
           = (Raise OverflowError,
              after w 1
                [Get u h;
                 Print (str "Rate limited. Waiting " ++ str_of_Z d
                        ++ str "s...")])).
Proof.
  intros py_int u h w code header body Hresp Hcode.
  assert ((code =? 403) || (code =? 429) = true) as Hguard
    by (destruct Hcode as [-> | ->]; reflexivity).
  unfold github_request. split; [|split].
  - cbn [github_request_attempts]. unfold bind at 1. unfold urlopen at 1.
    rewrite Hresp, Hguard. unfold bind at 1. unfold int_of.
    fold (retry_after_text header).
    intros ->. unfold raise, after. cbn.
    now replace (served w + 1)%nat with (S (served w)) by lia.
  - intros d Hd Hneg.
    cbn [github_request_attempts]. unfold bind at 1. unfold urlopen at 1.
    rewrite Hresp, Hguard. unfold bind at 1. unfold int_of.
    fold (retry_after_text header). rewrite Hd.
    unfold ret at 1. unfold bind at 1.
    unfold print, emit. unfold bind at 1.
    rewrite (sleep_negative d Hneg). unfold raise, after. cbn.
    replace (served w + 1)%nat with (S (served w)) by lia.
    now rewrite <- app_assoc.
  - intros d Hd Hbig.
    cbn [github_request_attempts]. unfold bind at 1. unfold urlopen at 1.
    rewrite Hresp, Hguard. unfold bind at 1. unfold int_of.
    fold (retry_after_text header). rewrite Hd.
    unfold ret at 1. unfold bind at 1.
    unfold print, emit. unfold bind at 1.
    rewrite (sleep_too_long d Hbig). unfold raise, after. cbn.
    replace (served w + 1)%nat with (S (served w)) by lia.
    now rewrite <- app_assoc.
Qed.

Lemma retry_after_unusable_raises_witness :
  github_request decimal (search_url 1 100) accept_headers
    limited_by_date_world
  = (Raise ValueError,
     after limited_by_date_world 1 [Get (search_url 1 100) accept_headers]).
Proof.
  apply (proj1 (retry_after_unusable_raises decimal (search_url 1 100)
                  accept_headers limited_by_date_world 429
                  (Some (str "Fri, 31 Dec 1999 23:59:59 GMT"))
                  (str "slow down") eq_refl (or_intror eq_refl))).
  vm_compute. reflexivity.
Defined.

Lemma requests_app (a b : list event) :
  requests (a ++ b) = requests a ++ requests b.
Proof. unfold requests. apply flat_map_app. Qed.

Lemma fetched_from_more (py_int : text -> option Z) (w : world)
    (reqs more : list request) (p : pr) :
  fetched_from py_int w reqs p -> fetched_from py_int w (reqs ++ more) p.
Proof.
  intros (Hk & it & (i & page & data & its & Hi & Ha & Hits & Hin) & Hrec).
  split; [assumption|]. exists it. split; [|assumption].
  exists i, page, data, its. repeat split; try assumption.
  rewrite nth_error_app1; [assumption|].
  apply nth_error_Some. congruence.
Qed.

Lemma fetched_from_later (py_int : text -> option Z) (w w1 : world)
    (reqs1 reqs2 : list request) (p : pr) :
  api w1 = api w ->
  served w1 = (served w + length reqs1)%nat ->
  fetched_from py_int w1 reqs2 p ->
  fetched_from py_int w (reqs1 ++ reqs2) p.
Proof.
  intros Hapi Hserved
    (Hk & it & (i & page & data & its & Hi & Ha & Hits & Hin) & Hrec).
  split; [assumption|]. exists it. split; [|assumption].
  exists (length reqs1 + i)%nat, page, data, its.
  repeat split; try assumption.
  - rewrite nth_error_app2 by lia.
    now replace (length reqs1 + i - length reqs1)%nat with i by lia.
  - rewrite Hapi, Hserved in Ha. now rewrite Nat.add_assoc.
Qed.

Section Provenance.

Variable py_int : text -> option Z.

(** A request that returns data was answered with it, at one of the
    attempts the run made. *)
Lemma github_request_data (k : nat) (u : request) (h : list (text * text))
    (w w' : world) (data : search_data) :
  github_request_attempts py_int k u h w = (Ok data, w') ->
  exists evs i,
    log w' = log w ++ evs
    /\ served w' = (served w + length (requests evs))%nat
    /\ api w' = api w
    /\ nth_error (requests evs) i = Some u
    /\ api w (served w + i)%nat u = Http200 data.
Proof.
  revert w; induction k as [|k IH]; intros w; [cbn; discriminate|].
  cbn [github_request_attempts]. unfold bind at 1. unfold urlopen at 1.
  destruct (api w (served w) u) as [data'|code header body] eqn:E.
  - unfold ret. intros [= <- <-]. exists [Get u h], 0%nat. cbn.
    rewrite Nat.add_0_r. repeat split; [lia | assumption].
  - destruct ((code =? 403) || (code =? 429)); [|cbn; discriminate].
    unfold bind at 1. unfold int_of.
    destruct (py_int _) as [d|]; [|cbn; discriminate]. unfold ret at 1.
    unfold bind at 1. unfold print, emit. unfold bind at 1. unfold sleep.
    destruct ((d <? - SLEEP_MAX) || (SLEEP_MAX <? d)); [cbn; discriminate|].
    destruct (d <? 0); [cbn; discriminate|]. unfold emit.
    intros H. apply IH in H as (evs & i & Hlog & Hserved & Hapi & Hi & Ha).
    cbn [log served api] in Hlog, Hserved, Hapi, Ha.
    exists (waited u h d ++ evs), (S i).
    rewrite requests_app. cbn [waited requests flat_map app length nth_error].
    repeat split.
    + rewrite Hlog. unfold waited. now rewrite <- !app_assoc.
    + rewrite Hserved. lia.
    + assumption.
    + assumption.
    + now rewrite Nat.add_succ_r.
Qed.

(** The loop over the items sends nothing and logs nothing. *)
Lemma collect_pure (its : list item) (acc : list pr) (w : world) :
  snd (collect py_int its acc w) = w.
Proof.
  revert acc; induction its as [|it its IH]; intros acc; [reflexivity|].
  cbn [collect]. unfold bind, index, int_of.
  destruct (nth_error _ 3); [|reflexivity]. unfold ret at 1.
  destruct (nth_error _ 4); [|reflexivity]. unfold ret at 1.
  destruct (nth_error _ 6); [|reflexivity]. unfold ret at 1.
  destruct (py_int _); [|reflexivity]. unfold ret at 1.
  destruct (mem _ EXCLUDED_REPOS); apply IH.
Qed.

Lemma collect_fetched (its : list item) (acc prs : list pr) (w w' : world) :
  collect py_int its acc w = (Ok prs, w') ->
  exists new,
    prs = acc ++ new
    /\ Forall (fun p => kept p = true
                        /\ exists it, In it its
                                      /\ item_record py_int it = Some p) new.
Proof.
  revert acc; induction its as [|it its IH]; intros acc.
  - cbn. intros [= <- _]. exists []. now rewrite app_nil_r.
  - cbn [collect]. unfold bind, index, int_of.
    destruct (nth_error _ 3) as [owner|] eqn:E3; [|cbn; discriminate].
    unfold ret at 1.
    destruct (nth_error _ 4) as [rn|] eqn:E4; [|cbn; discriminate].
    unfold ret at 1.
    destruct (nth_error _ 6) as [num|] eqn:E6; [|cbn; discriminate].
    unfold ret at 1.
    destruct (py_int num) as [n|] eqn:En; [|cbn; discriminate].
    unfold ret at 1.
    destruct (mem _ EXCLUDED_REPOS) eqn:Em; intros H; apply IH in H;
      destruct H as (new & -> & Hall).
    + exists new. split; [reflexivity|].
      eapply Forall_impl; [|exact Hall].
      intros p (Hk & it' & Hin & Hrec). split; [assumption|].
      exists it'. split; [now right | assumption].
    + eexists (_ :: new). split; [now rewrite <- app_assoc|].
      constructor.
      * split; [unfold kept; cbn [repo]; now rewrite Em|].
        exists it. split; [now left|].
        unfold item_record. now rewrite E3, E4, E6, En.
      * eapply Forall_impl; [|exact Hall].
        intros p (Hk & it' & Hin & Hrec). split; [assumption|].
        exists it'. split; [now right | assumption].
Qed.

Lemma fetch_loop_fetched (fuel : nat) (page : Z) (acc prs : list pr)
    (w w' : world) :
  fetch_loop py_int fuel page acc w = (Ok prs, w') ->
  exists evs new,
    log w' = log w ++ evs
    /\ served w' = (served w + length (requests evs))%nat
    /\ api w' = api w
    /\ prs = acc ++ new
    /\ Forall (fetched_from py_int w (requests evs)) new.
Proof.
  revert page acc w; induction fuel as [|fuel IH]; intros page acc w;
    [cbn; discriminate|].
  cbn [fetch_loop]. unfold bind at 1. unfold github_request.
  destruct (github_request_attempts py_int 3 _ _ w) as [[data| | |] w1] eqn:Eg;
    try (cbn; discriminate).
  apply github_request_data in Eg
    as (evs1 & i & Hlog1 & Hserved1 & Hapi1 & Hi & Ha).
  destruct (items data) as [[|it its]|] eqn:Ei.
  - intros [= <- <-]. exists evs1, []. rewrite app_nil_r. repeat split; auto.
  - unfold bind at 1.
    pose proof (collect_pure (it :: its) acc w1) as Hpure.
    destruct (collect py_int (it :: its) acc w1) as [[acc'| | |] w2] eqn:Ec;
      try (cbn; discriminate).
    cbn [snd] in Hpure. subst w2.
    apply collect_fetched in Ec as (new1 & -> & Hall1).
    assert (Forall (fetched_from py_int w (requests evs1)) new1) as Hnew1.
    { eapply Forall_impl; [|exact Hall1].
      intros p (Hk & it' & Hin & Hrec). split; [assumption|].
      exists it'. split; [|assumption].
      exists i, page, data, (it :: its). auto. }
    destruct (_ || _).
    + intros [= <- <-]. exists evs1, new1. repeat split; auto.
    + intros H.
      apply IH in H as (evs2 & new2 & Hlog2 & Hserved2 & Hapi2 & -> & Hall2).
      exists (evs1 ++ evs2), (new1 ++ new2). rewrite requests_app.
      repeat split.
      * rewrite Hlog2, Hlog1. now rewrite app_assoc.
      * rewrite Hserved2, Hserved1, length_app. lia.
      * congruence.
      * now rewrite app_assoc.
      * apply Forall_app. split.
        -- eapply Forall_impl; [|exact Hnew1].
           intros p. apply fetched_from_more.
        -- eapply Forall_impl; [|exact Hall2].
           intros p. now apply fetched_from_later.
  - intros [= <- <-]. exists evs1, []. rewrite app_nil_r. repeat split; auto.
Qed.

End Provenance.

(** X5.  Whatever the API answers, every record a fetch returns is built
    from an item the run was served: an item of the answer the API gave to
    one of the search requests the run sent (its repository, number and URL
    read from the item's URL, its title the item's); and none is of an
    excluded repository. *)
Theorem fetch_returns_served_unexcluded_records :
  forall (py_int : text -> option Z) (w : world) (prs : list pr),
    fst (fetch_merged_prs py_int w) = Ok prs ->
    exists evs,
      log (snd (fetch_merged_prs py_int w)) = log w ++ evs
      /\ Forall (fetched_from py_int w (requests evs)) prs.
Proof.
  intros py_int w prs. unfold fetch_merged_prs. unfold bind at 1 3.
  destruct (fetch_loop py_int 10 1 [] w) as [[all_prs| | |] w1] eqn:E;
    try (cbn; discriminate).
  cbn. intros [= <-].
  apply fetch_loop_fetched in E as (evs & new & Hlog & _ & _ & -> & Hall).
  exists (evs ++ [Print (fetched_line new)]). split.
  - rewrite Hlog. now rewrite <- app_assoc.
  - rewrite requests_app. eapply Forall_impl; [|exact Hall].
    intros p. apply fetched_from_more.
Qed.

Lemma fetch_returns_served_unexcluded_records_witness :
  exists evs,
    log (snd (fetch_merged_prs decimal (sim_world [sample_item])))
    = log (sim_world [sample_item]) ++ evs
    /\ Forall (fetched_from decimal (sim_world [sample_item]) (requests evs))
         [sample_record].
Proof.
  apply (fetch_returns_served_unexcluded_records decimal
           (sim_world [sample_item]) [sample_record]).
  vm_compute. reflexivity.
Defined.

(* ================================================================== *)
(** ** Reading a pull request's URL *)
(* ================================================================== *)

Lemma split_on_no_sep (sep : char) (a : text) :
  ~ In sep a -> split_on sep a = [a].
Proof.
  induction a as [|c a IH]; intros H; [reflexivity|].
  cbn [split_on].
  assert (N.eqb c sep = false) as ->.
  { apply N.eqb_neq. intros ->. apply H. now left. }
  rewrite IH; [reflexivity|]. intros Hin. apply H. now right.
Qed.

Lemma split_on_app (sep : char) (a rest : text) :
  ~ In sep a -> split_on sep (a ++ sep :: rest) = a :: split_on sep rest.
Proof.
  induction a as [|c a IH]; intros H.
  - cbn [app split_on]. now rewrite N.eqb_refl.
  - cbn [app split_on].
    assert (N.eqb c sep = false) as ->.
    { apply N.eqb_neq. intros ->. apply H. now left. }
    rewrite IH; [reflexivity|]. intros Hin. apply H. now right.
Qed.

(** The segments of a pull request's URL. *)
Lemma split_pr_url (host owner repo_name number : text) :
  ~ In (chr "/") host -> ~ In (chr "/") owner ->
  ~ In (chr "/") repo_name -> ~ In (chr "/") number ->
  split_on (chr "/") (pr_url host owner repo_name number)
  = [str "https:"; []; host; owner; repo_name; str "pull"; number].
Proof.
  intros Hh Ho Hr Hn.
  change (pr_url host owner repo_name number)
    with (str "https:" ++ (chr "/")
            :: ([] ++ (chr "/")
                  :: (host ++ (chr "/")
                        :: (owner ++ (chr "/")
                              :: (repo_name ++ (chr "/")
                                    :: (str "pull" ++ (chr "/")
                                          :: number)))))).
  rewrite split_on_app by not_in_literal.
  rewrite split_on_app by (intros []).
  rewrite split_on_app by assumption.
  rewrite split_on_app by assumption.
  rewrite split_on_app by assumption.
  rewrite split_on_app by not_in_literal.
  now rewrite split_on_no_sep by assumption.
Qed.

Lemma item_record_pr_url (py_int : text -> option Z)
    (host owner repo_name number its_title : text) (n : Z) :
  ~ In (chr "/") host -> ~ In (chr "/") owner ->
  ~ In (chr "/") repo_name -> ~ In (chr "/") number ->
  py_int number = Some n ->
  item_record py_int
    {| item_html_url := pr_url host owner repo_name number;
       item_title := its_title |}
  = Some {| repo := owner ++ str "/" ++ repo_name;
            pr_number := n;
            title := its_title;
            url := pr_url host owner repo_name number |}.
Proof.
  intros Hh Ho Hr Hn Hint.
  unfold item_record. cbn [item_html_url item_title].
  rewrite split_pr_url by assumption. cbn [nth_error]. now rewrite Hint.
Qed.

(** X6.  When the simulated API holds one item, whose URL is
    https://HOST/OWNER/REPO/pull/NUMBER with slash-free parts and a number
    [int] reads, the fetch returns nothing if OWNER/REPO is an excluded
    repository, and else the one record of repository OWNER/REPO with that
    number, the item's title and the item's URL. *)
Theorem fetch_reads_pull_request_url :
  forall (py_int : text -> option Z)
         (host owner repo_name number its_title : text) (n : Z) (w : world),
    ~ In (chr "/") host -> ~ In (chr "/") owner ->
    ~ In (chr "/") repo_name -> ~ In (chr "/") number ->
    py_int number = Some n ->
    api w = sim_api [ {| item_html_url := pr_url host owner repo_name number;
                         item_title := its_title |} ] ->
    fst (fetch_merged_prs py_int w)
    = Ok (if mem (owner ++ str "/" ++ repo_name) EXCLUDED_REPOS then []
          else [ {| repo := owner ++ str "/" ++ repo_name;
                    pr_number := n;
                    title := its_title;
                    url := pr_url host owner repo_name number |} ]).
Proof.
  intros py_int host owner rn number t n w Hh Ho Hr Hn Hint Hapi.
  pose proof (item_record_pr_url py_int host owner rn number t n
                Hh Ho Hr Hn Hint) as Hrec.
  assert (map (item_record py_int)
            [ {| item_html_url := pr_url host owner rn number;
                 item_title := t |} ]
          = map Some
              [ {| repo := owner ++ str "/" ++ rn; pr_number := n;
                   title := t; url := pr_url host owner rn number |} ])
    as Hrecs by (cbn [map]; now rewrite Hrec).
  rewrite (fetch_merged_prs_sim py_int _ _ Hrecs w Hapi).
  cbn [fst firstn filter]. unfold kept. cbn [repo].
  now destruct (mem _ EXCLUDED_REPOS).
Qed.

Lemma fetch_reads_pull_request_url_witness :
  fst (fetch_merged_prs decimal
         (sim_world
            [ {| item_html_url :=
                   pr_url (str "github.com") (str "eclipse-vertx")
                     (str "vertx-sql") (str "12");
                 item_title := str "Fix pool" |} ]))
  = Ok (if mem (str "eclipse-vertx" ++ str "/" ++ str "vertx-sql")
             EXCLUDED_REPOS
        then []
        else [ {| repo := str "eclipse-vertx" ++ str "/" ++ str "vertx-sql";
                  pr_number := 12;
                  title := str "Fix pool";
                  url := pr_url (str "github.com") (str "eclipse-vertx")
                           (str "vertx-sql") (str "12") |} ]).
Proof.
  apply (fetch_reads_pull_request_url decimal (str "github.com")
           (str "eclipse-vertx") (str "vertx-sql") (str "12")
           (str "Fix pool") 12);
    try not_in_literal; reflexivity.
Defined.

Section BadItems.

Variable py_int : text -> option Z.

Lemma collect_app_ok (good rest : list item) (recs acc : list pr)
    (w : world) :
  map (item_record py_int) good = map Some recs ->
  collect py_int (good ++ rest) acc w
  = collect py_int rest (acc ++ filter kept recs) w.
Proof.
  revert recs acc; induction good as [|it good IH]; intros recs acc H.
  - destruct recs; [|discriminate]. cbn. now rewrite app_nil_r.
  - destruct recs as [|p recs]; [discriminate|]. cbn [map] in H.
    injection H as Hit Hrest.
    cbn [app collect]. unfold item_record in Hit. unfold bind, index, int_of.
    destruct (nth_error _ 3) as [owner|]; [|discriminate]. unfold ret at 1.
    destruct (nth_error _ 4) as [rn|]; [|discriminate]. unfold ret at 1.
    destruct (nth_error _ 6) as [num|]; [|discriminate]. unfold ret at 1.
    destruct (py_int num) as [n|]; [|discriminate]. unfold ret at 1.
    injection Hit as <-. cbn [filter]. unfold kept at 1. cbn [repo].
    destruct (mem _ EXCLUDED_REPOS); cbn [negb].
    + now apply IH.
    + rewrite (IH recs _ Hrest). now rewrite <- app_assoc.
Qed.

Lemma collect_bad (bad : item) (rest : list item) (acc : list pr)
    (w : world) :
  item_record py_int bad = None ->
  collect py_int (bad :: rest) acc w = (Raise (bad_item_error bad), w).
Proof.
  intros H. cbn [collect]. unfold item_record in H.
  unfold bad_item_error, bind, index, int_of.
  set (parts := split_on (chr "/") (item_html_url bad)) in *.
  destruct (nth_error parts 3) as [owner|] eqn:E3.
  2:{ apply nth_error_None in E3.
      destruct (Nat.ltb_spec (length parts) 7); [reflexivity | lia]. }
  unfold ret at 1.
  destruct (nth_error parts 4) as [rn|] eqn:E4.
  2:{ apply nth_error_None in E4.
      destruct (Nat.ltb_spec (length parts) 7); [reflexivity | lia]. }
  unfold ret at 1.
  destruct (nth_error parts 6) as [num|] eqn:E6.
  2:{ apply nth_error_None in E6.
      destruct (Nat.ltb_spec (length parts) 7); [reflexivity | lia]. }
  unfold ret at 1.
  assert (6 < length parts)%nat as Hlen
    by (apply nth_error_Some; congruence).
  destruct (py_int num); [discriminate|].
  destruct (Nat.ltb_spec (length parts) 7); [lia | reflexivity].
Qed.

Lemma fetch_bad_item (good rest : list item) (bad : item) (recs : list pr)
    (w : world) :
  api w = sim_api (good ++ bad :: rest) ->
  map (item_record py_int) good = map Some recs ->
  (length good < 100)%nat ->
  item_record py_int bad = None ->
  fetch_merged_prs py_int w
  = (Raise (bad_item_error bad), after w 1 [get_page 1]).
Proof.
  intros Hapi Hgood Hlen Hbad. unfold fetch_merged_prs. unfold bind at 1.
  cbn [fetch_loop]. unfold bind at 1.
  rewrite (github_request_sim py_int _ 1 w Hapi). cbn [items total_count].
  assert (page_items (good ++ bad :: rest) 1
          = good ++ bad :: firstn (99 - length good) rest) as ->.
  { unfold page_items. change (Z.to_nat (1 - 1)) with 0%nat.
    rewrite Nat.mul_0_r. cbn [skipn].
    rewrite firstn_app, (firstn_all2 good) by lia. f_equal.
    replace (100 - length good)%nat with (S (99 - length good)) by lia.
    reflexivity. }
  destruct (good ++ bad :: firstn (99 - length good) rest) as [|it its] eqn:E;
    [destruct good; discriminate|].
  rewrite <- E. unfold bind at 1.
  rewrite (collect_app_ok _ _ _ _ _ Hgood), collect_bad by assumption.
  reflexivity.
Qed.

End BadItems.

(** X7.  When the first page of a simulated API holds an item from which
    no record can be built, after items that are fine, the fetch ends with
    an exception after its one request: an [IndexError] when the item's URL
    has fewer than seven segments, else a [ValueError]; nothing is
    returned. *)
Theorem fetch_bad_item_raises :
  forall (py_int : text -> option Z) (good rest : list item) (bad : item)
         (recs : list pr) (w : world),
    api w = sim_api (good ++ bad :: rest) ->
    map (item_record py_int) good = map Some recs ->
    (length good < 100)%nat ->
    item_record py_int bad = None ->
    fetch_merged_prs py_int w
    = (Raise (bad_item_error bad), after w 1 [get_page 1]).
Proof.
  intros py_int good rest bad recs w. apply fetch_bad_item.
Qed.

Lemma fetch_bad_item_raises_witness :
  fetch_merged_prs decimal (sim_world ([sample_item] ++ short_item :: []))
  = (Raise (bad_item_error short_item),
     after (sim_world ([sample_item] ++ short_item :: [])) 1 [get_page 1]).
Proof.
  apply (fetch_bad_item_raises decimal [sample_item] [] short_item
           [sample_record]).
  - reflexivity.
  - vm_compute. reflexivity.
  - cbn. lia.
  - vm_compute. reflexivity.
Defined.

(* ================================================================== *)
(** ** Escaping: what the output cannot hold, and that nothing is lost *)
(* ================================================================== *)

Lemma escape_char_specials (x c : char) :
  In c (escape_char x) ->
  c <> (chr "<") /\ c <> (chr ">") /\ c <> 34%N.
Proof.
  unfold escape_char.
  destruct (N.eqb_spec x (chr "&")) as [->|H1].
  { intros H; cbv in H.
    repeat (destruct H as [H|H]; [subst c; repeat split; discriminate|]).
    contradiction. }
  destruct (N.eqb_spec x (chr "<")) as [->|H2].
  { intros H; cbv in H.
    repeat (destruct H as [H|H]; [subst c; repeat split; discriminate|]).
    contradiction. }
  destruct (N.eqb_spec x (chr ">")) as [->|H3].
  { intros H; cbv in H.
    repeat (destruct H as [H|H]; [subst c; repeat split; discriminate|]).
    contradiction. }
  destruct (N.eqb_spec x 34%N) as [->|H4].
  { intros H; cbv in H.
    repeat (destruct H as [H|H]; [subst c; repeat split; discriminate|]).
    contradiction. }
  intros [<-|[]]. auto.
Qed.

Lemma occurs_at_head_In (sub s : text) (n : nat) (c : char) :
  nth_error sub 0 = Some c -> occurs_at sub s n -> In c s.
Proof.
  intros Hc Hocc. rewrite occurs_at_nth in Hocc.
  destruct sub as [|c' sub]; [discriminate|]. injection Hc as ->.
  specialize (Hocc 0%nat). rewrite Nat.add_0_r in Hocc.
  eapply nth_error_In. apply Hocc. cbn. lia.
Qed.

(** X8.  An escaped title holds no less-than sign, no greater-than sign and
    no double quote, whatever the title; so it holds neither marker. *)
Theorem html_escape_output_is_inert :
  forall t : text,
    ~ In (chr "<") (html_escape t)
    /\ ~ In (chr ">") (html_escape t)
    /\ ~ In 34%N (html_escape t)
    /\ find START_MARKER (html_escape t) = -1
    /\ find END_MARKER (html_escape t) = -1.
Proof.
  intros t.
  assert (forall c, In c (html_escape t) ->
                    c <> (chr "<") /\ c <> (chr ">") /\ c <> 34%N)
    as H.
  { intros c Hc. rewrite html_escape_flat_map in Hc.
    apply in_flat_map in Hc as (x & _ & Hx).
    now apply escape_char_specials in Hx. }
  assert (~ In (chr "<") (html_escape t)) as Hlt.
  { intros Hin. apply H in Hin. tauto. }
  split; [exact Hlt|].
  split; [intros Hin; apply H in Hin; tauto|].
  split; [intros Hin; apply H in Hin; tauto|].
  split; apply find_absent; intros n Hocc; apply Hlt;
    eapply occurs_at_head_In; try exact Hocc; reflexivity.
Qed.

Lemma escape_char_nonempty (c : char) : escape_char c <> [].
Proof.
  unfold escape_char.
  repeat match goal with
         | |- context [N.eqb ?a ?b] => destruct (N.eqb a b)
         end; discriminate.
Qed.

(** No entity is a prefix of another output of [escape_char]. *)
Lemma escape_char_prefix_free (c c' : char) (r r' : text) :
  escape_char c ++ r = escape_char c' ++ r' -> c = c' /\ r = r'.
Proof.
  unfold escape_char.
  destruct (N.eqb_spec c (chr "&")) as [->|H1];
    [|destruct (N.eqb_spec c (chr "<")) as [->|H2];
      [|destruct (N.eqb_spec c (chr ">")) as [->|H3];
        [|destruct (N.eqb_spec c 34%N) as [->|H4]]]];
    (destruct (N.eqb_spec c' (chr "&")) as [->|G1];
     [|destruct (N.eqb_spec c' (chr "<")) as [->|G2];
       [|destruct (N.eqb_spec c' (chr ">")) as [->|G3];
         [|destruct (N.eqb_spec c' 34%N) as [->|G4]]]]);
    cbn; intros H;
    try (injection H as H; split; [reflexivity | assumption]);
    try discriminate H;
    try (injection H as Hc Hr; subst; tauto);
    try (injection H as Hc Hr; congruence).
Qed.

Lemma flat_map_escape_injective (a b : text) :
  flat_map escape_char a = flat_map escape_char b -> a = b.
Proof.
  revert b; induction a as [|c a IH]; intros [|c' b] H; cbn in H.
  - reflexivity.
  - symmetry in H. apply app_eq_nil in H as [H _].
    now apply escape_char_nonempty in H.
  - apply app_eq_nil in H as [H _]. now apply escape_char_nonempty in H.
  - apply escape_char_prefix_free in H as [-> H]. f_equal. now apply IH.
Qed.

(** X9.  Escaping loses nothing: two titles with the same escaped text are
    the same title. *)
Theorem html_escape_injective :
  forall a b : text, html_escape a = html_escape b -> a = b.
Proof.
  intros a b H. rewrite !html_escape_flat_map in H.
  now apply flat_map_escape_injective.
Qed.

Lemma html_escape_injective_witness : str "a<b" = str "a<b".
Proof.
  apply (html_escape_injective (str "a<b") (str "a<b")). reflexivity.
Defined.

(* ================================================================== *)
(** ** The categorizer: buckets and counts *)
(* ================================================================== *)

(** X10.  The categorized result is empty exactly when the input is. *)
Theorem categorize_empty_iff :
  forall prs : list pr, categorize_prs prs = [] <-> prs = [].
Proof.
  intros prs. split.
  - intros H.
    pose proof (all_records_perm CATEGORIES OTHER_CATEGORY prs
                  CATEGORIES_names_distinct) as Hperm.
    rewrite <- categorize_prs_spec, H in Hperm.
    now apply Permutation_nil in Hperm.
  - intros ->. reflexivity.
Qed.

Lemma repo_prs_nonempty (prs : list pr) (rn : text) :
  In rn (map repo prs) -> repo_prs prs rn <> [].
Proof.
  intros Hin H. apply in_map_iff in Hin as (p & <- & Hp).
  assert (In p (repo_prs prs (repo p))) as Hp'.
  { apply filter_In. split; [assumption | apply text_eqb_refl]. }
  rewrite H in Hp'. contradiction.
Qed.

(** X11.  Every bucket of the result holds all pull requests of its
    repository and only those (a rearrangement of them as the input has
    them), and at least one: no repository is listed with zero pull
    requests. *)
Theorem bucket_holds_its_repository :
  forall (prs : list pr) (c : text) (sec : section) (rn : text)
         (ps : list pr),
    In (c, sec) (categorize_prs prs) ->
    In (rn, ps) (repos sec) ->
    Permutation ps (repo_prs prs rn) /\ ps <> [] /\ In rn (map repo prs).
Proof.
  intros prs c sec rn ps Hsec Hps. rewrite categorize_prs_spec in Hsec.
  apply In_categorize_spec in Hsec as (cat & Hcat & -> & Hne & ->).
  cbn [repos] in Hps.
  apply (Permutation_in _ (sorted_desc_perm pr_count _)) in Hps.
  apply in_map_iff in Hps as (rn' & [= <- <-] & Hrn).
  apply repos_of_category_In in Hrn as [Hrn _].
  split; [apply sorted_desc_perm|]. split; [|assumption].
  intros H. apply sorted_desc_nil_inv in H.
  now apply repo_prs_nonempty in H.
Qed.

Lemma bucket_holds_its_repository_witness :
  Permutation [sample_record]
    (repo_prs [sample_record] (str "eclipse-vertx/vertx-sql"))
  /\ [sample_record] <> []
  /\ In (str "eclipse-vertx/vertx-sql") (map repo [sample_record]).
Proof.
  apply (bucket_holds_its_repository [sample_record] (str "Vert.x")
           sample_section).
  - left. vm_compute. reflexivity.
  - left. reflexivity.
Defined.

Lemma length_nodup_first_seen (l : list text) :
  length (nodup text_dec l) = length (first_seen l).
Proof.
  apply Permutation_length, NoDup_Permutation.
  - apply NoDup_nodup.
  - apply first_seen_NoDup.
  - intros x. now rewrite nodup_In, first_seen_In.
Qed.

(** The two numbers of the line printed after categorizing are those of
    the input, and there are at most three sections. *)
Lemma categorized_line_counts (prs : list pr) :
  categorized_line (categorize_prs prs)
  = str "Categorized " ++ str_of_Z (len_list prs) ++ str " PRs across "
    ++ str_of_Z (len_list (nodup text_dec (map repo prs)))
    ++ str " repos into " ++ str_of_Z (len_list (categorize_prs prs))
    ++ str " sections"
  /\ len_list (categorize_prs prs) <= 3.
Proof.
  split.
  - unfold categorized_line.
    fold (total_prs (categorize_prs prs)).
    rewrite categorize_prs_spec at 1 2.
    rewrite (total_prs_spec _ _ _ CATEGORIES_names_distinct).
    do 4 f_equal.
    rewrite (map_ext _ (fun c => len_list (keys (repos (snd c)))))
      by (intros; unfold len_list, keys; now rewrite length_map).
    rewrite sum_Z_lengths.
    fold (all_buckets (categorize_spec CATEGORIES OTHER_CATEGORY prs)).
    unfold len_list. f_equal. rewrite length_nodup_first_seen. f_equal.
    apply Permutation_length, all_buckets_perm, CATEGORIES_names_distinct.
  - assert (length (keys (categorize_prs prs)) <= 3)%nat as H.
    { rewrite categorize_prs_spec, keys_categorize_spec.
      etransitivity; [apply filter_length_le|].
      cbn. lia. }
    unfold keys in H. rewrite length_map in H. unfold len_list. lia.
Qed.

(** Whatever the patcher does, it only adds to the log. *)
Lemma update_index_html_log (path new : text) (w : world) :
  exists tail, log (snd (update_index_html path new w)) = log w ++ tail.
Proof.
  unfold update_index_html, bind, read_index, write_index, print, emit,
    sys_exit.
  destruct (_ || _); cbn [fst snd log]; [now eexists|].
  destruct (utf8_encodable _); cbn [fst snd log].
  - eexists. now rewrite <- app_assoc.
  - now eexists.
Qed.

(** X12.  When the fetch returns pull requests, the log of [main] holds,
    one after the other, the line of the fetch and the line printed after
    categorizing, and the two report the same numbers: the number of pull
    requests fetched and the number of their distinct repositories; the
    second adds the number of sections, which is between one and three. *)
Theorem main_summaries_agree :
  forall (path : text) (py_int : text -> option Z) (w : world)
         (prs : list pr),
    fst (fetch_merged_prs py_int w) = Ok prs ->
    prs <> [] ->
    (exists before rest,
        log (snd (main path py_int w))
        = log w ++ before
          ++ [ Print (str "Fetched " ++ str_of_Z (len_list prs)
                      ++ str " merged PRs across "
                      ++ str_of_Z (len_list (nodup text_dec (map repo prs)))
                      ++ str " repos");
               Print (str "Categorized " ++ str_of_Z (len_list prs)
                      ++ str " PRs across "
                      ++ str_of_Z (len_list (nodup text_dec (map repo prs)))
                      ++ str " repos into "
                      ++ str_of_Z (len_list (categorize_prs prs))
                      ++ str " sections") ]
          ++ rest)
    /\ 1 <= len_list (categorize_prs prs) <= 3.
Proof.
  intros path py_int w prs Hfetch Hne.
  destruct (categorized_line_counts prs) as [Hline Hmax].
  split.
  - rewrite main_run. revert Hfetch.
    unfold fetch_merged_prs. unfold bind at 1 3.
    destruct (fetch_loop py_int 10 1 [] w) as [[all_prs| | |] w1] eqn:E;
      try (cbn; discriminate).
    cbn [fst]. unfold bind, print, emit, ret. cbn [fst]. intros [= ->].
    apply fetch_loop_fetched in E as (evs & new & Hlog & _ & _ & _ & _).
    destruct prs as [|p prs]; [contradiction|].
    match goal with
    | |- context [update_index_html path ?new ?w2] =>
        destruct (update_index_html_log path new w2) as [tail ->]
    end.
    exists evs, tail. unfold after. cbn [log]. rewrite Hlog, Hline.
    unfold fetched_line. now rewrite <- !app_assoc.
  - split; [|exact Hmax].
    destruct (categorize_prs prs) as [|e l] eqn:E.
    + exfalso. apply Hne.
      pose proof (all_records_perm CATEGORIES OTHER_CATEGORY prs
                    CATEGORIES_names_distinct) as Hperm.
      rewrite <- categorize_prs_spec, E in Hperm.
      now apply Permutation_nil in Hperm.
    + unfold len_list. cbn [length]. lia.
Qed.

Lemma main_summaries_agree_witness :
  (exists before rest,
      log (snd (main (str "index.html") decimal
                  {| api := sim_api [sample_item]; served := 0;
                     index_html := example_doc; log := [] |}))
      = [] ++ before
        ++ [ Print (str "Fetched " ++ str_of_Z (len_list [sample_record])
                    ++ str " merged PRs across "
                    ++ str_of_Z
                         (len_list
                            (nodup text_dec (map repo [sample_record])))
                    ++ str " repos");
             Print (str "Categorized "
                    ++ str_of_Z (len_list [sample_record])
                    ++ str " PRs across "
                    ++ str_of_Z
                         (len_list
                            (nodup text_dec (map repo [sample_record])))
                    ++ str " repos into "
                    ++ str_of_Z (len_list (categorize_prs [sample_record]))
                    ++ str " sections") ]
        ++ rest)
  /\ 1 <= len_list (categorize_prs [sample_record]) <= 3.
Proof.
  apply (main_summaries_agree (str "index.html") decimal
           {| api := sim_api [sample_item]; served := 0;
              index_html := example_doc; log := [] |} [sample_record]).
  - vm_compute. reflexivity.
  - discriminate.
Defined.

(* ================================================================== *)
(** ** The renderer: nothing is dropped *)
(* ================================================================== *)

Lemma infix_of_refl (x : text) : infix_of x x.
Proof. exists [], []. now rewrite app_nil_r. Qed.

Lemma infix_of_trans (x y z : text) :
  infix_of x y -> infix_of y z -> infix_of x z.
Proof.
  intros (a & b & ->) (a' & b' & ->). exists (a' ++ a), (b ++ b').
  now rewrite <- !app_assoc.
Qed.

Lemma infix_of_app_l (x s pre : text) : infix_of x s -> infix_of x (pre ++ s).
Proof.
  intros (a & b & ->). exists (pre ++ a), b. now rewrite <- app_assoc.
Qed.

Lemma infix_of_app_r (x s post : text) :
  infix_of x s -> infix_of x (s ++ post).
Proof.
  intros (a & b & ->). exists a, (b ++ post). now rewrite <- !app_assoc.
Qed.

Lemma infix_of_join (sep l : text) (lines : list text) :
  In l lines -> infix_of l (join sep lines).
Proof.
  induction lines as [|x lines IH]; [contradiction|].
  intros [->|Hin].
  - destruct lines as [|y lines]; [apply infix_of_refl|].
    rewrite join_cons by discriminate. apply infix_of_app_r, infix_of_refl.
  - destruct lines as [|y lines]; [contradiction|].
    rewrite join_cons by discriminate.
    apply infix_of_app_l, infix_of_app_l. now apply IH.
Qed.

Lemma infix_of_flat_map {A} (f : A -> text) (x : A) (l : list A) :
  In x l -> infix_of (f x) (flat_map f l).
Proof.
  intros Hin. apply in_split in Hin as (l1 & l2 & ->).
  rewrite flat_map_app. cbn [flat_map].
  now exists (flat_map f l1), (flat_map f l2).
Qed.

(** The line of a repository is one of the lines of the fragment. *)
Lemma repo_line_in_html_lines (categorized : dict section) (c : text)
    (sec : section) (entry : text * list pr) :
  In (c, sec) categorized -> In entry (repos sec) ->
  In (hd [] (repo_lines entry)) (html_lines categorized).
Proof.
  intros Hsec Hentry. unfold html_lines.
  apply in_or_app. right. apply in_or_app. left.
  apply in_flat_map. exists (c, sec). split; [assumption|].
  unfold category_lines. cbn [snd].
  apply in_or_app. right. apply in_or_app. left.
  apply in_flat_map. exists entry. split; [assumption|]. now left.
Qed.

Lemma rendered_entry (categorized : dict section) (c : text)
    (sec : section) (rn : text) (ps : list pr) :
  In (c, sec) categorized -> In (rn, ps) (repos sec) ->
  infix_of (repo_heading rn ps) (generate_contributions_html categorized)
  /\ forall p, In p ps ->
       infix_of (pr_link p) (generate_contributions_html categorized).
Proof.
  intros Hsec Hentry.
  pose proof (repo_line_in_html_lines _ _ _ _ Hsec Hentry) as Hline.
  apply (infix_of_join [nl]) in Hline.
  fold (generate_contributions_html categorized) in Hline. split.
  - eapply infix_of_trans; [|exact Hline].
    cbn [repo_lines hd fst snd].
    exists (str "            <details class=" ++ dquote ++ str "repo-item"
            ++ dquote ++ str ">" ++ str "<summary>" ++ CHEVRON_SVG),
           (str "</summary>"
            ++ str "<div class=" ++ dquote ++ str "pr-list" ++ dquote
            ++ str ">" ++ flat_map pr_link ps ++ str "</div></details>").
    unfold repo_heading. rewrite <- !app_assoc. reflexivity.
  - intros p Hp. eapply infix_of_trans; [|exact Hline].
    eapply infix_of_trans; [apply (infix_of_flat_map pr_link p ps Hp)|].
    cbn [repo_lines hd fst snd].
    exists (str "            <details class=" ++ dquote ++ str "repo-item"
            ++ dquote ++ str ">" ++ str "<summary>" ++ CHEVRON_SVG
            ++ repo_heading rn ps ++ str "</summary>"
            ++ str "<div class=" ++ dquote ++ str "pr-list" ++ dquote
            ++ str ">"),
           (str "</div></details>").
    unfold repo_heading. rewrite <- !app_assoc. reflexivity.
Qed.

Lemma rendered_pr_link (prs : list pr) (p : pr) :
  In p prs ->
  infix_of (pr_link p) (generate_contributions_html (categorize_prs prs)).
Proof.
  intros Hp.
  assert (In p (all_records (categorize_prs prs))) as Hin.
  { eapply Permutation_in; [|exact Hp]. symmetry.
    rewrite categorize_prs_spec.
    apply all_records_perm, CATEGORIES_names_distinct. }
  unfold all_records in Hin.
  apply in_flat_map in Hin as ([rn ps] & Hentry & Hps).
  apply in_flat_map in Hentry as ([c sec] & Hsec & Hentry).
  cbn [snd] in *.
  now apply (proj2 (rendered_entry _ c sec rn ps Hsec Hentry)).
Qed.

(** C10.  A character other than ampersand, less-than, greater-than and
    double quote is left where it is and as it is; so a single quote in the
    title of a pull request stands unescaped in its anchor, and the anchor,
    single quote included, stands in the HTML rendered from any input that
    holds the pull request. *)
Theorem html_escape_keeps_other_characters :
  (forall (c : char) (before after : text),
      is_special c = false ->
      html_escape (before ++ c :: after)
        = html_escape before ++ c :: html_escape after)
  /\
  (forall (p : pr) (before after : text),
      title p = before ++ str "'" ++ after ->
      pr_link p
        = pr_link_open p ++ html_escape before ++ str "'"
          ++ html_escape after ++ str "</a>")
  /\
  (forall (prs : list pr) (p : pr) (before after : text),
      In p prs ->
      title p = before ++ str "'" ++ after ->
      infix_of
        (pr_link_open p ++ html_escape before ++ str "'"
         ++ html_escape after ++ str "</a>")
        (generate_contributions_html (categorize_prs prs))).
Proof.
  assert (forall (c : char) (before after : text),
             is_special c = false ->
             html_escape (before ++ c :: after)
               = html_escape before ++ c :: html_escape after) as Hkeep.
  { intros c before after Hc.
    change (c :: after) with ([c] ++ after).
    rewrite !html_escape_app, html_escape_char.
    unfold is_special in Hc. unfold escape_char.
    repeat (apply orb_false_iff in Hc as [Hc ?]).
    now repeat match goal with H : N.eqb _ _ = false |- _ =>
                 rewrite H; clear H end. }
  assert (forall (p : pr) (before after : text),
             title p = before ++ str "'" ++ after ->
             pr_link p
             = pr_link_open p ++ html_escape before ++ str "'"
               ++ html_escape after ++ str "</a>") as Hlink.
  { intros p before after Ht. unfold pr_link. rewrite Ht.
    change (str "'" ++ after) with ((chr "'") :: after).
    rewrite Hkeep by reflexivity.
    now rewrite <- !app_assoc. }
  split; [exact Hkeep|]. split; [exact Hlink|].
  intros prs p before after Hp Ht.
  rewrite <- (Hlink p before after Ht). now apply rendered_pr_link.
Qed.

Lemma html_escape_keeps_other_characters_witness :
  infix_of
    (pr_link_open quoted_record ++ html_escape (str "it") ++ str "'"
     ++ html_escape (str "s") ++ str "</a>")
    (generate_contributions_html (categorize_prs [quoted_record])).
Proof.
  apply (proj2 (proj2 html_escape_keeps_other_characters) [quoted_record]
           quoted_record (str "it") (str "s")).
  - now left.
  - reflexivity.
Defined.

(** X13.  Rendering drops nothing of what was categorized: the fragment
    rendered from the categorized pull requests holds the anchor of every
    pull request of the input (its URL and its escaped title), and, for
    every repository of the result, its name with the count label of its
    pull requests. *)
Theorem rendering_shows_every_pull_request :
  forall prs : list pr,
    (forall p : pr,
        In p prs ->
        infix_of (pr_link p)
          (generate_contributions_html (categorize_prs prs)))
    /\ (forall (c : text) (sec : section) (rn : text) (ps : list pr),
           In (c, sec) (categorize_prs prs) ->
           In (rn, ps) (repos sec) ->
           infix_of (repo_heading rn ps)
             (generate_contributions_html (categorize_prs prs))).
Proof.
  intros prs. split.
  - intros p. apply rendered_pr_link.
  - intros c sec rn ps Hsec Hentry.
    now apply (proj1 (rendered_entry _ c sec rn ps Hsec Hentry)).
Qed.

Lemma rendering_shows_every_pull_request_witness :
  infix_of (pr_link sample_record)
    (generate_contributions_html (categorize_prs [sample_record])).
Proof.
  apply (proj1 (rendering_shows_every_pull_request [sample_record])).
  now left.
Defined.

(* ================================================================== *)
(** ** The patcher keeps the markers *)
(* ================================================================== *)

(** X14.  When the patcher returns after splicing in a rendered fragment,
    the file it wrote holds both markers again, so the next run finds
    them. *)
Theorem patched_file_keeps_markers :
  forall (path : text) (categorized : dict section) (w : world),
    fst (update_index_html path (generate_contributions_html categorized) w)
      = Ok tt ->
    find START_MARKER
      (index_html (patched path (generate_contributions_html categorized) w))
      <> -1
    /\ find END_MARKER
         (index_html
            (patched path (generate_contributions_html categorized) w))
       <> -1.
Proof.
  intros path cz w Hok.
  destruct (Z.eq_dec (find START_MARKER (file_text w)) (-1)) as [Hs|Hs].
  { rewrite (update_index_html_missing _ _ _ (or_introl Hs)) in Hok.
    discriminate. }
  destruct (Z.eq_dec (find END_MARKER (file_text w)) (-1)) as [He|He].
  { rewrite (update_index_html_missing _ _ _ (or_intror He)) in Hok.
    discriminate. }
  unfold patched. rewrite (update_index_html_run _ _ _ Hs He) in *.
  match goal with
  | |- context [write_and_report path ?c w] =>
      destruct (utf8_encodable c) eqn:Henc
  end.
  2:{ rewrite write_and_report_fails in Hok by assumption. discriminate. }
  rewrite write_and_report_ok by assumption.
  cbn [snd index_html]. rewrite fragment_shape.
  split; apply infix_found.
  - apply infix_of_app_l, infix_of_app_r.
    exists indent6, ([nl] ++ fragment_middle cz ++ [nl]
                     ++ indent6 ++ END_MARKER).
    now rewrite <- !app_assoc.
  - apply infix_of_app_l, infix_of_app_r.
    exists ((indent6 ++ START_MARKER) ++ [nl] ++ fragment_middle cz
            ++ [nl] ++ indent6), [].
    now rewrite app_nil_r, <- !app_assoc.
Qed.

Lemma patched_file_keeps_markers_witness :
  find START_MARKER
    (index_html
       (patched (str "index.html")
          (generate_contributions_html (categorize_prs [sample_record]))
          (file_world example_doc))) <> -1
  /\ find END_MARKER
       (index_html
          (patched (str "index.html")
             (generate_contributions_html (categorize_prs [sample_record]))
             (file_world example_doc))) <> -1.
Proof.
  apply (patched_file_keeps_markers (str "index.html")
           (categorize_prs [sample_record]) (file_world example_doc)).
  vm_compute. reflexivity.
Defined.

(* ================================================================== *)
(** ** The entry point, end to end *)
(* ================================================================== *)

(** X15.  When the simulated API yields no record to keep (no item at all,
    or only items of excluded repositories), [main] prints the fetch summary
    and a warning and exits with status 0: index.html is not touched and
    nothing is written. *)
Theorem main_without_pull_requests_exits_zero :
  forall (path : text) (py_int : text -> option Z) (all : list item)
         (recs : list pr) (w : world),
    api w = sim_api all ->
    map (item_record py_int) all = map Some recs ->
    filter kept (firstn 1000 recs) = [] ->
    main path py_int w
    = (Exit 0,
       after w (pages_needed (length all))
         (map get_page (seq 1 (pages_needed (length all)))
          ++ [Print (fetched_line []);
              Print (str "Warning: No merged PRs found. Skipping update.")])).
Proof.
  intros path py_int all recs w Hapi Hrecs Hnone.
  rewrite main_run, (fetch_merged_prs_sim py_int all recs Hrecs w Hapi).
  rewrite Hnone. rewrite after_after. f_equal.
  rewrite Nat.add_0_r, <- app_assoc. reflexivity.
Qed.

Lemma main_without_pull_requests_exits_zero_witness :
  main (str "index.html") decimal (sim_world [])
  = (Exit 0,
     after (sim_world []) (pages_needed 0)
       (map get_page (seq 1 (pages_needed 0))
        ++ [Print (fetched_line []);
            Print (str "Warning: No merged PRs found. Skipping update.")])).
Proof.
  apply (main_without_pull_requests_exits_zero (str "index.html") decimal
           [] [] (sim_world [])); reflexivity.
Defined.

(** X16.  End to end: against a simulated API with well-formed items of
    which at least one is kept, on an index.html that is read (in text
    mode) as a prefix, the indented start marker line, old content, the end
    marker line and a suffix (no marker in the prefix, no end marker in the
    old content), [main] writes the prefix, a newline, the fragment rendered
    from the categorized kept records, a newline and the suffix; it returns
    normally and leaves that text in index.html when UTF-8 can encode it. *)
Theorem main_replaces_section_with_rendered_records :
  forall (path : text) (py_int : text -> option Z) (all : list item)
         (recs : list pr) (w : world) (PREFIX OLD SUFFIX : text),
    api w = sim_api all ->
    map (item_record py_int) all = map Some recs ->
    filter kept (firstn 1000 recs) <> [] ->
    find START_MARKER PREFIX = -1 ->
    find END_MARKER PREFIX = -1 ->
    find END_MARKER OLD = -1 ->
    file_text w = marked_doc PREFIX OLD SUFFIX ->
    utf8_encodable
      (PREFIX ++ [nl]
       ++ generate_contributions_html
            (categorize_prs (filter kept (firstn 1000 recs)))
       ++ [nl] ++ SUFFIX) = true ->
    fst (main path py_int w) = Ok tt
    /\ index_html (snd (main path py_int w))
       = PREFIX ++ [nl]
         ++ generate_contributions_html
              (categorize_prs (filter kept (firstn 1000 recs)))
         ++ [nl] ++ SUFFIX.
Proof.
  intros path py_int all recs w PREFIX OLD SUFFIX Hapi Hrecs Hsome
         Hs He Hold Hdoc Henc.
  rewrite main_run, (fetch_merged_prs_sim py_int all recs Hrecs w Hapi).
  destruct (filter kept (firstn 1000 recs)) as [|p prs]; [contradiction|].
  rewrite (patch_marked_doc path PREFIX OLD SUFFIX) by assumption.
  rewrite write_and_report_ok by assumption. split; reflexivity.
Qed.

Lemma main_replaces_section_with_rendered_records_witness :
  fst (main (str "index.html") decimal
         {| api := sim_api [sample_item]; served := 0;
            index_html := example_doc; log := [] |}) = Ok tt
  /\ index_html
       (snd (main (str "index.html") decimal
               {| api := sim_api [sample_item]; served := 0;
                  index_html := example_doc; log := [] |}))
     = str "PREFIX" ++ [nl]
       ++ generate_contributions_html
            (categorize_prs (filter kept (firstn 1000 [sample_record])))
       ++ [nl] ++ str "SUFFIX".
Proof.
  apply (main_replaces_section_with_rendered_records (str "index.html")
           decimal [sample_item] [sample_record]
           {| api := sim_api [sample_item]; served := 0;
              index_html := example_doc; log := [] |}
           (str "PREFIX") (str "OLD") (str "SUFFIX")).
  - reflexivity.
  - vm_compute. reflexivity.
  - vm_compute. discriminate.
  - vm_compute. reflexivity.
  - vm_compute. reflexivity.
  - vm_compute. reflexivity.
  - vm_compute. reflexivity.
  - vm_compute. reflexivity.
Defined.

(** What the patcher returns and writes depends on the world only through
    the content of index.html, and it leaves the API alone. *)
Lemma update_index_html_file_only (path new : text) (w w2 : world) :
  index_html w = index_html w2 ->
  fst (update_index_html path new w) = fst (update_index_html path new w2)
  /\ index_html (snd (update_index_html path new w))
     = index_html (snd (update_index_html path new w2)).
Proof.
  intros H.
  unfold update_index_html, bind, read_index, write_index, print, emit,
    sys_exit.
  rewrite H. destruct (_ || _); cbn [fst snd index_html]; [auto|].
  destruct (utf8_encodable _); cbn [fst snd index_html]; auto.
Qed.

Lemma update_index_html_keeps_api (path new : text) (w : world) :
  api (snd (update_index_html path new w)) = api w.
Proof.
  unfold update_index_html, bind, read_index, write_index, print, emit,
    sys_exit.
  destruct (_ || _); cbn [fst snd api]; [reflexivity|].
  destruct (utf8_encodable _); reflexivity.
Qed.

(** A run of [main] against a simulated API that yields records to keep is
    a run of the patcher on the same index.html and API. *)
Lemma main_sim_run (path : text) (py_int : text -> option Z)
    (all : list item) (recs : list pr) (w : world) :
  api w = sim_api all ->
  map (item_record py_int) all = map Some recs ->
  filter kept (firstn 1000 recs) <> [] ->
  exists w0,
    main path py_int w
    = update_index_html path
        (generate_contributions_html
           (categorize_prs (filter kept (firstn 1000 recs)))) w0
    /\ index_html w0 = index_html w /\ api w0 = api w.
Proof.
  intros Hapi Hrecs Hsome.
  rewrite main_run, (fetch_merged_prs_sim py_int all recs Hrecs w Hapi).
  destruct (filter kept (firstn 1000 recs)) as [|p prs]; [contradiction|].
  eexists. split; [reflexivity|]. split; reflexivity.
Qed.

(** A line is read as a line. *)
Lemma universal_newlines_line (b : bool) (P : text) :
  b = false \/ P <> [] ->
  exists P', universal_newlines_from b (P ++ [nl]) = P' ++ [nl].
Proof.
  revert b; induction P as [|c P IH]; intros b Hb.
  - destruct Hb as [-> | Hb]; [|contradiction]. now exists [].
  - cbn [app universal_newlines_from].
    destruct (N.eqb c cr).
    + destruct P as [|c' P].
      * now exists [].
      * destruct (IH true) as [P' ->]; [right; discriminate|].
        now exists (nl :: P').
    + destruct (N.eqb c nl && b).
      * destruct (IH false) as [P' ->]; [now left|]. now exists P'.
      * destruct (IH false) as [P' ->]; [now left|]. now exists (c :: P').
Qed.

(** A marker that does not occur in the lines above does not occur in what
    is read of them. *)
Lemma absent_from_line_read (m P P' : text) :
  ~ In cr m -> ~ In nl m ->
  universal_newlines_from false (P ++ [nl]) = P' ++ [nl] ->
  find m P = -1 -> find m P' = -1.
Proof.
  intros Hcr Hnl E H.
  destruct (Z.eq_dec (find m P') (-1)) as [G|G]; [exact G|]. exfalso.
  apply find_infix in G. apply (infix_of_app_r _ _ [nl]) in G.
  rewrite <- E in G. apply universal_newlines_infix in G; [|assumption..].
  apply infix_found in G. apply G.
  rewrite (find_past_line m P [] Hnl H).
  destruct m as [|x m]; [destruct P; discriminate H|]. reflexivity.
Qed.

(** A marked document is read as a marked document. *)
Lemma marked_doc_read (PREFIX OLD SUFFIX : text) :
  find START_MARKER PREFIX = -1 ->
  find END_MARKER PREFIX = -1 ->
  find END_MARKER OLD = -1 ->
  exists P' O' S',
    universal_newlines (marked_doc PREFIX OLD SUFFIX) = marked_doc P' O' S'
    /\ find START_MARKER P' = -1
    /\ find END_MARKER P' = -1
    /\ find END_MARKER O' = -1.
Proof.
  intros Hs He Hold.
  destruct (universal_newlines_line false PREFIX (or_introl eq_refl))
    as [P' EP].
  destruct (universal_newlines_line false OLD (or_introl eq_refl))
    as [O' EO].
  exists P', O', (universal_newlines_from false SUFFIX).
  split; [|split; [|split]].
  - unfold universal_newlines, marked_doc.
    replace (PREFIX ++ [nl] ++ str "  " ++ START_MARKER ++ [nl] ++ OLD
             ++ [nl] ++ END_MARKER ++ [nl] ++ SUFFIX)
      with ((PREFIX ++ [nl]) ++ (str "  " ++ START_MARKER)
            ++ (nl :: (OLD ++ [nl]) ++ END_MARKER ++ (nl :: SUFFIX)))
      by (now rewrite <- !app_assoc).
    rewrite universal_newlines_around;
      [|discriminate|not_in_literal|not_in_literal].
    rewrite EP.
    change (universal_newlines_from false
              (nl :: (OLD ++ [nl]) ++ END_MARKER ++ nl :: SUFFIX))
      with (nl :: universal_newlines_from false
                    ((OLD ++ [nl]) ++ END_MARKER ++ nl :: SUFFIX)).
    rewrite universal_newlines_around;
      [|discriminate|not_in_literal|not_in_literal].
    rewrite EO.
    change (universal_newlines_from false (nl :: SUFFIX))
      with (nl :: universal_newlines_from false SUFFIX).
    now rewrite <- !app_assoc.
  - apply (absent_from_line_read _ PREFIX); auto; not_in_literal.
  - apply (absent_from_line_read _ PREFIX); auto; not_in_literal.
  - apply (absent_from_line_read _ OLD); auto; not_in_literal.
Qed.

(** X17.  Running [main] twice is running it once: against the same
    simulated API with records to keep, on an index.html made of a prefix,
    the indented start marker line, old content, the end marker line and a
    suffix (no marker in the prefix, no end marker in the old content), and
    when the end marker occurs in the rendered fragment only as its last
    line, the second run leaves index.html as the first run made it, and
    returns normally when the first run did. *)
Theorem main_twice_is_main_once :
  forall (path : text) (py_int : text -> option Z) (all : list item)
         (recs : list pr) (w : world) (PREFIX OLD SUFFIX : text),
    api w = sim_api all ->
    map (item_record py_int) all = map Some recs ->
    filter kept (firstn 1000 recs) <> [] ->
    find START_MARKER PREFIX = -1 ->
    find END_MARKER PREFIX = -1 ->
    find END_MARKER OLD = -1 ->
    index_html w = marked_doc PREFIX OLD SUFFIX ->
    find END_MARKER
      (generate_contributions_html
         (categorize_prs (filter kept (firstn 1000 recs))))
    = len (generate_contributions_html
             (categorize_prs (filter kept (firstn 1000 recs))))
      - len END_MARKER ->
    (fst (main path py_int w) = Ok tt ->
     fst (main path py_int (snd (main path py_int w))) = Ok tt)
    /\ index_html (snd (main path py_int (snd (main path py_int w))))
       = index_html (snd (main path py_int w)).
Proof.
  intros path py_int all recs w PREFIX OLD SUFFIX Hapi Hrecs Hsome
         Hs He Hold Hdoc Hfrag.
  destruct (main_sim_run path py_int all recs w Hapi Hrecs Hsome)
    as (w0 & Hrun & Hfile0 & Hapi0).
  set (frag := generate_contributions_html
                 (categorize_prs (filter kept (firstn 1000 recs)))) in *.
  assert (api (snd (main path py_int w)) = sim_api all) as Hapi1.
  { rewrite Hrun, update_index_html_keeps_api. congruence. }
  destruct (main_sim_run path py_int all recs (snd (main path py_int w))
              Hapi1 Hrecs Hsome) as (w1 & Hrun1 & Hfile1 & _).
  fold frag in Hrun1. rewrite Hrun1.
  assert (index_html w1 = index_html (patched path frag w0)) as Hsame
    by (rewrite Hfile1, Hrun; reflexivity).
  destruct (update_index_html_file_only path frag _ _ Hsame) as [-> ->].
  rewrite Hrun. fold (patched path frag w0).
  destruct (marked_doc_read PREFIX OLD SUFFIX Hs He Hold)
    as (P' & O' & S' & Eread & Hs' & He' & Hold').
  assert (file_text w0 = marked_doc P' O' S') as Hdoc0.
  { unfold file_text. now rewrite Hfile0, Hdoc. }
  destruct (marked_doc_markers P' O' S' Hs' He' Hold') as [Hfs Hfe].
  rewrite <- Hdoc0 in Hfs, Hfe.
  assert (frag
          = (indent6 ++ START_MARKER)
            ++ ([nl] ++ fragment_middle
                          (categorize_prs (filter kept (firstn 1000 recs)))
                ++ [nl] ++ indent6)
            ++ END_MARKER) as Eshape.
  { unfold frag. rewrite fragment_shape. now rewrite <- !app_assoc. }
  rewrite Eshape in *.
  destruct (patch_twice_same path
              ([nl] ++ fragment_middle
                         (categorize_prs (filter kept (firstn 1000 recs)))
               ++ [nl] ++ indent6)
              w0 (P' ++ [nl]) (str "  ")
              (START_MARKER ++ [nl] ++ O' ++ [nl] ++ END_MARKER
                 ++ [nl] ++ S')) as (Hsame2 & Hok2 & _); auto.
  - rewrite Hdoc0. unfold marked_doc. now rewrite <- !app_assoc.
  - rewrite Hfs, !len_app. change (len [nl]) with 1.
    change (len (str "  ")) with 2. lia.
  - not_in_literal.
  - now exists P'.
  - rewrite Hfe. pose proof (len_nonneg P'). pose proof (len_nonneg O').
    lia.
  - rewrite Hfe, len_app. change (len [nl]) with 1.
    change (len END_MARKER) with 26. pose proof (len_nonneg O'). lia.
Qed.

Lemma main_twice_is_main_once_witness :
  (fst (main (str "index.html") decimal
          {| api := sim_api [sample_item]; served := 0;
             index_html := example_doc; log := [] |}) = Ok tt ->
   fst (main (str "index.html") decimal
          (snd (main (str "index.html") decimal
                  {| api := sim_api [sample_item]; served := 0;
                     index_html := example_doc; log := [] |}))) = Ok tt)
  /\ index_html
       (snd (main (str "index.html") decimal
               (snd (main (str "index.html") decimal
                       {| api := sim_api [sample_item]; served := 0;
                          index_html := example_doc; log := [] |}))))
     = index_html
         (snd (main (str "index.html") decimal
                 {| api := sim_api [sample_item]; served := 0;
                    index_html := example_doc; log := [] |})).
Proof.
  apply (main_twice_is_main_once (str "index.html") decimal [sample_item]
           [sample_record]
           {| api := sim_api [sample_item]; served := 0;
              index_html := example_doc; log := [] |}
           (str "PREFIX") (str "OLD") (str "SUFFIX")).
  - reflexivity.
  - vm_compute. reflexivity.
  - vm_compute. discriminate.
  - vm_compute. reflexivity.
  - vm_compute. reflexivity.
  - vm_compute. reflexivity.
  - reflexivity.
  - vm_compute. reflexivity.
Defined.
